(** * Traffic-signal scheduler and camera workers

    A shallow embedding of [multi_camera_processor.py] (the camera worker
    loop [process_camera], the emergency activation [override_signal] and
    the scheduler loop [update_traffic_signals]) and of the status query
    [get_emergency_status] of [main.py], with the properties of the
    specification stated over it.

    Conventions of the embedding.
    - Python integers are [Z]; lane identifiers (camera ids) are strings.
    - [time.time()] readings are rationals; the subtraction of two readings
      is taken exact and [int(_)] is truncation toward zero.
    - [vehicle_counts] is iterated by the scheduler, so it is an association
      list in insertion order; the other dictionaries are only read by key
      and are finite maps.  [traffic_lights] is keyed by [option string]
      because the scheduler indexes it with [emergency_override["cam_id"]],
      which may be [None].
    - The [defaultdict]s [lane_priority], [vehicle_last_positions] and
      [violated_ids] are only ever read through their defaulting lookup, so
      a missing key stands for the default value; the key that such a read
      stores in Python is not observable by this module and is not stored
      here.
    - A call that may raise returns a [result]; the globals keep the value
      they had when the exception was raised.
    - Printing and drawing on the frame image are not modelled. *)

From Stdlib Require Import ZArith QArith Lia.
From stdpp Require Import base option list gmap sets strings.

Close Scope Q_scope.
Local Open Scope Z_scope.

(** ** Python helpers *)

Module Py.

(** Outcome of a call: a value, or an exception. *)
Inductive result (A : Type) : Type :=
| Ok (a : A)
| Raise.
Global Arguments Ok {A} a.
Global Arguments Raise {A}.

Definition rbind {A B} (r : result A) (k : A → result B) : result B :=
  match r with
  | Ok a => k a
  | Raise => Raise
  end.

(** [d[k] = v] on an insertion-ordered dictionary: an existing key keeps
    its position, a new key goes last. *)
Fixpoint dict_set {V} (d : list (string * V)) (k : string) (v : V)
  : list (string * V) :=
  match d with
  | [] => [(k, v)]
  | (k', v') :: d' =>
      if String.eqb k' k then (k', v) :: d' else (k', v') :: dict_set d' k v
  end.

Fixpoint dict_get {V} (d : list (string * V)) (k : string) : option V :=
  match d with
  | [] => None
  | (k', v') :: d' => if String.eqb k' k then Some v' else dict_get d' k
  end.

(** [max(first, *rest, key=key)]: the first maximal element wins. *)
Fixpoint max_by {A} (key : A → Z) (best : A) (rest : list A) : A :=
  match rest with
  | [] => best
  | x :: rest' =>
      if key best <? key x then max_by key x rest' else max_by key best rest'
  end.

(** [a % b]; ZeroDivisionError when [b = 0].  The result has the sign of
    the divisor, as [Z.modulo]. *)
Definition mod_ (a b : Z) : result Z :=
  if b =? 0 then Raise else Ok (a mod b).

(** [l[i]]; negative indices count from the end, IndexError out of
    range. *)
Definition getitem {A} (l : list A) (i : Z) : result A :=
  let j := if i <? 0 then Z.of_nat (length l) + i else i in
  if j <? 0 then Raise
  else match l !! Z.to_nat j with
       | Some x => Ok x
       | None => Raise
       end.

(** Truth value of a string: only the empty string is false. *)
Definition truthy (s : string) : bool := negb (String.eqb s EmptyString).

(** [int(q)] for a float [q]: truncation toward zero. *)
Definition int_of (q : Q) : Z := Z.quot (Qnum q) (Z.pos (Qden q)).

Definition Qltb (x y : Q) : bool :=
  match (x ?= y)%Q with
  | Lt => true
  | _ => false
  end.

End Py.

Import Py.

(** ** Global state of [multi_camera_processor] *)

Inductive Color := RED | GREEN.

Definition color_eqb (a b : Color) : bool :=
  match a, b with
  | RED, RED | GREEN, GREEN => true
  | _, _ => false
  end.

(** Calls to external collaborators that the trace notes. *)
Inductive Event :=
| EvGetSpeed (cam : string) (vehicle_id : Z)
| EvSnapshot (cam : string) (vehicle_id : Z)
| EvLogViolation (cam : string) (vehicle_id : Z) (speed : Z)
| EvIncrementVehicle.

Record EmergencyOverride := {
  active : bool;
  cam_id : option string;
  timestamp : Q
}.

Record State := {
  vehicle_counts : list (string * Z);
  traffic_lights : gmap (option string) Color;
  vehicle_last_positions : gmap string (gmap Z Z);
  violated_ids : gmap string (gset Z);
  lane_cycle : list string;
  current_index : Z;
  lane_priority : gmap string Z;
  emergency_override : EmergencyOverride;
  (** calls made so far to the external collaborators, newest first *)
  trace : list Event
}.

Definition LOW_TRAFFIC_THRESHOLD : Z := 2.
Definition WAIT_LIMIT : Z := 3.
Definition EMERGENCY_HOLD_TIME : Z := 20.

Definition initial_state : State := {|
  vehicle_counts := [];
  traffic_lights := ∅;
  vehicle_last_positions := ∅;
  violated_ids := ∅;
  lane_cycle := [];
  current_index := 0;
  lane_priority := ∅;
  emergency_override := {| active := false; cam_id := None; timestamp := 0%Q |};
  trace := []
|}.

Definition with_vehicle_counts (v : list (string * Z)) (s : State) : State :=
  {| vehicle_counts := v; traffic_lights := traffic_lights s;
     vehicle_last_positions := vehicle_last_positions s;
     violated_ids := violated_ids s; lane_cycle := lane_cycle s;
     current_index := current_index s; lane_priority := lane_priority s;
     emergency_override := emergency_override s; trace := trace s |}.

Definition with_traffic_lights (v : gmap (option string) Color) (s : State)
  : State :=
  {| vehicle_counts := vehicle_counts s; traffic_lights := v;
     vehicle_last_positions := vehicle_last_positions s;
     violated_ids := violated_ids s; lane_cycle := lane_cycle s;
     current_index := current_index s; lane_priority := lane_priority s;
     emergency_override := emergency_override s; trace := trace s |}.

Definition with_vehicle_last_positions (v : gmap string (gmap Z Z))
  (s : State) : State :=
  {| vehicle_counts := vehicle_counts s; traffic_lights := traffic_lights s;
     vehicle_last_positions := v;
     violated_ids := violated_ids s; lane_cycle := lane_cycle s;
     current_index := current_index s; lane_priority := lane_priority s;
     emergency_override := emergency_override s; trace := trace s |}.

Definition with_violated_ids (v : gmap string (gset Z)) (s : State) : State :=
  {| vehicle_counts := vehicle_counts s; traffic_lights := traffic_lights s;
     vehicle_last_positions := vehicle_last_positions s;
     violated_ids := v; lane_cycle := lane_cycle s;
     current_index := current_index s; lane_priority := lane_priority s;
     emergency_override := emergency_override s; trace := trace s |}.

Definition with_lane_cycle (v : list string) (s : State) : State :=
  {| vehicle_counts := vehicle_counts s; traffic_lights := traffic_lights s;
     vehicle_last_positions := vehicle_last_positions s;
     violated_ids := violated_ids s; lane_cycle := v;
     current_index := current_index s; lane_priority := lane_priority s;
     emergency_override := emergency_override s; trace := trace s |}.

Definition with_current_index (v : Z) (s : State) : State :=
  {| vehicle_counts := vehicle_counts s; traffic_lights := traffic_lights s;
     vehicle_last_positions := vehicle_last_positions s;
     violated_ids := violated_ids s; lane_cycle := lane_cycle s;
     current_index := v; lane_priority := lane_priority s;
     emergency_override := emergency_override s; trace := trace s |}.

Definition with_lane_priority (v : gmap string Z) (s : State) : State :=
  {| vehicle_counts := vehicle_counts s; traffic_lights := traffic_lights s;
     vehicle_last_positions := vehicle_last_positions s;
     violated_ids := violated_ids s; lane_cycle := lane_cycle s;
     current_index := current_index s; lane_priority := v;
     emergency_override := emergency_override s; trace := trace s |}.

Definition with_emergency_override (v : EmergencyOverride) (s : State)
  : State :=
  {| vehicle_counts := vehicle_counts s; traffic_lights := traffic_lights s;
     vehicle_last_positions := vehicle_last_positions s;
     violated_ids := violated_ids s; lane_cycle := lane_cycle s;
     current_index := current_index s; lane_priority := lane_priority s;
     emergency_override := v; trace := trace s |}.

Definition with_trace (v : list Event) (s : State) : State :=
  {| vehicle_counts := vehicle_counts s; traffic_lights := traffic_lights s;
     vehicle_last_positions := vehicle_last_positions s;
     violated_ids := violated_ids s; lane_cycle := lane_cycle s;
     current_index := current_index s; lane_priority := lane_priority s;
     emergency_override := emergency_override s; trace := v |}.

(** ** [override_signal] and the scheduler *)

(** [for cam in traffic_lights: traffic_lights[cam] = "RED"] followed by
    [traffic_lights[key] = "GREEN"]. *)
Definition all_red_but (key : option string)
  (tl : gmap (option string) Color) : gmap (option string) Color :=
  <[key := GREEN]> ((λ _, RED) <$> tl).

(** [override_signal(cam_id)], with [now] the reading of [time.time()]. *)
Definition override_signal (now : Q) (cam : string) (s : State) : State :=
  with_emergency_override
    {| active := true; cam_id := Some cam; timestamp := now |}
    (with_traffic_lights (all_red_but (Some cam) (traffic_lights s)) s).

(** What one pass through the body of the scheduler loop did; the pass ends
    in [time.sleep(1)] for the first two and in [time.sleep(10)] for the
    last. *)
Inductive Outcome :=
| EmergencyHold
| Idle
| Selected (cam : string).

(** [lane_priority[cam]] *)
Definition priority_of (prio : gmap string Z) (cam : string) : Z :=
  default 0 (prio !! cam).

(** [all(count < LOW_TRAFFIC_THRESHOLD for count in counts.values())] *)
Definition low_traffic (counts : list (string * Z)) : bool :=
  forallb (λ count, count <? LOW_TRAFFIC_THRESHOLD) (counts.*2).

(** [not lane_cycle or set(lane_cycle) != set(lanes)] *)
Definition lane_set_changed (cycle lanes : list string) : bool :=
  match cycle with
  | [] => true
  | _ => negb (bool_decide
                 (list_to_set cycle =@{gset string} list_to_set lanes))
  end.

(** The scan for a lane that waited [WAIT_LIMIT] rounds, stopping at the
    first one. *)
Fixpoint forced_green (prio : gmap string Z) (lanes : list string)
  : option string :=
  match lanes with
  | [] => None
  | cam :: rest =>
      if WAIT_LIMIT <=? priority_of prio cam then Some cam
      else forced_green prio rest
  end.

(** The loop that updates the priority counters. *)
Definition update_priorities (selected_cam : string) (lanes : list string)
  (prio : gmap string Z) : gmap string Z :=
  foldl (λ p cam,
           if String.eqb cam selected_cam then <[cam := 0]> p
           else <[cam := priority_of p cam + 1]> p)
        prio lanes.

(** The loop that sets the traffic lights. *)
Definition set_lights (selected_cam : string) (lanes : list string)
  (tl : gmap (option string) Color) : gmap (option string) Color :=
  foldl (λ t cam,
           <[Some cam := if String.eqb cam selected_cam then GREEN else RED]> t)
        tl lanes.

(** The lane-cycle check: when the lane set changed the cycle is rebuilt,
    the index rewound and the counters cleared. *)
Definition refresh_lane_cycle (lanes : list string) (s : State) : State :=
  if lane_set_changed (lane_cycle s) lanes then
    with_lane_priority ∅ (with_current_index 0 (with_lane_cycle lanes s))
  else s.

(** The body of the loop from [if not vehicle_counts] on. *)
Definition select_lane (s : State) : result (State * Outcome) :=
  match vehicle_counts s with
  | [] => Ok (s, Idle)
  | first :: others =>
      let lanes := (vehicle_counts s).*1 in
      let counts := vehicle_counts s in
      let s1 := refresh_lane_cycle lanes s in
      rbind
        (if low_traffic counts then
           rbind (mod_ (current_index s1) (Z.of_nat (length (lane_cycle s1))))
             (λ i,
                rbind (getitem (lane_cycle s1) i)
                  (λ selected_cam,
                     Ok (selected_cam,
                         with_lane_priority
                           (<[selected_cam := 0]> (lane_priority s1))
                           (with_current_index (current_index s1 + 1) s1))))
         else
           let densest := (max_by snd first others).1 in
           let selected_cam :=
             match forced_green (lane_priority s1) lanes with
             | Some cam => if truthy cam then cam else densest
             | None => densest
             end in
           Ok (selected_cam,
               with_lane_priority
                 (update_priorities selected_cam lanes (lane_priority s1)) s1))
        (λ '(selected_cam, s2),
           Ok (with_traffic_lights
                 (set_lights selected_cam lanes (traffic_lights s2)) s2,
               Selected selected_cam))
  end.

(** One pass through the body of [while True] in [update_traffic_signals],
    with [now] the reading of [time.time()]. *)
Definition update_traffic_signals_step (now : Q) (s : State)
  : result (State * Outcome) :=
  let ov := emergency_override s in
  if active ov then
    let elapsed := (now - timestamp ov)%Q in
    if Qltb elapsed (inject_Z EMERGENCY_HOLD_TIME) then
      Ok (with_traffic_lights (all_red_but (cam_id ov) (traffic_lights s)) s,
          EmergencyHold)
    else
      select_lane
        (with_emergency_override
           {| active := false; cam_id := None; timestamp := timestamp ov |} s)
  else select_lane s.

(** [update_traffic_signals()], run for as many passes of its loop as
    [clock] has readings of [time.time()]. *)
Fixpoint update_traffic_signals (clock : list Q) (s : State) : result State :=
  match clock with
  | [] => Ok s
  | now :: clock' =>
      rbind (update_traffic_signals_step now s)
            (λ '(s', _), update_traffic_signals clock' s')
  end.

(** ** The camera worker [process_camera] *)

Record TrackedObject := {
  obj_id : Z;
  obj_bbox : Z * Z * Z * Z
}.

(** What the external collaborators answer while one frame is processed.
    The crossing line [int(CROSSING_LINE_Y_RATIO * frame.shape[0])] is
    computed in floating point from the frame height and is taken as
    given. *)
Record Frame := {
  fr_now : Q;                               (* time.time() *)
  fr_detect_emergency : result bool;        (* detect_emergency_vehicle(frame) *)
  fr_detections : result nat;               (* len of the boxes of model(frame) *)
  fr_tracker_update : result (list (list Z)); (* trackers[cam_id].update(dets) *)
  fr_crossing_y : Z;
  fr_get_speed : Z → result Z;              (* int(estimator.get_speed(id)) *)
  fr_imwrite : Z → result bool;             (* cv2.imwrite(snapshot_path, frame) *)
  fr_log_violation : Z → result unit;       (* log_violation(...) *)
  fr_increment_vehicle : Z → result unit;   (* stats.increment_vehicle() *)
  fr_estimator_update : result unit;        (* estimator.update(...) *)
  fr_detect_lanes : result unit             (* detect_lanes_and_assign_vehicles *)
}.

(** The globals together with the local [counted_ids] of one worker. *)
Record WorkerState := {
  globals : State;
  counted_ids : gset Z
}.

(** Computations of a worker: state passing, with exceptions that keep the
    state reached. *)
Definition W (A : Type) : Type := WorkerState → result A * WorkerState.

Definition wret {A} (a : A) : W A := λ w, (Ok a, w).

Definition wbind {A B} (m : W A) (k : A → W B) : W B :=
  λ w, match m w with
       | (Ok a, w') => k a w'
       | (Raise, w') => (Raise, w')
       end.

Notation "'let*' x ':=' m 'in' k" := (wbind m (λ x, k))
  (at level 10, x name, m at level 100, k at level 200, only parsing).
Notation "m ';;;' k" := (wbind m (λ _, k))
  (at level 100, k at level 200, right associativity, only parsing).

Definition get_globals : W State := λ w, (Ok (globals w), w).

Definition modify_globals (f : State → State) : W unit :=
  λ w, (Ok tt, {| globals := f (globals w); counted_ids := counted_ids w |}).

Definition get_counted : W (gset Z) := λ w, (Ok (counted_ids w), w).

Definition add_counted (vehicle_id : Z) : W unit :=
  λ w, (Ok tt, {| globals := globals w;
                  counted_ids := {[vehicle_id]} ∪ counted_ids w |}).

(** A call to a collaborator that keeps no record. *)
Definition call {A} (answer : result A) : W A := λ w, (answer, w).

(** A call to a collaborator that keeps records: the call is noted, then
    the collaborator answers. *)
Definition external {A} (ev : Event) (answer : result A) : W A :=
  modify_globals (λ s, with_trace (ev :: trace s) s) ;;; call answer.

(** [try: m except Exception: handler] *)
Definition try_except {A} (m handler : W A) : W A :=
  λ w, match m w with
       | (Ok a, w') => (Ok a, w')
       | (Raise, w') => handler w'
       end.

Fixpoint for_each {A} (l : list A) (body : A → W unit) : W unit :=
  match l with
  | [] => wret tt
  | x :: l' => body x ;;; for_each l' body
  end.

(** The rows returned by the tracker turned into [tracked_objects]: rows
    shorter than five are skipped, longer rows fail to unpack. *)
Fixpoint rows_to_objects (tracked : list (list Z))
  : result (list TrackedObject) :=
  match tracked with
  | [] => Ok []
  | trk :: rest =>
      if (5 <=? length trk)%nat then
        match trk with
        | [x1; y1; x2; y2; track_id] =>
            rbind (rows_to_objects rest)
              (λ objs, Ok ({| obj_id := track_id;
                              obj_bbox := (x1, y1, x2, y2) |} :: objs))
        | _ => Raise
        end
      else rows_to_objects rest
  end.

(** [vehicle_last_positions[cam_id]] and [violated_ids[cam_id]] *)
Definition positions_of (m : gmap string (gmap Z Z)) (cam : string)
  : gmap Z Z := default ∅ (m !! cam).

Definition flagged_of (m : gmap string (gset Z)) (cam : string) : gset Z :=
  default ∅ (m !! cam).

(** [traffic_lights.get(cam_id, "RED")] *)
Definition lane_color (tl : gmap (option string) Color) (cam : string)
  : Color := default RED (tl !! Some cam).

(** The block "Check for red light violations" of the loop body. *)
Definition check_violation (cam : string) (fr : Frame)
  (crossing_y vehicle_id last_y current_y : Z) : W unit :=
  if (last_y <? crossing_y) && (crossing_y <=? current_y) then
    let* s := get_globals in
    if color_eqb (lane_color (traffic_lights s) cam) RED
       && negb (bool_decide (vehicle_id ∈ flagged_of (violated_ids s) cam))
    then
      let* speed :=
        external (EvGetSpeed cam vehicle_id) (fr_get_speed fr vehicle_id) in
      let* _ :=
        external (EvSnapshot cam vehicle_id) (fr_imwrite fr vehicle_id) in
      external (EvLogViolation cam vehicle_id speed)
        (fr_log_violation fr vehicle_id) ;;;
      modify_globals
        (λ s, with_violated_ids
                (<[cam := {[vehicle_id]} ∪ flagged_of (violated_ids s) cam]>
                   (violated_ids s)) s)
    else wret tt
  else wret tt.

(** The block "Count unique vehicles" of the loop body. *)
Definition count_vehicle (fr : Frame) (vehicle_id : Z) : W unit :=
  let* counted := get_counted in
  if bool_decide (vehicle_id ∈ counted) then wret tt
  else
    external EvIncrementVehicle (fr_increment_vehicle fr vehicle_id) ;;;
    add_counted vehicle_id.

(** The body of [for obj in tracked_objects]. *)
Definition process_object (cam : string) (fr : Frame) (crossing_y : Z)
  (obj : TrackedObject) : W unit :=
  let vehicle_id := obj_id obj in
  let '(x1, y1, x2, y2) := obj_bbox obj in
  let current_y := y2 in
  let* s := get_globals in
  let last_y :=
    default current_y
      (positions_of (vehicle_last_positions s) cam !! vehicle_id) in
  modify_globals
    (λ s, with_vehicle_last_positions
            (<[cam := <[vehicle_id := current_y]>
                        (positions_of (vehicle_last_positions s) cam)]>
               (vehicle_last_positions s)) s) ;;;
  check_violation cam fr crossing_y vehicle_id last_y current_y ;;;
  count_vehicle fr vehicle_id.

(** The tracking step: no tracker call without detections; an exception of
    the tracker or of the unpacking of its rows leaves no tracked
    object. *)
Definition track (fr : Frame) (n_detections : nat)
  : W (list TrackedObject) :=
  match n_detections with
  | O => wret []
  | _ =>
      try_except
        (let* tracked := call (fr_tracker_update fr) in
         call (rows_to_objects tracked))
        (wret [])
  end.

(** The body of [while cap.isOpened()] for a frame that was read. *)
Definition process_frame (cam : string) (fr : Frame) : W unit :=
  let* emergency := call (fr_detect_emergency fr) in
  (if emergency : bool then modify_globals (override_signal (fr_now fr) cam)
   else wret tt) ;;;
  let* n_detections := call (fr_detections fr) in
  let* tracked_objects := track fr n_detections in
  let crossing_y := fr_crossing_y fr in
  for_each tracked_objects (process_object cam fr crossing_y) ;;;
  modify_globals
    (λ s, with_vehicle_counts
            (dict_set (vehicle_counts s) cam
               (Z.of_nat (length tracked_objects))) s) ;;;
  call (fr_estimator_update fr) ;;;
  call (fr_detect_lanes fr).

(** What follows the loop: [vehicle_counts[cam_id] = 0]. *)
Definition publish_end (cam : string) (s : State) : State :=
  with_vehicle_counts (dict_set (vehicle_counts s) cam 0) s.

(** [process_camera(cam_id, video_path)] on a video that delivers [frames]
    and then ends. *)
Definition process_camera (cam : string) (frames : list Frame) : W unit :=
  for_each frames (process_frame cam) ;;;
  modify_globals (publish_end cam).

(** ** [main.py] *)

Module Main.

(** [main.py] declares a dictionary and a constant of its own; it imports
    only [start_all_cameras], [start_signal_updater] and
    [start_audio_monitor] from [multi_camera_processor]. *)
Definition emergency_override : EmergencyOverride :=
  {| active := false; cam_id := None; timestamp := 0%Q |}.

Definition EMERGENCY_HOLD_TIME : Z := 20.

Record EmergencyStatus := {
  status_active : bool;
  status_cam_id : option string;
  remaining_time : Z
}.

(** [get_emergency_status()] reading the dictionary [ov], with [now] the
    reading of [time.time()]. *)
Definition get_emergency_status (now : Q) (ov : EmergencyOverride)
  : EmergencyStatus :=
  {| status_active := active ov;
     status_cam_id := cam_id ov;
     remaining_time :=
       if active ov then
         Z.max 0 (EMERGENCY_HOLD_TIME - int_of (now - timestamp ov)%Q)
       else 0 |}.

End Main.

(** ** The running process

    [start_all_cameras] starts one worker thread per key of
    [camera_sources] and [start_signal_updater] one scheduler thread.  A
    thread whose function returns or raises is gone for the rest of the
    process.  The threads are interleaved at the grain of one frame of a
    worker and one pass of the scheduler loop. *)

Record System := {
  sys_globals : State;
  (** the workers still running, each with its [counted_ids] *)
  sys_workers : gmap string (gset Z);
  sys_scheduler_running : bool;
  (** the dictionary [emergency_override] of [main.py] *)
  sys_main_override : EmergencyOverride
}.

Inductive Op :=
| OpFrame (cam : string) (fr : Frame)   (* a worker reads and processes a frame *)
| OpEnd (cam : string)                  (* a worker finds its video at its end *)
| OpTick (now : Q).                     (* one pass of the scheduler loop *)

Definition start (camera_sources : list string) : System :=
  {| sys_globals := initial_state;
     sys_workers := list_to_map ((λ cam, (cam, ∅)) <$> camera_sources);
     sys_scheduler_running := true;
     sys_main_override := Main.emergency_override |}.

Definition step (sys : System) (op : Op) : System :=
  match op with
  | OpFrame cam fr =>
      match sys_workers sys !! cam with
      | None => sys
      | Some counted =>
          match process_frame cam fr
                  {| globals := sys_globals sys; counted_ids := counted |} with
          | (Ok _, w) =>
              {| sys_globals := globals w;
                 sys_workers := <[cam := counted_ids w]> (sys_workers sys);
                 sys_scheduler_running := sys_scheduler_running sys;
                 sys_main_override := sys_main_override sys |}
          | (Raise, w) =>
              {| sys_globals := globals w;
                 sys_workers := delete cam (sys_workers sys);
                 sys_scheduler_running := sys_scheduler_running sys;
                 sys_main_override := sys_main_override sys |}
          end
      end
  | OpEnd cam =>
      match sys_workers sys !! cam with
      | None => sys
      | Some _ =>
          {| sys_globals := publish_end cam (sys_globals sys);
             sys_workers := delete cam (sys_workers sys);
             sys_scheduler_running := sys_scheduler_running sys;
             sys_main_override := sys_main_override sys |}
      end
  | OpTick now =>
      if sys_scheduler_running sys then
        match update_traffic_signals_step now (sys_globals sys) with
        | Ok (s', _) =>
            {| sys_globals := s';
               sys_workers := sys_workers sys;
               sys_scheduler_running := true;
               sys_main_override := sys_main_override sys |}
        | Raise =>
            {| sys_globals := sys_globals sys;
               sys_workers := sys_workers sys;
               sys_scheduler_running := false;
               sys_main_override := sys_main_override sys |}
        end
      else sys
  end.

Definition run (sys : System) (ops : list Op) : System := foldl step sys ops.

(** The violation records handed to [log_violation], as (lane, vehicle)
    pairs. *)
Fixpoint violation_records (tr : list Event) : list (string * Z) :=
  match tr with
  | [] => []
  | EvLogViolation cam vehicle_id _ :: tr' =>
      (cam, vehicle_id) :: violation_records tr'
  | _ :: tr' => violation_records tr'
  end.


(** ** The challan download of [main.py] *)

Module Challan.
Import Stdlib.Strings.Ascii.

(** [s.split(sep)] for a separator of one character: the pieces between
    the occurrences of [sep] in order, empty pieces included. *)
Fixpoint split_char (sep : ascii) (s : string) : list string :=
  match s with
  | EmptyString => [EmptyString]
  | String c s' =>
      if Ascii.eqb c sep then EmptyString :: split_char sep s'
      else match split_char sep s' with
           | piece :: pieces => String c piece :: pieces
           | [] => [String c EmptyString]
           end
  end.

(** The separator of [pdf_path.split("/")]. *)
Definition slash : ascii := "/"%char.

(** What the endpoint answers: the response for
    [HTTPException(status_code=404)], or a file response. *)
Inductive Reply :=
| NotFound
| FileResponse (path filename : string).

(** [download_challan(pdf_path)], with [path_exists] the answer of
    [os.path.exists]. *)
Definition download_challan (path_exists : string → bool) (pdf_path : string)
  : result Reply :=
  if negb (path_exists pdf_path) then Ok NotFound
  else
    rbind (getitem (split_char slash pdf_path) (-1))
      (λ filename, Ok (FileResponse pdf_path filename)).

End Challan.

(** * Vocabulary of the properties *)

(** Exactly one lane of the table is GREEN and every other lane is RED. *)
Definition one_green (tl : gmap (option string) Color) : Prop :=
  ∃ g, tl !! g = Some GREEN ∧
       ∀ k, k ≠ g → is_Some (tl !! k) → tl !! k = Some RED.

(** The configured lanes: the keys of [vehicle_counts]. *)
Definition lanes_of (s : State) : list string := (vehicle_counts s).*1.

(** The counters that the selection starts from: the stored ones, or none
    when the lane set changed. *)
Definition base_priority (s : State) : gmap string Z :=
  lane_priority (refresh_lane_cycle (lanes_of s) s).

(** The lane of maximal occupancy, first in iteration order. *)
Definition densest (counts : list (string * Z)) : option string :=
  match counts with
  | [] => None
  | first :: others => Some (max_by snd first others).1
  end.

(** The lane that the fairness scan and the density rule pick. *)
Definition busy_choice (s : State) : option string :=
  match forced_green (base_priority s) (lanes_of s) with
  | Some cam => if truthy cam then Some cam else densest (vehicle_counts s)
  | None => densest (vehicle_counts s)
  end.

(** The lane that round robin picks. *)
Definition cyclic_choice (s : State) : result string :=
  let s1 := refresh_lane_cycle (lanes_of s) s in
  rbind (mod_ (current_index s1) (Z.of_nat (length (lane_cycle s1))))
        (getitem (lane_cycle s1)).

(** The pass holds the emergency: the override is active and younger than
    the hold time. *)
Definition emergency_holds (now : Q) (s : State) : bool :=
  active (emergency_override s)
  && Qltb (now - timestamp (emergency_override s))%Q
          (inject_Z EMERGENCY_HOLD_TIME).

(** The state that lane selection starts from: an active override is
    cleared first. *)
Definition release (s : State) : State :=
  if active (emergency_override s) then
    with_emergency_override
      {| active := false; cam_id := None;
         timestamp := timestamp (emergency_override s) |} s
  else s.

(** The worker state after a call to a record-keeping collaborator. *)
Definition noted (ev : Event) (w : WorkerState) : WorkerState :=
  {| globals := with_trace (ev :: trace (globals w)) (globals w);
     counted_ids := counted_ids w |}.

(** The worker state after [violated_ids[cam_id].add(vehicle_id)]. *)
Definition flagged (cam : string) (vehicle_id : Z) (w : WorkerState)
  : WorkerState :=
  {| globals :=
       with_violated_ids
         (<[cam := {[vehicle_id]} ∪ flagged_of (violated_ids (globals w)) cam]>
            (violated_ids (globals w))) (globals w);
     counted_ids := counted_ids w |}.

(** The worker state after
    [vehicle_last_positions[cam_id][vehicle_id] = current_y]. *)
Definition positioned (cam : string) (vehicle_id current_y : Z)
  (w : WorkerState) : WorkerState :=
  {| globals :=
       with_vehicle_last_positions
         (<[cam := <[vehicle_id := current_y]>
                     (positions_of (vehicle_last_positions (globals w)) cam)]>
            (vehicle_last_positions (globals w))) (globals w);
     counted_ids := counted_ids w |}.

(** The test that guards the violation block. *)
Definition signalled (cam : string) (crossing_y vehicle_id last_y current_y : Z)
  (s : State) : bool :=
  (last_y <? crossing_y) && (crossing_y <=? current_y)
  && (color_eqb (lane_color (traffic_lights s) cam) RED
      && negb (bool_decide (vehicle_id ∈ flagged_of (violated_ids s) cam))).

(** The bottom edge of the bounding box. *)
Definition bottom_y (obj : TrackedObject) : Z := (obj_bbox obj).2.

(** The last position stored for the vehicle, or its current one. *)
Definition last_y_of (cam : string) (obj : TrackedObject) (s : State) : Z :=
  default (bottom_y obj)
    (positions_of (vehicle_last_positions s) cam !! obj_id obj).

(** The violation block was entered for the vehicle: its first action is
    the call to the speed estimator. *)
Definition violation_signalled (cam : string) (vehicle_id : Z)
  (new : list Event) : Prop :=
  EvGetSpeed cam vehicle_id ∈ new.

(** No pair was recorded twice, and the recorded vehicles of the lanes in
    [D] are flagged. *)
Definition records_flagged (D : gset string) (s : State) : Prop :=
  NoDup (violation_records (trace s)) ∧
  ∀ cam vehicle_id,
    (cam, vehicle_id) ∈ violation_records (trace s) → cam ∈ D →
    vehicle_id ∈ flagged_of (violated_ids s) cam.

(** [m], run by the worker of lane [cam], keeps [records_flagged]; when it
    raises, lane [cam] is given up. *)
Definition keeps_records {A} (cam : string) (D : gset string) (m : W A)
  : Prop :=
  ∀ w, records_flagged D (globals w) →
       match m w with
       | (Ok _, w') => records_flagged D (globals w')
       | (Raise, w') => records_flagged (D ∖ {[cam]}) (globals w')
       end.

(** The invariant of the running process: the recorded vehicles of the
    lanes whose worker is running are flagged. *)
Definition system_invariant (sys : System) : Prop :=
  records_flagged (dom (sys_workers sys)) (sys_globals sys).

(** [m] keeps the property [P] of the globals, whether it returns or
    raises. *)
Definition preserves {A} (P : State → Prop) (m : W A) : Prop :=
  ∀ w, P (globals w) → P (globals (m w).2).

(** The globals after the emergency check of a frame. *)
Definition after_emergency_check (cam : string) (fr : Frame)
  (emergency : bool) (s : State) : State :=
  if emergency then override_signal (fr_now fr) cam s else s.

(** The state that a selecting pass leaves when it selected [sel]. *)
Definition after_selection (sel : string) (s : State) : State :=
  let s1 := refresh_lane_cycle (lanes_of s) s in
  with_traffic_lights (set_lights sel (lanes_of s) (traffic_lights s1))
    (if low_traffic (vehicle_counts s) then
       with_lane_priority (<[sel := 0]> (lane_priority s1))
         (with_current_index (current_index s1 + 1) s1)
     else
       with_lane_priority
         (update_priorities sel (lanes_of s) (lane_priority s1)) s1).

(** The body of a frame from the call to the detection model on. *)
Definition frame_tail (cam : string) (fr : Frame) : W unit :=
  let* n_detections := call (fr_detections fr) in
  let* tracked_objects := track fr n_detections in
  let crossing_y := fr_crossing_y fr in
  for_each tracked_objects (process_object cam fr crossing_y) ;;;
  modify_globals
    (λ s, with_vehicle_counts
            (dict_set (vehicle_counts s) cam
               (Z.of_nat (length tracked_objects))) s) ;;;
  call (fr_estimator_update fr) ;;;
  call (fr_detect_lanes fr).

(** The tracked objects of a frame: none without detections, none when the
    tracker or the unpacking of its rows raises. *)
Definition tracked_of (fr : Frame) : list TrackedObject :=
  match fr_detections fr with
  | Ok (S _) =>
      match fr_tracker_update fr with
      | Ok rows =>
          match rows_to_objects rows with
          | Ok objs => objs
          | Raise => []
          end
      | Raise => []
      end
  | _ => []
  end.

(** The number of calls to [stats.increment_vehicle] in a trace. *)
Fixpoint count_increments (tr : list Event) : nat :=
  match tr with
  | [] => O
  | EvIncrementVehicle :: tr' => S (count_increments tr')
  | _ :: tr' => count_increments tr'
  end.

(** The object that a tracker row of five entries unpacks to. *)
Definition object_of_row (trk : list Z) : TrackedObject :=
  {| obj_id := default 0 (trk !! 4%nat);
     obj_bbox := (default 0 (trk !! 0%nat), default 0 (trk !! 1%nat),
                  default 0 (trk !! 2%nat), default 0 (trk !! 3%nat)) |}.

(** Every collaborator of the violation and counting blocks answers. *)
Definition blocks_answer (fr : Frame) : Prop :=
  ∀ vehicle_id,
    (∃ speed, fr_get_speed fr vehicle_id = Ok speed) ∧
    (∃ written, fr_imwrite fr vehicle_id = Ok written) ∧
    fr_log_violation fr vehicle_id = Ok tt ∧
    fr_increment_vehicle fr vehicle_id = Ok tt.

(** The character occurs in the string. *)
Fixpoint occurs (c : Ascii.ascii) (s : string) : bool :=
  match s with
  | EmptyString => false
  | String c' s' => Ascii.eqb c' c || occurs c s'
  end.

(** Enough lanes of [front] have waited for the fairness scan to stay among
    the lanes of [front] on this pass and on the passes after it: three
    four distinct lanes with counters of at least WAIT_LIMIT,
    WAIT_LIMIT - 1, WAIT_LIMIT - 2 and WAIT_LIMIT - 3. *)
Definition queue_ahead (front : list string) (prio : gmap string Z) : Prop :=
  ∃ a b c d,
    NoDup [a; b; c; d] ∧
    a ∈ front ∧ b ∈ front ∧ c ∈ front ∧ d ∈ front ∧
    WAIT_LIMIT ≤ priority_of prio a ∧
    WAIT_LIMIT - 1 ≤ priority_of prio b ∧
    WAIT_LIMIT - 2 ≤ priority_of prio c ∧
    WAIT_LIMIT - 3 ≤ priority_of prio d.

(** * Example runs *)

(** A frame on which every collaborator answers, no emergency vehicle is
    seen, and the tracker returns [rows]; the crossing line is at 80. *)
Definition quiet_frame (rows : list (list Z)) : Frame :=
  {| fr_now := 0%Q;
     fr_detect_emergency := Ok false;
     fr_detections := Ok (length rows);
     fr_tracker_update := Ok rows;
     fr_crossing_y := 80;
     fr_get_speed := λ _, Ok 40;
     fr_imwrite := λ _, Ok true;
     fr_log_violation := λ _, Ok tt;
     fr_increment_vehicle := λ _, Ok tt;
     fr_estimator_update := Ok tt;
     fr_detect_lanes := Ok tt |}.

(** A frame read at time 0 on which an emergency vehicle is seen and the
    detection model then raises. *)
Definition siren_then_crash : Frame :=
  {| fr_now := 0%Q;
     fr_detect_emergency := Ok true;
     fr_detections := Raise;
     fr_tracker_update := Ok [];
     fr_crossing_y := 80;
     fr_get_speed := λ _, Ok 40;
     fr_imwrite := λ _, Ok true;
     fr_log_violation := λ _, Ok tt;
     fr_increment_vehicle := λ _, Ok tt;
     fr_estimator_update := Ok tt;
     fr_detect_lanes := Ok tt |}.

(** [n] vehicles standing above the crossing line, with ids 1 to [n]. *)
Definition standing (n : nat) : list (list Z) :=
  (λ i, [0; 0; 10; 70; Z.of_nat i]) <$> seq 1 n.

(** Lane CAM2 has published a count; the worker of CAM1 activated the
    override on its first frame and died before publishing one. *)
Definition stale_lane_state : State :=
  sys_globals
    (run (start ["CAM1"; "CAM2"])
       [OpFrame "CAM2" (quiet_frame []); OpFrame "CAM1" siren_then_crash]).

(** Lane A carried five vehicles and lane B one for three passes of the
    scheduler, so that B waited three rounds. *)
Definition b_waited_state : State :=
  sys_globals
    (run (start ["A"; "B"])
       [OpFrame "A" (quiet_frame (standing 5));
        OpFrame "B" (quiet_frame (standing 1));
        OpTick 1%Q; OpTick 11%Q; OpTick 21%Q]).

(** The same, after both lanes emptied. *)
Definition b_waited_quiet_state : State :=
  sys_globals
    (run (start ["A"; "B"])
       [OpFrame "A" (quiet_frame (standing 5));
        OpFrame "B" (quiet_frame (standing 1));
        OpTick 1%Q; OpTick 11%Q; OpTick 21%Q;
        OpFrame "A" (quiet_frame []);
        OpFrame "B" (quiet_frame [])]).

(** Two empty lanes after one pass of the scheduler. *)
Definition two_quiet_lanes_state : State :=
  sys_globals
    (run (start ["A"; "B"])
       [OpFrame "A" (quiet_frame []);
        OpFrame "B" (quiet_frame []);
        OpTick 1%Q]).

(** The override for lane A was activated at time 0. *)
Definition override_a_state : State :=
  override_signal 0%Q "A" two_quiet_lanes_state.

(** The worker of lane A after a first frame with vehicle 1 standing above
    the crossing line; no colour was ever set. *)
Definition approaching_worker : WorkerState :=
  (process_frame "A" (quiet_frame (standing 1))
     {| globals := initial_state; counted_ids := ∅ |}).2.

(** Vehicle 1 with its bottom edge past the crossing line. *)
Definition crossing_object : TrackedObject :=
  {| obj_id := 1; obj_bbox := (0, 0, 10, 90) |}.

(** Vehicle 2, not seen before, with its bottom edge past the crossing
    line. *)
Definition newcomer_object : TrackedObject :=
  {| obj_id := 2; obj_bbox := (20, 0, 30, 95) |}.

(** A frame on which the violation record sink raises. *)
Definition sink_fails_frame (rows : list (list Z)) : Frame :=
  {| fr_now := 0%Q;
     fr_detect_emergency := Ok false;
     fr_detections := Ok (length rows);
     fr_tracker_update := Ok rows;
     fr_crossing_y := 80;
     fr_get_speed := λ _, Ok 40;
     fr_imwrite := λ _, Ok true;
     fr_log_violation := λ _, Raise;
     fr_increment_vehicle := λ _, Ok tt;
     fr_estimator_update := Ok tt;
     fr_detect_lanes := Ok tt |}.

(** A frame on which the snapshot write reports failure by its value. *)
Definition snapshot_unwritten_frame (rows : list (list Z)) : Frame :=
  {| fr_now := 0%Q;
     fr_detect_emergency := Ok false;
     fr_detections := Ok (length rows);
     fr_tracker_update := Ok rows;
     fr_crossing_y := 80;
     fr_get_speed := λ _, Ok 40;
     fr_imwrite := λ _, Ok false;
     fr_log_violation := λ _, Ok tt;
     fr_increment_vehicle := λ _, Ok tt;
     fr_estimator_update := Ok tt;
     fr_detect_lanes := Ok tt |}.

(** Lane A after a first frame with vehicle 1 standing above the crossing
    line. *)
Definition approaching_system : System :=
  run (start ["A"]) [OpFrame "A" (quiet_frame (standing 1))].

(** Vehicle 1 approaches the line of lane A on a first frame and crosses
    it on a second one, on which the violation record sink raises. *)
Definition sink_failed_system : System :=
  run (start ["A"])
    [OpFrame "A" (quiet_frame (standing 1));
     OpFrame "A" (sink_fails_frame [[0; 0; 10; 90; 1]])].

(** A frame with two detections on which the tracker raises. *)
Definition tracker_fails_frame : Frame :=
  {| fr_now := 0%Q;
     fr_detect_emergency := Ok false;
     fr_detections := Ok 2%nat;
     fr_tracker_update := Raise;
     fr_crossing_y := 80;
     fr_get_speed := λ _, Ok 40;
     fr_imwrite := λ _, Ok true;
     fr_log_violation := λ _, Ok tt;
     fr_increment_vehicle := λ _, Ok tt;
     fr_estimator_update := Ok tt;
     fr_detect_lanes := Ok tt |}.

(** Lane A published two vehicles on a first frame. *)
Definition two_tracked_system : System :=
  run (start ["A"]) [OpFrame "A" (quiet_frame (standing 2))].

(** A frame read at time 100 on which an emergency vehicle is seen. *)
Definition siren_frame : Frame :=
  {| fr_now := 100%Q;
     fr_detect_emergency := Ok true;
     fr_detections := Ok 0%nat;
     fr_tracker_update := Ok [];
     fr_crossing_y := 80;
     fr_get_speed := λ _, Ok 40;
     fr_imwrite := λ _, Ok true;
     fr_log_violation := λ _, Ok tt;
     fr_increment_vehicle := λ _, Ok tt;
     fr_estimator_update := Ok tt;
     fr_detect_lanes := Ok tt |}.

(** The worker of CAM1 saw an emergency vehicle at time 100; the scheduler
    made a pass at time 102. *)
Definition siren_system : System :=
  run (start ["CAM1"; "CAM2"]) [OpFrame "CAM1" siren_frame; OpTick 102%Q].

(** Lane B waited three rounds; then the worker of a third lane published
    its first count. *)
Definition newcomer_state : State :=
  sys_globals
    (run (start ["A"; "B"; "C"])
       [OpFrame "A" (quiet_frame (standing 5));
        OpFrame "B" (quiet_frame (standing 1));
        OpTick 1%Q; OpTick 11%Q; OpTick 21%Q;
        OpFrame "C" (quiet_frame [])]).

(** A lane whose identifier is the empty string waited three rounds. *)
Definition unnamed_lane_state : State :=
  sys_globals
    (run (start ["A"; ""])
       [OpFrame "A" (quiet_frame (standing 5));
        OpFrame "" (quiet_frame (standing 1));
        OpTick 1%Q; OpTick 11%Q; OpTick 21%Q]).


(** Five busy lanes, lane A the busiest, after three passes of the
    scheduler. *)
Definition five_busy_lanes_state : State :=
  sys_globals
    (run (start ["A"; "B"; "C"; "D"; "E"])
       [OpFrame "A" (quiet_frame (standing 5));
        OpFrame "B" (quiet_frame (standing 4));
        OpFrame "C" (quiet_frame (standing 4));
        OpFrame "D" (quiet_frame (standing 4));
        OpFrame "E" (quiet_frame (standing 4));
        OpTick 1%Q; OpTick 11%Q; OpTick 21%Q]).

(** Lane A carries two vehicles, lanes B and C four each; no pass of the
    scheduler was made yet. *)
Definition tied_busy_lanes_state : State :=
  sys_globals
    (run (start ["A"; "B"; "C"])
       [OpFrame "A" (quiet_frame (standing 2));
        OpFrame "B" (quiet_frame (standing 4));
        OpFrame "C" (quiet_frame (standing 4))]).

(** Vehicle 1 approached the line of lane A on a first frame and crossed it
    on a second one, with no colour set: it is flagged. *)
Definition flagged_system : System :=
  run (start ["A"; "B"])
    [OpFrame "A" (quiet_frame (standing 1));
     OpFrame "A" (quiet_frame [[0; 0; 10; 90; 1]])].

(** The worker of lane A while the override of lane A is active. *)
Definition override_a_worker : WorkerState :=
  {| globals := override_a_state; counted_ids := ∅ |}.

(** The worker of lane A, the only lane, after a first frame with vehicle 1
    standing above the crossing line and a pass of the scheduler: lane A
    is GREEN. *)
Definition green_lane_worker : WorkerState :=
  {| globals :=
       sys_globals
         (run (start ["A"])
            [OpFrame "A" (quiet_frame (standing 1)); OpTick 1%Q]);
     counted_ids := {[1]} |}.

(** The first frame of lane A, on which the tracker returns two rows with
    identifier 7: one above the crossing line, one past it. *)
Definition twice_tracked_system : System :=
  run (start ["A"])
    [OpFrame "A" (quiet_frame [[0; 0; 10; 70; 7]; [0; 0; 10; 90; 7]])].

(** * Properties *)

(** ** The colour table *)

Lemma all_red_but_green key tl : all_red_but key tl !! key = Some GREEN.
Proof. apply lookup_insert_eq. Qed.

Lemma all_red_but_red key tl k :
  k ≠ key → is_Some (all_red_but key tl !! k) →
  all_red_but key tl !! k = Some RED.
Proof.
  intros Hne. unfold all_red_but.
  rewrite lookup_insert_ne by done. rewrite lookup_fmap.
  destruct (tl !! k); simpl; [done | by intros [? ?]].
Qed.

Lemma all_red_but_one_green key tl : one_green (all_red_but key tl).
Proof.
  exists key. split; [apply all_red_but_green |].
  intros k Hne. by apply all_red_but_red.
Qed.

Lemma set_lights_snoc sel l x tl :
  set_lights sel (l ++ [x]) tl =
  <[Some x := if String.eqb x sel then GREEN else RED]> (set_lights sel l tl).
Proof. unfold set_lights. by rewrite foldl_app. Qed.

Lemma set_lights_in sel lanes tl cam :
  cam ∈ lanes →
  set_lights sel lanes tl !! Some cam =
  Some (if String.eqb cam sel then GREEN else RED).
Proof.
  induction lanes as [|x l IH] using rev_ind; intros Hin.
  - by apply elem_of_nil in Hin.
  - rewrite set_lights_snoc. destruct (decide (cam = x)) as [->|Hne].
    + by rewrite lookup_insert_eq.
    + rewrite lookup_insert_ne by congruence.
      apply IH. apply elem_of_app in Hin as [Hin|Hin]; [done |].
      by apply list_elem_of_singleton in Hin.
Qed.

Lemma set_lights_notin sel lanes tl k :
  (∀ cam, cam ∈ lanes → k ≠ Some cam) →
  set_lights sel lanes tl !! k = tl !! k.
Proof.
  induction lanes as [|x l IH] using rev_ind; intros Hout; [done |].
  rewrite set_lights_snoc, lookup_insert_ne.
  - apply IH. intros cam Hin. apply Hout, elem_of_app. by left.
  - intros Heq. apply (Hout x); [| done].
    apply elem_of_app. right. by apply list_elem_of_singleton.
Qed.

Lemma set_lights_selected sel lanes tl :
  sel ∈ lanes → set_lights sel lanes tl !! Some sel = Some GREEN.
Proof.
  intros Hin. rewrite (set_lights_in _ _ _ _ Hin). by rewrite String.eqb_refl.
Qed.

Lemma set_lights_other sel lanes tl cam :
  cam ∈ lanes → cam ≠ sel → set_lights sel lanes tl !! Some cam = Some RED.
Proof.
  intros Hin Hne. rewrite (set_lights_in _ _ _ _ Hin).
  destruct (String.eqb_spec cam sel); [done | done].
Qed.

Lemma set_lights_one_green sel lanes tl :
  sel ∈ lanes →
  (∀ k, is_Some (tl !! k) → ∃ cam, k = Some cam ∧ cam ∈ lanes) →
  one_green (set_lights sel lanes tl).
Proof.
  intros Hsel Hkeys. exists (Some sel). split; [by apply set_lights_selected |].
  intros k Hne Hk.
  assert (Hcase : (∃ cam, k = Some cam ∧ cam ∈ lanes) ∨
                  (∀ cam, cam ∈ lanes → k ≠ Some cam)).
  { destruct k as [cam|]; [| by right].
    destruct (decide (cam ∈ lanes)); [left; eauto | right; congruence]. }
  destruct Hcase as [(cam & -> & Hin)|Hout].
  - apply set_lights_other; [done | congruence].
  - rewrite set_lights_notin in Hk by done.
    destruct (Hkeys k Hk) as (cam & -> & Hin). by destruct (Hout cam Hin).
Qed.

(** ** The priority counters *)

Lemma priority_of_insert_eq p cam v : priority_of (<[cam := v]> p) cam = v.
Proof. unfold priority_of. by rewrite lookup_insert_eq. Qed.

Lemma priority_of_insert_ne p cam cam' v :
  cam ≠ cam' → priority_of (<[cam := v]> p) cam' = priority_of p cam'.
Proof. intros Hne. unfold priority_of. by rewrite lookup_insert_ne. Qed.

Lemma update_priorities_snoc sel l x p :
  update_priorities sel (l ++ [x]) p =
  if String.eqb x sel then <[x := 0]> (update_priorities sel l p)
  else <[x := priority_of (update_priorities sel l p) x + 1]>
         (update_priorities sel l p).
Proof. unfold update_priorities. by rewrite foldl_app. Qed.

Lemma update_priorities_notin sel lanes p cam :
  cam ∉ lanes →
  priority_of (update_priorities sel lanes p) cam = priority_of p cam.
Proof.
  induction lanes as [|x l IH] using rev_ind; intros Hout; [done |].
  rewrite update_priorities_snoc.
  assert (x ≠ cam ∧ cam ∉ l) as [Hne Hl].
  { split; intros ?; apply Hout, elem_of_app; [right | by left].
    subst. by apply list_elem_of_singleton. }
  destruct (String.eqb x sel); rewrite priority_of_insert_ne by done; auto.
Qed.

Lemma update_priorities_in sel lanes p cam :
  NoDup lanes → cam ∈ lanes →
  priority_of (update_priorities sel lanes p) cam =
  if String.eqb cam sel then 0 else priority_of p cam + 1.
Proof.
  induction lanes as [|x l IH] using rev_ind; intros Hnd Hin.
  - by apply elem_of_nil in Hin.
  - apply NoDup_app in Hnd as (Hnd & Hfresh & _).
    rewrite update_priorities_snoc.
    destruct (decide (cam = x)) as [->|Hne].
    + assert (x ∉ l) as Hx.
      { intros Hl. apply (Hfresh x Hl). by apply list_elem_of_singleton. }
      destruct (String.eqb x sel); rewrite priority_of_insert_eq; [done |].
      by rewrite update_priorities_notin.
    + assert (cam ∈ l) as Hl.
      { apply elem_of_app in Hin as [?|Hin]; [done |].
        by apply list_elem_of_singleton in Hin. }
      destruct (String.eqb x sel);
        rewrite priority_of_insert_ne by done; auto.
Qed.

(** ** Lane selection *)

Lemma forced_green_Some prio lanes cam :
  forced_green prio lanes = Some cam →
  cam ∈ lanes ∧ WAIT_LIMIT ≤ priority_of prio cam.
Proof.
  induction lanes as [|x l IH]; simpl; [done |].
  destruct (Z.leb_spec WAIT_LIMIT (priority_of prio x)) as [Hle|Hlt].
  - intros [= ->]. split; [apply elem_of_cons; by left | done].
  - intros Hf. destruct (IH Hf) as [Hin Hw].
    split; [apply elem_of_cons; by right | done].
Qed.

Lemma forced_green_first prio before cam after :
  (∀ c, c ∈ before → priority_of prio c < WAIT_LIMIT) →
  WAIT_LIMIT ≤ priority_of prio cam →
  forced_green prio (before ++ cam :: after) = Some cam.
Proof.
  intros Hbefore Hcam. induction before as [|x l IH]; simpl.
  - by destruct (Z.leb_spec WAIT_LIMIT (priority_of prio cam)); [| lia].
  - destruct (Z.leb_spec WAIT_LIMIT (priority_of prio x)) as [Hle|Hlt].
    + specialize (Hbefore x). rewrite elem_of_cons in Hbefore.
      specialize (Hbefore (or_introl eq_refl)). lia.
    + apply IH. intros c Hc. apply Hbefore, elem_of_cons. by right.
Qed.

Lemma max_by_in {A} (key : A → Z) best rest :
  max_by key best rest ∈ best :: rest.
Proof.
  revert best. induction rest as [|x l IH]; intros best; simpl.
  - apply elem_of_cons. by left.
  - destruct (key best <? key x).
    + apply elem_of_cons. right. apply IH.
    + specialize (IH best). apply elem_of_cons in IH as [->|Hin];
        apply elem_of_cons; [by left | right; apply elem_of_cons; by right].
Qed.

Lemma refresh_lane_cycle_ok lanes s :
  lanes ≠ [] →
  lane_cycle (refresh_lane_cycle lanes s) ≠ [] ∧
  ∀ cam, cam ∈ lane_cycle (refresh_lane_cycle lanes s) ↔ cam ∈ lanes.
Proof.
  intros Hne. unfold refresh_lane_cycle, lane_set_changed.
  destruct (lane_cycle s) as [|c cyc] eqn:Hcyc; [done |].
  cbv beta iota. case_bool_decide as Hset; [| done].
  cbv beta iota delta [negb]. rewrite Hcyc. split; [done |]. intros cam.
  rewrite <- (elem_of_list_to_set (C := gset string) cam (c :: cyc)), Hset.
  apply elem_of_list_to_set.
Qed.

Lemma refresh_lane_cycle_fields lanes s :
  vehicle_counts (refresh_lane_cycle lanes s) = vehicle_counts s ∧
  traffic_lights (refresh_lane_cycle lanes s) = traffic_lights s ∧
  emergency_override (refresh_lane_cycle lanes s) = emergency_override s ∧
  vehicle_last_positions (refresh_lane_cycle lanes s) =
    vehicle_last_positions s ∧
  violated_ids (refresh_lane_cycle lanes s) = violated_ids s ∧
  trace (refresh_lane_cycle lanes s) = trace s.
Proof.
  unfold refresh_lane_cycle.
  by destruct (lane_set_changed (lane_cycle s) lanes).
Qed.

Lemma getitem_mod {A} (l : list A) (i : Z) :
  l ≠ [] →
  ∃ x, rbind (mod_ i (Z.of_nat (length l))) (getitem l) = Ok x ∧ x ∈ l.
Proof.
  intros Hne. unfold mod_.
  assert (0 < Z.of_nat (length l)) as Hlen by (destruct l; simpl; [done | lia]).
  destruct (Z.eqb_spec (Z.of_nat (length l)) 0) as [|_]; [lia |]. simpl.
  pose proof (Z.mod_pos_bound i _ Hlen) as [Hlo Hhi].
  assert ((i mod Z.of_nat (length l) <? 0) = false) as Hneg
    by (apply Z.ltb_ge; lia).
  unfold getitem. rewrite Hneg. cbv beta iota zeta. rewrite Hneg.
  destruct (l !! Z.to_nat (i mod Z.of_nat (length l))) as [x|] eqn:Hl.
  - exists x. split; [done |]. by eapply list_elem_of_lookup_2.
  - apply lookup_ge_None in Hl. lia.
Qed.

Lemma select_lane_Idle s :
  vehicle_counts s = [] → select_lane s = Ok (s, Idle).
Proof. unfold select_lane. by intros ->. Qed.

Lemma select_lane_Selected s :
  vehicle_counts s ≠ [] →
  ∃ sel s2,
    select_lane s =
      Ok (with_traffic_lights
            (set_lights sel (lanes_of s) (traffic_lights s)) s2,
          Selected sel) ∧
    sel ∈ lanes_of s ∧
    vehicle_counts s2 = vehicle_counts s ∧
    emergency_override s2 = emergency_override s ∧
    vehicle_last_positions s2 = vehicle_last_positions s ∧
    violated_ids s2 = violated_ids s ∧
    trace s2 = trace s ∧
    if low_traffic (vehicle_counts s) then
      cyclic_choice s = Ok sel ∧
      lane_priority s2 = <[sel := 0]> (base_priority s)
    else
      busy_choice s = Some sel ∧
      lane_priority s2 = update_priorities sel (lanes_of s) (base_priority s).
Proof.
  intros Hne. unfold select_lane, cyclic_choice, busy_choice, base_priority,
    lanes_of.
  destruct (vehicle_counts s) as [|first others] eqn:Hvc; [done |].
  set (lanes := (first :: others).*1).
  assert (lanes ≠ []) as Hlanes by done.
  destruct (refresh_lane_cycle_ok lanes s Hlanes) as [Hcyc Hmem].
  destruct (refresh_lane_cycle_fields lanes s)
    as (Hf1 & Hf2 & Hf3 & Hf4 & Hf5 & Hf6).
  set (s1 := refresh_lane_cycle lanes s) in *.
  destruct (low_traffic (first :: others)).
  - destruct (getitem_mod (lane_cycle s1) (current_index s1) Hcyc)
      as (sel & Hget & Hin).
    unfold rbind in Hget |- *.
    destruct (mod_ (current_index s1) (Z.of_nat (length (lane_cycle s1))))
      as [i|]; [| done].
    rewrite Hget. eexists sel, _. simpl. rewrite <- Hf2.
    repeat split; simpl; try congruence. by apply Hmem.
  - unfold rbind. cbv beta iota zeta.
    set (sel := match forced_green (lane_priority s1) lanes with
                | Some cam => if truthy cam then cam
                              else (max_by snd first others).1
                | None => (max_by snd first others).1
                end).
    exists sel, (with_lane_priority
                   (update_priorities sel lanes (lane_priority s1)) s1).
    cbn [traffic_lights with_lane_priority]. rewrite <- Hf2.
    assert ((max_by snd first others).1 ∈ lanes) as Hmax.
    { apply list_elem_of_fmap_2, max_by_in. }
    split_and!; [done | | simpl; congruence .. | | done].
    + subst sel.
      destruct (forced_green (lane_priority s1) lanes) as [cam|] eqn:Hfg;
        [| done].
      destruct (truthy cam); [| done].
      by apply forced_green_Some in Hfg as [? _].
    + subst sel. unfold densest.
      destruct (forced_green (lane_priority s1) lanes) as [cam|]; [| done].
      by destruct (truthy cam).
Qed.

(** ** One pass of the scheduler loop *)

Lemma Qltb_lt (x y : Q) : Qltb x y = true ↔ (x < y)%Q.
Proof.
  unfold Qltb. rewrite Qlt_alt. by destruct (x ?= y)%Q.
Qed.

Lemma release_inactive s : active (emergency_override (release s)) = false.
Proof.
  unfold release. by destruct (active (emergency_override s)) eqn:Ha.
Qed.

Lemma release_cleared s :
  active (emergency_override s) = true →
  cam_id (emergency_override (release s)) = None.
Proof. unfold release. by intros ->. Qed.

Lemma release_fields s :
  vehicle_counts (release s) = vehicle_counts s ∧
  traffic_lights (release s) = traffic_lights s ∧
  lane_priority (release s) = lane_priority s ∧
  lane_cycle (release s) = lane_cycle s ∧
  current_index (release s) = current_index s ∧
  vehicle_last_positions (release s) = vehicle_last_positions s ∧
  violated_ids (release s) = violated_ids s ∧
  trace (release s) = trace s.
Proof. unfold release. by destruct (active (emergency_override s)). Qed.

Lemma release_choices s :
  lanes_of (release s) = lanes_of s ∧
  base_priority (release s) = base_priority s ∧
  cyclic_choice (release s) = cyclic_choice s ∧
  busy_choice (release s) = busy_choice s.
Proof.
  unfold release. destruct (active (emergency_override s)); [| done].
  unfold busy_choice, cyclic_choice, base_priority, lanes_of,
    refresh_lane_cycle; simpl.
  by destruct (lane_set_changed (lane_cycle s) (vehicle_counts s).*1).
Qed.

Lemma step_holds now s :
  emergency_holds now s = true →
  update_traffic_signals_step now s =
    Ok (with_traffic_lights
          (all_red_but (cam_id (emergency_override s)) (traffic_lights s)) s,
        EmergencyHold).
Proof.
  unfold emergency_holds, update_traffic_signals_step.
  intros [-> ->]%andb_true_iff. done.
Qed.

Lemma step_selects now s :
  emergency_holds now s = false →
  update_traffic_signals_step now s = select_lane (release s).
Proof.
  unfold emergency_holds, update_traffic_signals_step, release.
  destruct (active (emergency_override s)); simpl; [| done]. by intros ->.
Qed.

Lemma base_priority_changed s :
  lane_set_changed (lane_cycle s) (lanes_of s) = true → base_priority s = ∅.
Proof. unfold base_priority, refresh_lane_cycle. by intros ->. Qed.

Lemma base_priority_unchanged s :
  lane_set_changed (lane_cycle s) (lanes_of s) = false →
  base_priority s = lane_priority s.
Proof. unfold base_priority, refresh_lane_cycle. by intros ->. Qed.

(** A pass that does not hold an emergency and finds lanes selects one. *)
Lemma step_Selected now s :
  emergency_holds now s = false →
  vehicle_counts s ≠ [] →
  ∃ sel s2,
    update_traffic_signals_step now s =
      Ok (with_traffic_lights
            (set_lights sel (lanes_of s) (traffic_lights s)) s2,
          Selected sel) ∧
    sel ∈ lanes_of s ∧
    emergency_override s2 = emergency_override (release s) ∧
    if low_traffic (vehicle_counts s) then
      cyclic_choice s = Ok sel ∧
      lane_priority s2 = <[sel := 0]> (base_priority s)
    else
      busy_choice s = Some sel ∧
      lane_priority s2 = update_priorities sel (lanes_of s) (base_priority s).
Proof.
  intros Hhold Hne. rewrite (step_selects _ _ Hhold).
  destruct (release_fields s) as (Hvc & Htl & _).
  destruct (release_choices s) as (Hl & Hb & Hc & Hbu).
  destruct (select_lane_Selected (release s)) as (sel & s2 & Heq & Hin & H).
  { by rewrite Hvc. }
  destruct H as (_ & Heo & _ & _ & _ & Hsel).
  rewrite Hl, Htl, Hvc, Hb, Hc, Hbu in *. eauto 10.
Qed.

Lemma step_Idle now s :
  emergency_holds now s = false →
  vehicle_counts s = [] →
  update_traffic_signals_step now s = Ok (release s, Idle).
Proof.
  intros Hhold Hvc. rewrite (step_selects _ _ Hhold).
  apply select_lane_Idle. destruct (release_fields s) as (-> & _). done.
Qed.

(** A pass of the scheduler loop, taken as a whole, returns. *)
Lemma step_total now s :
  ∃ s' out, update_traffic_signals_step now s = Ok (s', out).
Proof.
  destruct (emergency_holds now s) eqn:Hhold.
  - rewrite (step_holds _ _ Hhold). eauto.
  - destruct (vehicle_counts s) as [|first others] eqn:Hvc.
    + rewrite (step_Idle _ _ Hhold Hvc). eauto.
    + destruct (step_Selected now s Hhold) as (sel & s2 & -> & _);
        [by rewrite Hvc | eauto].
Qed.

(** ** The claims on the scheduler *)

(** C1 (amended).  After every call to [override_signal], and after every
    pass of the scheduler that holds an emergency, exactly one lane of the
    colour table is GREEN and every other lane is RED.  After a pass that
    selects a lane, the selected lane is GREEN and every other configured
    lane is RED, so that exactly one lane of the table is GREEN and the
    others RED whenever every lane of the table is a configured lane.  A
    pass that finds no configured lane leaves the table as it was. *)
Theorem one_green_after_override_and_pass (now : Q) (cam : string) (s : State) :
  one_green (traffic_lights (override_signal now cam s)) ∧
  ∃ s' out,
    update_traffic_signals_step now s = Ok (s', out) ∧
    match out with
    | EmergencyHold => one_green (traffic_lights s')
    | Idle => traffic_lights s' = traffic_lights s
    | Selected sel =>
        traffic_lights s' !! Some sel = Some GREEN ∧
        (∀ lane, lane ∈ lanes_of s → lane ≠ sel →
                 traffic_lights s' !! Some lane = Some RED) ∧
        ((∀ k, is_Some (traffic_lights s !! k) →
               ∃ lane, k = Some lane ∧ lane ∈ lanes_of s) →
         one_green (traffic_lights s'))
    end.
Proof.
  split; [apply all_red_but_one_green |].
  destruct (emergency_holds now s) eqn:Hhold.
  - rewrite (step_holds _ _ Hhold). eexists _, _. split; [done |].
    apply all_red_but_one_green.
  - destruct (vehicle_counts s) as [|first others] eqn:Hvc.
    + rewrite (step_Idle _ _ Hhold Hvc). eexists _, _. split; [done |].
      apply release_fields.
    + destruct (step_Selected now s Hhold) as (sel & s2 & -> & Hin & _);
        [by rewrite Hvc |].
      eexists _, _. split; [done |]. simpl. split_and!.
      * by apply set_lights_selected.
      * intros lane Hlane Hne. by apply set_lights_other.
      * intros Hkeys. by apply set_lights_one_green.
Qed.

Lemma one_green_after_override_and_pass_witness :
  ∃ s', update_traffic_signals_step 11%Q two_quiet_lanes_state
        = Ok (s', Selected "B") ∧
        one_green (traffic_lights s').
Proof.
  destruct (one_green_after_override_and_pass 11%Q "A" two_quiet_lanes_state)
    as (_ & s' & out & Hstep & Hout).
  vm_compute in Hstep. injection Hstep as <- <-.
  eexists. split; [vm_compute; reflexivity |].
  destruct Hout as (_ & _ & Hone). apply Hone.
  intros k [c Hk].
  destruct k as [lane|]; [| vm_compute in Hk; discriminate].
  exists lane. split; [done |].
  destruct (decide (lane = "A")) as [->|HA];
    [apply elem_of_cons; by left |].
  destruct (decide (lane = "B")) as [->|HB];
    [apply elem_of_cons; right; apply elem_of_cons; by left |].
  change (traffic_lights two_quiet_lanes_state)
    with (<[Some "B" := RED]> (<[Some "A" := GREEN]> (∅ : gmap (option string) Color)))
    in Hk.
  rewrite !lookup_insert_ne in Hk by congruence. by rewrite lookup_empty in Hk.
Defined.

(** C1, as stated, fails.  A pass of the scheduler made before any worker
    published a count leaves the empty table without a GREEN lane; and
    when lane CAM1 entered the table through [override_signal] without
    ever publishing a count, the pass that follows the hold selects CAM2
    and leaves CAM1 GREEN as well. *)
Lemma one_green_counterexample :
  (∃ s', update_traffic_signals_step 0%Q initial_state = Ok (s', Idle) ∧
         ¬ one_green (traffic_lights s')) ∧
  (∃ s', update_traffic_signals_step 25%Q stale_lane_state
         = Ok (s', Selected "CAM2") ∧
         traffic_lights s' !! Some "CAM1" = Some GREEN ∧
         traffic_lights s' !! Some "CAM2" = Some GREEN ∧
         ¬ one_green (traffic_lights s')).
Proof.
  split.
  - eexists. split; [vm_compute; reflexivity |].
    intros (g & Hg & _). vm_compute in Hg. discriminate.
  - eexists. split; [vm_compute; reflexivity |].
    split; [vm_compute; reflexivity |]. split; [vm_compute; reflexivity |].
    intros (g & Hg & Hred).
    destruct (decide (g = Some "CAM1")) as [->|Hne].
    + assert (Some "CAM2" ≠ Some "CAM1") as Hne by congruence.
      specialize (Hred _ Hne). vm_compute in Hred.
      specialize (Hred (ex_intro _ GREEN eq_refl)). discriminate.
    + assert (Some "CAM1" ≠ g) as Hne' by congruence.
      specialize (Hred _ Hne'). vm_compute in Hred.
      specialize (Hred (ex_intro _ GREEN eq_refl)). discriminate.
Qed.

(** C2 (amended).  On every pass of the scheduler that does not hold an
    emergency, finds the lane set unchanged (so that the counters are not
    cleared) and finds some lane with an occupancy of at least
    LOW_TRAFFIC_THRESHOLD: if some lane's counter is at least WAIT_LIMIT
    at the start of the pass, the first such lane in scan order is
    selected green, whatever the occupancy counts, provided its identifier
    is not the empty string. *)
Theorem fairness_forced_when_busy (now : Q) (s : State)
  (before after : list string) (cam : string) :
  emergency_holds now s = false →
  lanes_of s = before ++ cam :: after →
  lane_set_changed (lane_cycle s) (lanes_of s) = false →
  low_traffic (vehicle_counts s) = false →
  (∀ c, c ∈ before → priority_of (lane_priority s) c < WAIT_LIMIT) →
  WAIT_LIMIT ≤ priority_of (lane_priority s) cam →
  cam ≠ "" →
  ∃ s', update_traffic_signals_step now s = Ok (s', Selected cam) ∧
        traffic_lights s' !! Some cam = Some GREEN.
Proof.
  intros Hhold Hlanes Hsame Hbusy Hbefore Hcam Hname.
  destruct (step_Selected now s Hhold) as (sel & s2 & Hstep & Hin & _ & Hsel).
  { intros Hvc. unfold lanes_of in Hlanes. rewrite Hvc in Hlanes.
    by destruct before. }
  rewrite Hbusy in Hsel. destruct Hsel as [Hchoice _].
  unfold busy_choice in Hchoice.
  rewrite (base_priority_unchanged _ Hsame), Hlanes in Hchoice.
  rewrite (forced_green_first _ _ _ _ Hbefore Hcam) in Hchoice.
  assert (truthy cam = true) as Htruthy.
  { unfold truthy. by destruct (String.eqb_spec cam ""). }
  rewrite Htruthy in Hchoice. injection Hchoice as <-.
  eexists. split; [exact Hstep |]. simpl. by apply set_lights_selected.
Qed.

Lemma fairness_forced_when_busy_witness :
  ∃ s', update_traffic_signals_step 31%Q b_waited_state
        = Ok (s', Selected "B") ∧
        traffic_lights s' !! Some "B" = Some GREEN.
Proof.
  apply (fairness_forced_when_busy 31%Q b_waited_state ["A"] [] "B").
  - vm_compute; reflexivity.
  - vm_compute; reflexivity.
  - vm_compute; reflexivity.
  - vm_compute; reflexivity.
  - intros c Hc. apply list_elem_of_singleton in Hc as ->.
    vm_compute; reflexivity.
  - vm_compute; discriminate.
  - discriminate.
Defined.

(** C2, as stated, fails.  Lane B waited three rounds behind the busier
    lane A; once every occupancy is below LOW_TRAFFIC_THRESHOLD the pass
    takes the round-robin lane A, and B stays RED. *)
Lemma fairness_counterexample :
  active (emergency_override b_waited_quiet_state) = false ∧
  lanes_of b_waited_quiet_state = ["A"; "B"] ∧
  low_traffic (vehicle_counts b_waited_quiet_state) = true ∧
  priority_of (lane_priority b_waited_quiet_state) "A" = 0 ∧
  priority_of (lane_priority b_waited_quiet_state) "B" = 3 ∧
  ∃ s', update_traffic_signals_step 31%Q b_waited_quiet_state
        = Ok (s', Selected "A") ∧
        traffic_lights s' !! Some "B" = Some RED.
Proof.
  split_and!; try (vm_compute; reflexivity).
  eexists. split; vm_compute; reflexivity.
Qed.

(** C3 (amended).  On every pass of the scheduler that selects a lane, the
    selected lane's counter is 0 afterwards.  When some occupancy is at
    least LOW_TRAFFIC_THRESHOLD (fairness-forced and density selection),
    every other configured lane's counter is its previous value plus 1,
    the previous value being 0 when the lane set changed on this pass and
    the counters were cleared.  When every occupancy is below the
    threshold (round robin), the other lanes' counters are not
    incremented. *)
Theorem counters_after_selection (now : Q) (s : State) :
  emergency_holds now s = false →
  vehicle_counts s ≠ [] →
  NoDup (lanes_of s) →
  ∃ s' sel,
    update_traffic_signals_step now s = Ok (s', Selected sel) ∧
    priority_of (lane_priority s') sel = 0 ∧
    ∀ lane, lane ∈ lanes_of s → lane ≠ sel →
      let previous :=
        if lane_set_changed (lane_cycle s) (lanes_of s) then 0
        else priority_of (lane_priority s) lane in
      priority_of (lane_priority s') lane =
        if low_traffic (vehicle_counts s) then previous else previous + 1.
Proof.
  intros Hhold Hne Hnd.
  destruct (step_Selected now s Hhold Hne)
    as (sel & s2 & Hstep & Hin & _ & Hsel).
  eexists _, sel. split; [exact Hstep |]. simpl.
  assert (∀ lane,
            priority_of (base_priority s) lane =
            if lane_set_changed (lane_cycle s) (lanes_of s) then 0
            else priority_of (lane_priority s) lane) as Hbase.
  { intros lane.
    destruct (lane_set_changed (lane_cycle s) (lanes_of s)) eqn:Hch.
    - by rewrite (base_priority_changed _ Hch).
    - by rewrite (base_priority_unchanged _ Hch). }
  destruct (low_traffic (vehicle_counts s)); destruct Hsel as [_ ->].
  - split; [apply priority_of_insert_eq |].
    intros lane _ Hother. rewrite priority_of_insert_ne by done. apply Hbase.
  - split.
    + rewrite (update_priorities_in _ _ _ _ Hnd Hin).
      by rewrite String.eqb_refl.
    + intros lane Hlane Hother.
      rewrite (update_priorities_in _ _ _ _ Hnd Hlane), Hbase.
      by destruct (String.eqb_spec lane sel).
Qed.

Lemma counters_after_selection_witness :
  ∃ s', update_traffic_signals_step 31%Q b_waited_state
        = Ok (s', Selected "B") ∧
        priority_of (lane_priority s') "B" = 0 ∧
        priority_of (lane_priority s') "A" = 1.
Proof.
  destruct (counters_after_selection 31%Q b_waited_state)
    as (s' & sel & Hstep & Hsel & Hothers).
  - vm_compute; reflexivity.
  - vm_compute; discriminate.
  - change (lanes_of b_waited_state) with ["A"; "B"].
    apply NoDup_cons. split.
    + intros Hin. apply list_elem_of_singleton in Hin. discriminate.
    + apply NoDup_singleton.
  - vm_compute in Hstep. injection Hstep as <- <-.
    eexists. split; [vm_compute; reflexivity |]. split; [exact Hsel |].
    apply (Hothers "A"); [| discriminate].
    change (lanes_of b_waited_state) with ["A"; "B"].
    apply elem_of_cons. by left.
Defined.

(** C3, as stated, fails.  With two empty lanes the pass selects lane B by
    round robin; lane A was not selected, and its counter stays at 0
    instead of becoming 1. *)
Lemma counters_counterexample :
  active (emergency_override two_quiet_lanes_state) = false ∧
  lanes_of two_quiet_lanes_state = ["A"; "B"] ∧
  lane_cycle two_quiet_lanes_state = ["A"; "B"] ∧
  priority_of (lane_priority two_quiet_lanes_state) "A" = 0 ∧
  ∃ s', update_traffic_signals_step 11%Q two_quiet_lanes_state
        = Ok (s', Selected "B") ∧
        priority_of (lane_priority s') "A" = 0.
Proof.
  split_and!; try (vm_compute; reflexivity).
  eexists. split; vm_compute; reflexivity.
Qed.

(** C4.  On every pass of the scheduler made while the emergency override
    is active and less than the hold time has elapsed since its
    activation, the override lane is set GREEN and every other lane of the
    table RED, and no priority counter is modified.  On a pass made while
    the override is active and the hold time has elapsed, the override is
    cleared and lane selection runs in the same pass. *)
Theorem emergency_hold_then_release (now : Q) (s : State) :
  active (emergency_override s) = true →
  ((now - timestamp (emergency_override s)
    < inject_Z EMERGENCY_HOLD_TIME)%Q →
   ∃ s', update_traffic_signals_step now s = Ok (s', EmergencyHold) ∧
         traffic_lights s' !! cam_id (emergency_override s) = Some GREEN ∧
         (∀ k, k ≠ cam_id (emergency_override s) →
               is_Some (traffic_lights s' !! k) →
               traffic_lights s' !! k = Some RED) ∧
         (∀ k, is_Some (traffic_lights s !! k) →
               is_Some (traffic_lights s' !! k)) ∧
         lane_priority s' = lane_priority s ∧
         emergency_override s' = emergency_override s) ∧
  (¬ (now - timestamp (emergency_override s)
      < inject_Z EMERGENCY_HOLD_TIME)%Q →
   ∃ s' out,
     update_traffic_signals_step now s = Ok (s', out) ∧
     active (emergency_override s') = false ∧
     cam_id (emergency_override s') = None ∧
     select_lane
       (with_emergency_override
          {| active := false; cam_id := None;
             timestamp := timestamp (emergency_override s) |} s)
     = Ok (s', out) ∧
     (vehicle_counts s = [] → out = Idle) ∧
     (vehicle_counts s ≠ [] →
      ∃ sel, out = Selected sel ∧ sel ∈ lanes_of s ∧
             traffic_lights s' !! Some sel = Some GREEN)).
Proof.
  intros Hactive. split; intros Helapsed.
  - assert (emergency_holds now s = true) as Hhold.
    { unfold emergency_holds. rewrite Hactive. by apply Qltb_lt. }
    rewrite (step_holds _ _ Hhold). eexists. split; [done |]. simpl.
    split_and!; try done.
    + apply all_red_but_green.
    + intros k Hne. by apply all_red_but_red.
    + intros k [c Hk]. unfold all_red_but.
      destruct (decide (cam_id (emergency_override s) = k)) as [->|Hne].
      * rewrite lookup_insert_eq. eauto.
      * rewrite lookup_insert_ne, lookup_fmap, Hk by done. simpl. eauto.
  - assert (emergency_holds now s = false) as Hhold.
    { unfold emergency_holds. rewrite Hactive. simpl.
      destruct (Qltb _ _) eqn:Hlt; [| done].
      by apply Qltb_lt in Hlt. }
    assert (release s =
            with_emergency_override
              {| active := false; cam_id := None;
                 timestamp := timestamp (emergency_override s) |} s)
      as Hrel by (unfold release; by rewrite Hactive).
    destruct (vehicle_counts s) as [|first others] eqn:Hvc.
    + rewrite (step_Idle _ _ Hhold Hvc). eexists _, _.
      split; [done |]. rewrite <- Hrel.
      split_and!; try done.
      * apply release_inactive.
      * by apply release_cleared.
      * apply select_lane_Idle.
        destruct (release_fields s) as [-> _]. done.
    + destruct (step_Selected now s Hhold) as (sel & s2 & Hstep & Hin & Heo & _);
        [by rewrite Hvc |].
      eexists _, _. split; [exact Hstep |]. simpl. rewrite Heo.
      split_and!.
      * apply release_inactive.
      * by apply release_cleared.
      * rewrite <- Hrel, <- (step_selects now s Hhold). exact Hstep.
      * done.
      * intros _. exists sel. split_and!; [done | done |].
        by apply set_lights_selected.
Qed.

Lemma emergency_hold_then_release_witness :
  (∃ s', update_traffic_signals_step 5%Q override_a_state
         = Ok (s', EmergencyHold) ∧
         traffic_lights s' !! Some "A" = Some GREEN ∧
         lane_priority s' = lane_priority override_a_state) ∧
  (∃ s' out, update_traffic_signals_step 20%Q override_a_state
             = Ok (s', out) ∧
             active (emergency_override s') = false ∧
             ∃ sel, out = Selected sel).
Proof.
  split.
  - destruct (emergency_hold_then_release 5%Q override_a_state)
      as [Hhold _]; [vm_compute; reflexivity |].
    destruct Hhold as (s' & Hstep & Hgreen & _ & _ & Hprio & _);
      [vm_compute; reflexivity |].
    exists s'. split_and!; [exact Hstep | exact Hgreen | exact Hprio].
  - destruct (emergency_hold_then_release 20%Q override_a_state)
      as [_ Hrelease]; [vm_compute; reflexivity |].
    destruct Hrelease as (s' & out & Hstep & Hactive & _ & _ & _ & Hsel);
      [vm_compute; discriminate |].
    exists s', out. split_and!; [exact Hstep | exact Hactive |].
    destruct Hsel as (sel & -> & _); [vm_compute; discriminate |].
    by exists sel.
Defined.

(** ** The loop body of the worker *)

Lemma check_violation_run cam fr crossing_y vehicle_id last_y current_y w :
  check_violation cam fr crossing_y vehicle_id last_y current_y w =
  if signalled cam crossing_y vehicle_id last_y current_y (globals w) then
    let w1 := noted (EvGetSpeed cam vehicle_id) w in
    match fr_get_speed fr vehicle_id with
    | Raise => (Raise, w1)
    | Ok speed =>
        let w2 := noted (EvSnapshot cam vehicle_id) w1 in
        match fr_imwrite fr vehicle_id with
        | Raise => (Raise, w2)
        | Ok _ =>
            let w3 := noted (EvLogViolation cam vehicle_id speed) w2 in
            match fr_log_violation fr vehicle_id with
            | Raise => (Raise, w3)
            | Ok _ => (Ok tt, flagged cam vehicle_id w3)
            end
        end
    end
  else (Ok tt, w).
Proof.
  unfold check_violation, signalled.
  destruct ((last_y <? crossing_y) && (crossing_y <=? current_y)); [| done].
  unfold wbind, get_globals, external, modify_globals, call, wret; simpl.
  destruct (color_eqb (lane_color (traffic_lights (globals w)) cam) RED
            && negb (bool_decide
                       (vehicle_id ∈ flagged_of (violated_ids (globals w)) cam)));
    [| done].
  destruct (fr_get_speed fr vehicle_id); [| done].
  destruct (fr_imwrite fr vehicle_id); [| done].
  by destruct (fr_log_violation fr vehicle_id).
Qed.

Lemma count_vehicle_run fr vehicle_id w :
  count_vehicle fr vehicle_id w =
  if bool_decide (vehicle_id ∈ counted_ids w) then (Ok tt, w)
  else
    match fr_increment_vehicle fr vehicle_id with
    | Raise => (Raise, noted EvIncrementVehicle w)
    | Ok _ =>
        (Ok tt,
         {| globals := globals (noted EvIncrementVehicle w);
            counted_ids := {[vehicle_id]} ∪ counted_ids w |})
    end.
Proof.
  unfold count_vehicle, wbind, get_counted, external, modify_globals, call,
    add_counted, wret; simpl.
  destruct (bool_decide (vehicle_id ∈ counted_ids w)); [done |].
  by destruct (fr_increment_vehicle fr vehicle_id).
Qed.

Lemma process_object_run cam fr crossing_y obj w :
  process_object cam fr crossing_y obj w =
  match check_violation cam fr crossing_y (obj_id obj)
          (last_y_of cam obj (globals w)) (bottom_y obj)
          (positioned cam (obj_id obj) (bottom_y obj) w) with
  | (Ok _, w') => count_vehicle fr (obj_id obj) w'
  | (Raise, w') => (Raise, w')
  end.
Proof.
  unfold process_object, last_y_of, bottom_y.
  destruct (obj_bbox obj) as [[[x1 y1] x2] y2]. reflexivity.
Qed.

Lemma signalled_positioned cam crossing_y vehicle_id last_y current_y w v c :
  signalled cam crossing_y vehicle_id last_y current_y
    (globals (positioned cam v c w)) =
  signalled cam crossing_y vehicle_id last_y current_y (globals w).
Proof. done. Qed.

Lemma flagged_of_insert m cam X c :
  flagged_of (<[cam := X]> m) c =
  if decide (cam = c) then X else flagged_of m c.
Proof.
  unfold flagged_of. rewrite lookup_insert. by destruct (decide (cam = c)).
Qed.

Lemma signalled_iff cam crossing_y vehicle_id last_y current_y s :
  signalled cam crossing_y vehicle_id last_y current_y s = true ↔
  last_y < crossing_y ∧ crossing_y ≤ current_y ∧
  lane_color (traffic_lights s) cam = RED ∧
  vehicle_id ∉ flagged_of (violated_ids s) cam.
Proof.
  unfold signalled.
  rewrite !andb_true_iff, Z.ltb_lt, Z.leb_le, negb_true_iff,
    bool_decide_eq_false.
  assert (color_eqb (lane_color (traffic_lights s) cam) RED = true ↔
          lane_color (traffic_lights s) cam = RED) as ->
    by (by destruct (lane_color (traffic_lights s) cam)).
  tauto.
Qed.

Lemma check_violation_trace cam fr crossing_y vehicle_id last_y current_y w :
  ∃ r w' new,
    check_violation cam fr crossing_y vehicle_id last_y current_y w = (r, w') ∧
    trace (globals w') = new ++ trace (globals w) ∧
    (violation_signalled cam vehicle_id new ↔
     signalled cam crossing_y vehicle_id last_y current_y (globals w) = true) ∧
    (∀ c v, violation_signalled c v new → c = cam ∧ v = vehicle_id) ∧
    vehicle_last_positions (globals w') = vehicle_last_positions (globals w).
Proof.
  rewrite check_violation_run. unfold violation_signalled.
  assert (∀ speed c v,
            EvGetSpeed c v ∈ [EvLogViolation cam vehicle_id speed;
                              EvSnapshot cam vehicle_id;
                              EvGetSpeed cam vehicle_id] →
            c = cam ∧ v = vehicle_id) as Hthree.
  { intros speed c v Hin. repeat apply elem_of_cons in Hin as [Hin|Hin];
      try discriminate; [by injection Hin | by apply elem_of_nil in Hin]. }
  assert (∀ c v,
            EvGetSpeed c v ∈ [EvSnapshot cam vehicle_id;
                              EvGetSpeed cam vehicle_id] →
            c = cam ∧ v = vehicle_id) as Htwo.
  { intros c v Hin. repeat apply elem_of_cons in Hin as [Hin|Hin];
      try discriminate; [by injection Hin | by apply elem_of_nil in Hin]. }
  assert (∀ c v, EvGetSpeed c v ∈ [EvGetSpeed cam vehicle_id] →
                 c = cam ∧ v = vehicle_id) as Hone.
  { intros c v Hin. apply list_elem_of_singleton in Hin. by injection Hin. }
  destruct (signalled _ _ _ _ _ _).
  - destruct (fr_get_speed fr vehicle_id) as [speed|]; simpl.
    + destruct (fr_imwrite fr vehicle_id); simpl.
      * destruct (fr_log_violation fr vehicle_id); simpl;
          (eexists _, _, [EvLogViolation cam vehicle_id speed;
                          EvSnapshot cam vehicle_id;
                          EvGetSpeed cam vehicle_id];
           split_and!; [done | done | | by apply Hthree | done];
           split; [done | intros _];
           do 2 apply list_elem_of_further; apply list_elem_of_here).
      * eexists _, _, [EvSnapshot cam vehicle_id; EvGetSpeed cam vehicle_id].
        split_and!; [done | done | | done | done].
        split; [done | intros _].
        apply list_elem_of_further, list_elem_of_here.
    + eexists _, _, [EvGetSpeed cam vehicle_id].
      split_and!; [done | done | | done | done].
      split; [done | intros _]. apply list_elem_of_here.
  - eexists _, _, []. split_and!; [done | done | | | done].
    + split; [by intros ?%elem_of_nil | done].
    + by intros c v ?%elem_of_nil.
Qed.

Lemma count_vehicle_trace fr vehicle_id w :
  ∃ r w' new,
    count_vehicle fr vehicle_id w = (r, w') ∧
    trace (globals w') = new ++ trace (globals w) ∧
    (∀ cam v, ¬ violation_signalled cam v new) ∧
    vehicle_last_positions (globals w') = vehicle_last_positions (globals w).
Proof.
  rewrite count_vehicle_run. unfold violation_signalled.
  destruct (bool_decide (vehicle_id ∈ counted_ids w)).
  - eexists _, _, []. split_and!; [done | done | | done].
    by intros cam v ?%elem_of_nil.
  - destruct (fr_increment_vehicle fr vehicle_id);
      (eexists _, _, [EvIncrementVehicle]; split_and!; [done | done | | done];
       intros cam v Hin; apply list_elem_of_singleton in Hin; discriminate).
Qed.

Lemma positions_of_positioned cam vehicle_id current_y w v :
  v ≠ vehicle_id →
  positions_of
    (vehicle_last_positions (globals (positioned cam vehicle_id current_y w)))
    cam !! v
  = positions_of (vehicle_last_positions (globals w)) cam !! v.
Proof.
  intros Hne. simpl. unfold positions_of at 1.
  rewrite lookup_insert_eq. simpl. by rewrite lookup_insert_ne.
Qed.

(** What the processing of one tracked object adds to the trace. *)
Lemma process_object_trace cam fr crossing_y obj w :
  ∃ r w' new,
    process_object cam fr crossing_y obj w = (r, w') ∧
    trace (globals w') = new ++ trace (globals w) ∧
    (violation_signalled cam (obj_id obj) new ↔
     signalled cam crossing_y (obj_id obj) (last_y_of cam obj (globals w))
       (bottom_y obj) (globals w) = true) ∧
    (∀ c v, violation_signalled c v new → c = cam ∧ v = obj_id obj) ∧
    (∀ v, v ≠ obj_id obj →
          positions_of (vehicle_last_positions (globals w')) cam !! v
          = positions_of (vehicle_last_positions (globals w)) cam !! v).
Proof.
  rewrite process_object_run.
  destruct (check_violation_trace cam fr crossing_y (obj_id obj)
              (last_y_of cam obj (globals w)) (bottom_y obj)
              (positioned cam (obj_id obj) (bottom_y obj) w))
    as (r & w1 & new1 & -> & Htrace1 & Hsig & Hown & Hpos1).
  rewrite signalled_positioned in Hsig.
  change (trace (globals (positioned cam (obj_id obj) (bottom_y obj) w)))
    with (trace (globals w)) in Htrace1.
  assert (∀ v, v ≠ obj_id obj →
               positions_of (vehicle_last_positions (globals w1)) cam !! v
               = positions_of (vehicle_last_positions (globals w)) cam !! v)
    as Hpos.
  { intros v Hne. rewrite Hpos1. by apply positions_of_positioned. }
  destruct r as [[]|].
  - destruct (count_vehicle_trace fr (obj_id obj) w1)
      as (r' & w' & new2 & -> & Htrace2 & Hquiet & Hpos2).
    exists r', w', (new2 ++ new1). split; [done |].
    split; [by rewrite Htrace2, Htrace1, app_assoc |].
    unfold violation_signalled in *. split_and!.
    + rewrite elem_of_app, Hsig.
      specialize (Hquiet cam (obj_id obj)). tauto.
    + intros c v [Hin|Hin]%elem_of_app; [by destruct (Hquiet c v) | auto].
    + intros v Hne. rewrite Hpos2. by apply Hpos.
  - by exists Raise, w1, new1.
Qed.

(** Objects of other vehicles neither signal the vehicle nor store a
    position for it. *)
Lemma for_each_other_vehicles cam fr crossing_y objs vehicle_id w :
  vehicle_id ∉ obj_id <$> objs →
  ∃ r w' new,
    for_each objs (process_object cam fr crossing_y) w = (r, w') ∧
    trace (globals w') = new ++ trace (globals w) ∧
    ¬ violation_signalled cam vehicle_id new ∧
    positions_of (vehicle_last_positions (globals w')) cam !! vehicle_id
    = positions_of (vehicle_last_positions (globals w)) cam !! vehicle_id.
Proof.
  revert w. induction objs as [|obj objs IH]; intros w Hout.
  - exists (Ok tt), w, []. split_and!; try done. by intros ?%elem_of_nil.
  - rewrite fmap_cons, not_elem_of_cons in Hout. destruct Hout as [Hne Hout].
    destruct (process_object_trace cam fr crossing_y obj w)
      as (r1 & w1 & new1 & Hrun1 & Htrace1 & _ & Hown & Hpos1).
    assert (¬ violation_signalled cam vehicle_id new1) as Hquiet1.
    { intros Hsig. by destruct (Hown _ _ Hsig) as [_ ?]. }
    simpl. unfold wbind. rewrite Hrun1. destruct r1 as [[]|].
    + destruct (IH w1 Hout) as (r & w' & new & -> & Htrace & Hquiet & Hpos).
      exists r, w', (new ++ new1).
      split_and!; [done | by rewrite Htrace, Htrace1, app_assoc | |].
      * unfold violation_signalled in *. rewrite elem_of_app. tauto.
      * rewrite Hpos. by apply Hpos1.
    + exists Raise, w1, new1. split_and!; try done. by apply Hpos1.
Qed.

(** First-sighting exemption over a frame whose tracked identifiers are
    distinct. *)
Lemma for_each_first_sighting cam fr crossing_y objs vehicle_id w :
  NoDup (obj_id <$> objs) →
  positions_of (vehicle_last_positions (globals w)) cam !! vehicle_id = None →
  ∃ r w' new,
    for_each objs (process_object cam fr crossing_y) w = (r, w') ∧
    trace (globals w') = new ++ trace (globals w) ∧
    ¬ violation_signalled cam vehicle_id new.
Proof.
  revert w. induction objs as [|obj objs IH]; intros w Hnd Hfirst.
  - exists (Ok tt), w, []. split_and!; try done. by intros ?%elem_of_nil.
  - rewrite fmap_cons, NoDup_cons in Hnd. destruct Hnd as [Hfresh Hnd].
    destruct (process_object_trace cam fr crossing_y obj w)
      as (r1 & w1 & new1 & Hrun1 & Htrace1 & Hsig & Hown & Hpos1).
    assert (¬ violation_signalled cam vehicle_id new1) as Hquiet1.
    { intros Hin. destruct (Hown _ _ Hin) as [_ ->].
      apply Hsig, signalled_iff in Hin as (Hlt & Hle & _).
      unfold last_y_of in Hlt. rewrite Hfirst in Hlt. simpl in Hlt. lia. }
    simpl. unfold wbind. rewrite Hrun1. destruct r1 as [[]|].
    + assert (∃ r w' new,
                for_each objs (process_object cam fr crossing_y) w1 = (r, w') ∧
                trace (globals w') = new ++ trace (globals w1) ∧
                ¬ violation_signalled cam vehicle_id new)
        as (r & w' & new & -> & Htrace & Hquiet).
      { destruct (decide (vehicle_id = obj_id obj)) as [->|Hne].
        - destruct (for_each_other_vehicles cam fr crossing_y objs
                      (obj_id obj) w1 Hfresh)
            as (r & w' & new & Hrun & Htrace & Hquiet & _).
          by exists r, w', new.
        - apply IH; [done |]. rewrite Hpos1; done. }
      exists r, w', (new ++ new1).
      split_and!; [done | by rewrite Htrace, Htrace1, app_assoc |].
      unfold violation_signalled in *. rewrite elem_of_app. tauto.
    + by exists Raise, w1, new1.
Qed.

(** The colour that the check reads, the violated set and the stored
    positions of a lane, in terms of the dictionaries themselves. *)
Lemma lane_color_table tl cam :
  lane_color tl cam = RED ↔ tl !! Some cam ≠ Some GREEN.
Proof.
  unfold lane_color. destruct (tl !! Some cam) as [[]|]; simpl.
  - split; [discriminate | done].
  - split; [discriminate | intros Hne; by destruct Hne].
  - split; [discriminate | done].
Qed.

Lemma flagged_of_table m cam v :
  v ∈ flagged_of m cam ↔ ∃ ids, m !! cam = Some ids ∧ v ∈ ids.
Proof.
  unfold flagged_of. destruct (m !! cam) as [ids|]; simpl.
  - split; [by exists ids | by intros (ids' & [= <-] & Hin)].
  - split; [by intros ?%elem_of_empty | by intros (ids & ? & _)].
Qed.

Lemma positions_of_table m cam v :
  positions_of m cam !! v = m !! cam ≫= (λ positions, positions !! v).
Proof. unfold positions_of. by destruct (m !! cam). Qed.

(** What the processing of one tracked object does to the violated sets. *)
Lemma process_object_violated cam fr crossing_y obj w :
  let entered :=
    signalled cam crossing_y (obj_id obj) (last_y_of cam obj (globals w))
      (bottom_y obj) (globals w) in
  let r := (process_object cam fr crossing_y obj w).1 in
  let w' := (process_object cam fr crossing_y obj w).2 in
  (entered = false → violated_ids (globals w') = violated_ids (globals w)) ∧
  (entered = true → r = Ok tt →
   obj_id obj ∈ flagged_of (violated_ids (globals w')) cam) ∧
  (∀ c v, v ∈ flagged_of (violated_ids (globals w')) c →
          v ∈ flagged_of (violated_ids (globals w)) c ∨
          (entered = true ∧ c = cam ∧ v = obj_id obj)).
Proof.
  cbv zeta.
  rewrite process_object_run, check_violation_run, signalled_positioned.
  assert (∀ w0 : WorkerState,
            violated_ids (globals (count_vehicle fr (obj_id obj) w0).2)
            = violated_ids (globals w0)) as Hcount.
  { intros w0. rewrite count_vehicle_run.
    destruct (bool_decide _); [done |].
    by destruct (fr_increment_vehicle fr (obj_id obj)). }
  destruct (signalled _ _ _ _ _ _).
  - destruct (fr_get_speed fr (obj_id obj)) as [speed|]; cbv beta iota zeta;
      [| split_and!; [done | done | by left]].
    destruct (fr_imwrite fr (obj_id obj)); cbv beta iota zeta;
      [| split_and!; [done | done | by left]].
    destruct (fr_log_violation fr (obj_id obj)); cbv beta iota zeta;
      [| split_and!; [done | done | by left]].
    rewrite Hcount. simpl. split_and!; [done | |].
    + intros _ _. rewrite flagged_of_insert, decide_True by done.
      apply elem_of_union. left. by apply elem_of_singleton.
    + intros c v. rewrite flagged_of_insert.
      destruct (decide (cam = c)) as [<-|Hne]; [| by left].
      intros [->%elem_of_singleton|Hin]%elem_of_union; [by right | by left].
  - rewrite Hcount. simpl. split_and!; [done | done | by left].
Qed.

(** Over the tracked objects of a frame, a vehicle enters a violated set
    only by a violation signalled for it. *)
Lemma for_each_flag_origin cam fr crossing_y objs w :
  ∃ r w' new,
    for_each objs (process_object cam fr crossing_y) w = (r, w') ∧
    trace (globals w') = new ++ trace (globals w) ∧
    ∀ c v, v ∈ flagged_of (violated_ids (globals w')) c →
           v ∈ flagged_of (violated_ids (globals w)) c ∨
           violation_signalled c v new.
Proof.
  revert w. induction objs as [|obj objs IH]; intros w.
  - exists (Ok tt), w, []. split_and!; [done | done | by left].
  - destruct (process_object_trace cam fr crossing_y obj w)
      as (r1 & w1 & new1 & Hrun1 & Htrace1 & Hsig & _).
    destruct (process_object_violated cam fr crossing_y obj w)
      as (_ & _ & Horigin1).
    rewrite Hrun1 in Horigin1. simpl in Horigin1.
    assert (∀ c v, v ∈ flagged_of (violated_ids (globals w1)) c →
                   v ∈ flagged_of (violated_ids (globals w)) c ∨
                   violation_signalled c v new1) as Hfirst.
    { intros c v Hin.
      destruct (Horigin1 c v Hin) as [Hold | (Hentered & -> & ->)];
        [by left | right; by apply Hsig]. }
    simpl. unfold wbind. rewrite Hrun1. destruct r1 as [[]|].
    + destruct (IH w1) as (r & w' & new & -> & Htrace & Horigin).
      exists r, w', (new ++ new1).
      split_and!; [done | by rewrite Htrace, Htrace1, app_assoc |].
      intros c v Hin. unfold violation_signalled in *.
      rewrite elem_of_app.
      destruct (Horigin c v Hin) as [Hmid | Hnew]; [| tauto].
      destruct (Hfirst c v Hmid); tauto.
    + by exists Raise, w1, new1.
Qed.

(** C6 (amended).  For every tracked object of every processed frame, a
    violation is signalled if and only if the vehicle's stored last
    y-position (its current one when none is stored) is strictly below the
    crossing line, its current bottom-edge y-position is at or past the
    line, the lane's entry in the colour table is not GREEN (it is RED or
    absent), and the vehicle is not in the lane's violated set.  A body
    that signals nothing leaves the violated sets as they were; one that
    signals and returns leaves the vehicle in the lane's violated set.  An
    object of a vehicle with no stored position in the lane signals
    nothing; and over a frame whose tracked identifiers are distinct, a
    vehicle with no stored position in the lane at the start of the frame
    is not signalled in that frame and is in the lane's violated set
    afterwards only if it was before. *)
Theorem violation_signalled_iff (cam : string) (fr : Frame) (crossing_y : Z)
  (obj : TrackedObject) (w : WorkerState) :
  let s := globals w in
  let stored :=
    vehicle_last_positions s !! cam
    ≫= (λ positions : gmap Z Z, positions !! obj_id obj) in
  let last_y := default (bottom_y obj) stored in
  (∃ r w' new,
     process_object cam fr crossing_y obj w = (r, w') ∧
     trace (globals w') = new ++ trace s ∧
     (violation_signalled cam (obj_id obj) new ↔
      last_y < crossing_y ∧
      crossing_y ≤ bottom_y obj ∧
      traffic_lights s !! Some cam ≠ Some GREEN ∧
      ¬ (∃ ids, violated_ids s !! cam = Some ids ∧ obj_id obj ∈ ids)) ∧
     (¬ violation_signalled cam (obj_id obj) new →
      violated_ids (globals w') = violated_ids s) ∧
     (violation_signalled cam (obj_id obj) new → r = Ok tt →
      ∃ ids, violated_ids (globals w') !! cam = Some ids ∧
             obj_id obj ∈ ids) ∧
     (stored = None → ¬ violation_signalled cam (obj_id obj) new)) ∧
  (∀ objs,
     NoDup (obj_id <$> objs) →
     stored = None →
     ∃ r w' new,
       for_each objs (process_object cam fr crossing_y) w = (r, w') ∧
       trace (globals w') = new ++ trace s ∧
       ¬ violation_signalled cam (obj_id obj) new ∧
       (∀ ids', violated_ids (globals w') !! cam = Some ids' →
                obj_id obj ∈ ids' →
                ∃ ids, violated_ids s !! cam = Some ids ∧ obj_id obj ∈ ids)).
Proof.
  cbv zeta. rewrite <- positions_of_table. split.
  - destruct (process_object_trace cam fr crossing_y obj w)
      as (r & w' & new & Hrun & Htrace & Hsig & _).
    destruct (process_object_violated cam fr crossing_y obj w)
      as (Hquiet & Hflag & _).
    rewrite Hrun in Hquiet, Hflag. simpl in Hquiet, Hflag.
    rewrite signalled_iff, lane_color_table, flagged_of_table in Hsig.
    exists r, w', new. split_and!; [done | done | done | | |].
    + intros Hnot. apply Hquiet.
      destruct (signalled _ _ _ _ _ _) eqn:Hentered; [| done].
      destruct Hnot. apply Hsig.
      by rewrite signalled_iff, lane_color_table, flagged_of_table
        in Hentered.
    + intros Hyes Hr. apply flagged_of_table, Hflag; [| done].
      rewrite signalled_iff, lane_color_table, flagged_of_table.
      by apply Hsig.
    + intros Hfirst. rewrite Hsig. unfold last_y_of.
      rewrite Hfirst. simpl. lia.
  - intros objs Hnd Hfirst.
    destruct (for_each_first_sighting cam fr crossing_y objs (obj_id obj) w
                Hnd Hfirst) as (r & w' & new & Hrun & Htrace & Hquiet).
    destruct (for_each_flag_origin cam fr crossing_y objs w)
      as (r2 & w2 & new2 & Hrun2 & Htrace2 & Horigin).
    rewrite Hrun in Hrun2. injection Hrun2 as <- <-.
    rewrite Htrace in Htrace2. apply app_inv_tail in Htrace2 as <-.
    exists r, w', new. split_and!; [done | done | done |].
    intros ids' Hids' Hin. apply flagged_of_table.
    destruct (Horigin cam (obj_id obj)) as [Hold | Hnew]; [| done | done].
    apply flagged_of_table. by exists ids'.
Qed.

Lemma violation_signalled_iff_witness :
  (∃ r w' new,
     process_object "A" (quiet_frame []) 80 crossing_object approaching_worker
     = (r, w') ∧
     trace (globals w') = new ++ trace (globals approaching_worker) ∧
     violation_signalled "A" 1 new ∧
     (r = Ok tt →
      ∃ ids, violated_ids (globals w') !! "A" = Some ids ∧ 1 ∈ ids)) ∧
  (∃ r w' new,
     process_object "A" (quiet_frame []) 80 crossing_object green_lane_worker
     = (r, w') ∧
     trace (globals w') = new ++ trace (globals green_lane_worker) ∧
     ¬ violation_signalled "A" 1 new ∧
     violated_ids (globals w') = violated_ids (globals green_lane_worker)) ∧
  (∃ r w' new,
     for_each [crossing_object; newcomer_object]
       (process_object "A" (quiet_frame []) 80) approaching_worker = (r, w') ∧
     trace (globals w') = new ++ trace (globals approaching_worker) ∧
     ¬ violation_signalled "A" 2 new).
Proof.
  split_and!.
  - destruct (violation_signalled_iff "A" (quiet_frame []) 80 crossing_object
                approaching_worker)
      as [(r & w' & new & Hrun & Htrace & Hiff & _ & Hflag & _) _].
    assert (violation_signalled "A" 1 new) as Hsig.
    { apply Hiff. split_and!.
      - vm_compute; reflexivity.
      - vm_compute; discriminate.
      - vm_compute; discriminate.
      - intros (ids & Hids & _). vm_compute in Hids. discriminate. }
    exists r, w', new. split; [exact Hrun |]. split; [exact Htrace |].
    split; [exact Hsig |]. exact (Hflag Hsig).
  - destruct (violation_signalled_iff "A" (quiet_frame []) 80 crossing_object
                green_lane_worker)
      as [(r & w' & new & Hrun & Htrace & Hiff & Hquiet & _) _].
    assert (¬ violation_signalled "A" 1 new) as Hnot.
    { intros Hsig. apply Hiff in Hsig as (_ & _ & Hcolour & _).
      apply Hcolour. vm_compute; reflexivity. }
    exists r, w', new. split; [exact Hrun |]. split; [exact Htrace |].
    split; [exact Hnot |]. exact (Hquiet Hnot).
  - destruct (violation_signalled_iff "A" (quiet_frame []) 80 newcomer_object
                approaching_worker) as [_ Hframe].
    destruct (Hframe [crossing_object; newcomer_object])
      as (r & w' & new & Hrun & Htrace & Hquiet & _).
    + change (obj_id <$> [crossing_object; newcomer_object]) with [1; 2].
      apply NoDup_cons. split.
      * intros Hin. apply list_elem_of_singleton in Hin. discriminate.
      * apply NoDup_singleton.
    + vm_compute; reflexivity.
    + by exists r, w', new.
Defined.

(** C6, as stated, fails.  On the first frame of lane A the tracker returns
    two rows with identifier 7, one above the crossing line and one past
    it: vehicle 7 has no stored position in the lane before the frame, and
    the second row signals a violation against the position stored by the
    first, so that it is recorded and flagged in the frame in which it was
    first seen. *)
Lemma first_sighting_counterexample :
  (vehicle_last_positions initial_state !! "A"
   ≫= (λ positions : gmap Z Z, positions !! 7) = None) ∧
  (EvGetSpeed "A" 7 ∈ trace (sys_globals twice_tracked_system)) ∧
  (EvLogViolation "A" 7 40 ∈ trace (sys_globals twice_tracked_system)) ∧
  (∃ ids, violated_ids (sys_globals twice_tracked_system) !! "A" = Some ids ∧
          7 ∈ ids).
Proof.
  split_and!.
  - vm_compute; reflexivity.
  - vm_compute. do 2 apply list_elem_of_further. apply list_elem_of_here.
  - vm_compute. apply list_elem_of_here.
  - exists {[7]}. split; [vm_compute; reflexivity |].
    by apply elem_of_singleton.
Qed.

(** The state reached when the violation block ran to its end. *)
Lemma process_object_flags cam fr crossing_y obj w speed written :
  signalled cam crossing_y (obj_id obj) (last_y_of cam obj (globals w))
    (bottom_y obj) (globals w) = true →
  fr_get_speed fr (obj_id obj) = Ok speed →
  fr_imwrite fr (obj_id obj) = Ok written →
  fr_log_violation fr (obj_id obj) = Ok tt →
  fr_increment_vehicle fr (obj_id obj) = Ok tt →
  ∃ w', process_object cam fr crossing_y obj w = (Ok tt, w') ∧
        obj_id obj ∈ flagged_of (violated_ids (globals w')) cam ∧
        EvLogViolation cam (obj_id obj) speed ∈ trace (globals w').
Proof.
  intros Hsig Hspeed Hwrite Hlog Hinc.
  rewrite process_object_run, check_violation_run, signalled_positioned, Hsig.
  rewrite Hspeed, Hwrite, Hlog. cbv beta iota zeta.
  rewrite count_vehicle_run, Hinc.
  destruct (bool_decide _); eexists; (split; [done |]); simpl;
    rewrite flagged_of_insert, decide_True by done; set_solver.
Qed.

(** The state reached when a sink raised in the violation block. *)
Lemma process_object_sink_raises cam fr crossing_y obj w speed :
  signalled cam crossing_y (obj_id obj) (last_y_of cam obj (globals w))
    (bottom_y obj) (globals w) = true →
  fr_get_speed fr (obj_id obj) = Ok speed →
  fr_imwrite fr (obj_id obj) = Raise ∨
  (∃ written, fr_imwrite fr (obj_id obj) = Ok written ∧
              fr_log_violation fr (obj_id obj) = Raise) →
  ∃ w', process_object cam fr crossing_y obj w = (Raise, w') ∧
        violated_ids (globals w') = violated_ids (globals w).
Proof.
  intros Hsig Hspeed Hraise.
  rewrite process_object_run, check_violation_run, signalled_positioned, Hsig.
  rewrite Hspeed. cbv beta iota zeta.
  destruct Hraise as [-> | (written & -> & ->)]; eauto.
Qed.

(** C10.  When the lane has no entry in the colour table, the violation
    check reads its colour as RED: a vehicle that crosses the line in such
    a lane and is not yet flagged is flagged as a violator, and a
    violation record is handed to the sink. *)
Theorem absent_colour_reads_red (cam : string) (fr : Frame) (crossing_y : Z)
  (obj : TrackedObject) (w : WorkerState) (speed : Z) (written : bool) :
  traffic_lights (globals w) !! Some cam = None →
  last_y_of cam obj (globals w) < crossing_y →
  crossing_y ≤ bottom_y obj →
  obj_id obj ∉ flagged_of (violated_ids (globals w)) cam →
  fr_get_speed fr (obj_id obj) = Ok speed →
  fr_imwrite fr (obj_id obj) = Ok written →
  fr_log_violation fr (obj_id obj) = Ok tt →
  fr_increment_vehicle fr (obj_id obj) = Ok tt →
  lane_color (traffic_lights (globals w)) cam = RED ∧
  ∃ w', process_object cam fr crossing_y obj w = (Ok tt, w') ∧
        obj_id obj ∈ flagged_of (violated_ids (globals w')) cam ∧
        EvLogViolation cam (obj_id obj) speed ∈ trace (globals w').
Proof.
  intros Habsent Hlast Hcur Hfresh Hspeed Hwrite Hlog Hinc.
  assert (lane_color (traffic_lights (globals w)) cam = RED) as Hred
    by (unfold lane_color; by rewrite Habsent).
  split; [done |].
  eapply process_object_flags; try done.
  by apply signalled_iff.
Qed.

Lemma absent_colour_reads_red_witness :
  lane_color (traffic_lights (globals approaching_worker)) "A" = RED ∧
  ∃ w', process_object "A" (quiet_frame []) 80 crossing_object
          approaching_worker = (Ok tt, w') ∧
        1 ∈ flagged_of (violated_ids (globals w')) "A" ∧
        EvLogViolation "A" 1 40 ∈ trace (globals w').
Proof.
  apply (absent_colour_reads_red "A" (quiet_frame []) 80 crossing_object
           approaching_worker 40 true).
  - vm_compute; reflexivity.
  - vm_compute; reflexivity.
  - vm_compute; discriminate.
  - change (flagged_of (violated_ids (globals approaching_worker)) "A")
      with (∅ : gset Z).
    apply not_elem_of_empty.
  - reflexivity.
  - reflexivity.
  - reflexivity.
  - reflexivity.
Defined.

(** The loop over the tracked objects stops at the object whose
    processing raises. *)
Lemma for_each_raises_at {A} (body : A → W unit) before x after w0 w1 w2 :
  for_each before body w0 = (Ok tt, w1) →
  body x w1 = (Raise, w2) →
  for_each (before ++ x :: after) body w0 = (Raise, w2).
Proof.
  revert w0. induction before as [|y before IH]; intros w0; simpl.
  - intros [= ->] Hx. unfold wbind. by rewrite Hx.
  - unfold wbind. destruct (body y w0) as [[[]|] w]; [| done].
    apply IH.
Qed.

(** Nothing in the frame catches an exception of the loop body. *)
Lemma process_frame_object_raises cam fr w emergency n rows before obj after
  w1 w2 :
  fr_detect_emergency fr = Ok emergency →
  fr_detections fr = Ok (S n) →
  fr_tracker_update fr = Ok rows →
  rows_to_objects rows = Ok (before ++ obj :: after) →
  for_each before (process_object cam fr (fr_crossing_y fr))
    {| globals := after_emergency_check cam fr emergency (globals w);
       counted_ids := counted_ids w |} = (Ok tt, w1) →
  process_object cam fr (fr_crossing_y fr) obj w1 = (Raise, w2) →
  process_frame cam fr w = (Raise, w2).
Proof.
  intros Hem Hdet Htrack Hrows Hbefore Hobj. destruct w as [s counted].
  pose proof (for_each_raises_at _ _ _ after _ _ _ Hbefore Hobj) as Hloop.
  unfold process_frame, track, try_except, wbind, call, wret, modify_globals
    in *.
  rewrite Hem, Hdet, Htrack, Hrows.
  destruct emergency; simpl in *; by rewrite Hloop.
Qed.

(** A worker that is gone stays gone. *)
Lemma worker_stays_gone sys cam ops :
  sys_workers sys !! cam = None → sys_workers (run sys ops) !! cam = None.
Proof.
  revert sys. induction ops as [|op ops IH]; intros sys Hgone; [done |].
  simpl. apply IH. destruct op as [cam' fr|cam'|now]; simpl.
  - destruct (sys_workers sys !! cam') as [counted|] eqn:Hcam'; [| done].
    assert (cam' ≠ cam) as Hne by congruence.
    destruct (process_frame cam' fr _) as [[[]|] w']; simpl.
    + by rewrite lookup_insert_ne.
    + by rewrite lookup_delete_ne.
  - destruct (sys_workers sys !! cam') as [counted|] eqn:Hcam'; [| done].
    simpl. rewrite lookup_delete_ne; [done | congruence].
  - destruct (sys_scheduler_running sys); [| done].
    by destruct (update_traffic_signals_step now (sys_globals sys))
      as [[? ?]|].
Qed.

(** A frame that raises ends its worker for the rest of the run, with the
    globals as they were when the exception was raised. *)
Lemma raising_frame_ends_worker sys cam fr counted w' ops :
  sys_workers sys !! cam = Some counted →
  process_frame cam fr {| globals := sys_globals sys; counted_ids := counted |}
  = (Raise, w') →
  sys_globals (step sys (OpFrame cam fr)) = globals w' ∧
  sys_workers (run (step sys (OpFrame cam fr)) ops) !! cam = None.
Proof.
  intros Hcam Hfr. split.
  - simpl. by rewrite Hcam, Hfr.
  - apply worker_stays_gone. simpl. rewrite Hcam, Hfr. simpl.
    apply lookup_delete_eq.
Qed.

(** C8 (amended).  For every violation signalled by a worker whose speed
    estimate is returned: when the snapshot write and the violation record
    sink return, whatever the snapshot write reports, the vehicle is
    marked as flagged and the loop body completes; when the snapshot write
    or the violation record sink raises, the exception leaves the loop
    body uncaught and the vehicle is not marked as flagged; the exception
    then leaves the frame and the worker, which processes no further
    frame, and the vehicle stays unflagged as the worker ends. *)
Theorem sink_failure_not_caught (cam : string) (fr : Frame) (crossing_y : Z)
  (obj : TrackedObject) (w : WorkerState) (speed : Z) :
  last_y_of cam obj (globals w) < crossing_y →
  crossing_y ≤ bottom_y obj →
  lane_color (traffic_lights (globals w)) cam = RED →
  obj_id obj ∉ flagged_of (violated_ids (globals w)) cam →
  fr_get_speed fr (obj_id obj) = Ok speed →
  (∀ written,
     fr_imwrite fr (obj_id obj) = Ok written →
     fr_log_violation fr (obj_id obj) = Ok tt →
     fr_increment_vehicle fr (obj_id obj) = Ok tt →
     ∃ w', process_object cam fr crossing_y obj w = (Ok tt, w') ∧
           obj_id obj ∈ flagged_of (violated_ids (globals w')) cam) ∧
  (fr_imwrite fr (obj_id obj) = Raise ∨
   (∃ written, fr_imwrite fr (obj_id obj) = Ok written ∧
               fr_log_violation fr (obj_id obj) = Raise) →
   (∃ w', process_object cam fr crossing_y obj w = (Raise, w') ∧
          obj_id obj ∉ flagged_of (violated_ids (globals w')) cam) ∧
   ∀ sys counted emergency n rows before after ops,
     sys_workers sys !! cam = Some counted →
     fr_detect_emergency fr = Ok emergency →
     fr_detections fr = Ok (S n) →
     fr_tracker_update fr = Ok rows →
     rows_to_objects rows = Ok (before ++ obj :: after) →
     crossing_y = fr_crossing_y fr →
     for_each before (process_object cam fr crossing_y)
       {| globals := after_emergency_check cam fr emergency (sys_globals sys);
          counted_ids := counted |} = (Ok tt, w) →
     (obj_id obj
        ∉ flagged_of (violated_ids (sys_globals (step sys (OpFrame cam fr))))
            cam) ∧
     sys_workers (run (step sys (OpFrame cam fr)) ops) !! cam = None).
Proof.
  intros Hlast Hcur Hred Hfresh Hspeed.
  assert (signalled cam crossing_y (obj_id obj)
            (last_y_of cam obj (globals w)) (bottom_y obj) (globals w) = true)
    as Hsig by (by apply signalled_iff).
  split.
  - intros written Hwrite Hlog Hinc.
    destruct (process_object_flags _ _ _ _ _ _ _ Hsig Hspeed Hwrite Hlog Hinc)
      as (w' & Hrun & Hflag & _).
    eauto.
  - intros Hraise.
    destruct (process_object_sink_raises _ _ _ _ _ _ Hsig Hspeed Hraise)
      as (w' & Hrun & Hsame).
    assert (obj_id obj ∉ flagged_of (violated_ids (globals w')) cam)
      as Hunflagged by (by rewrite Hsame).
    split; [by exists w' |].
    intros sys counted emergency n rows before after ops
      Hcam Hem Hdet Htrack Hrows -> Hbefore.
    pose proof (process_frame_object_raises cam fr
                  {| globals := sys_globals sys; counted_ids := counted |}
                  emergency n rows before obj after w w'
                  Hem Hdet Htrack Hrows Hbefore Hrun) as Hframe.
    destruct (raising_frame_ends_worker sys cam fr counted w' ops Hcam Hframe)
      as [-> Hgone].
    done.
Qed.

Lemma sink_failure_not_caught_witness :
  (∃ w', process_object "A" (snapshot_unwritten_frame []) 80 crossing_object
           approaching_worker = (Ok tt, w') ∧
         1 ∈ flagged_of (violated_ids (globals w')) "A") ∧
  (∃ w', process_object "A" (sink_fails_frame [[0; 0; 10; 90; 1]]) 80
           crossing_object approaching_worker = (Raise, w') ∧
         1 ∉ flagged_of (violated_ids (globals w')) "A") ∧
  (1 ∉ flagged_of
         (violated_ids
            (sys_globals
               (step approaching_system
                  (OpFrame "A" (sink_fails_frame [[0; 0; 10; 90; 1]])))))
         "A") ∧
  sys_workers
    (run (step approaching_system
            (OpFrame "A" (sink_fails_frame [[0; 0; 10; 90; 1]])))
       [OpFrame "A" (quiet_frame (standing 1))]) !! "A" = None.
Proof.
  assert (1 ∉ flagged_of (violated_ids (globals approaching_worker)) "A")
    as Hfresh.
  { change (flagged_of (violated_ids (globals approaching_worker)) "A")
      with (∅ : gset Z).
    apply not_elem_of_empty. }
  split.
  - apply (sink_failure_not_caught "A" (snapshot_unwritten_frame []) 80
             crossing_object approaching_worker 40) with (written := false);
      first [exact Hfresh | vm_compute; reflexivity | vm_compute; discriminate].
  - destruct (sink_failure_not_caught "A"
                (sink_fails_frame [[0; 0; 10; 90; 1]]) 80
                crossing_object approaching_worker 40) as [_ Hraises];
      first [exact Hfresh | vm_compute; reflexivity | vm_compute; discriminate
            | idtac].
    destruct Hraises as [Hbody Hworker].
    { right. exists true. split; reflexivity. }
    split; [exact Hbody |].
    apply (Hworker approaching_system {[1]} false 0%nat
             [[0; 0; 10; 90; 1]] [] []); reflexivity.
Defined.

(** C8, as stated, fails.  Vehicle 1 crosses the line of lane A on the
    second frame while the violation record sink raises: the sink was
    called, the vehicle is not in the violated set, and the worker of lane
    A is no longer running. *)
Lemma sink_failure_counterexample :
  (EvLogViolation "A" 1 40 ∈ trace (sys_globals sink_failed_system)) ∧
  (1 ∉ flagged_of (violated_ids (sys_globals sink_failed_system)) "A") ∧
  (sys_workers sink_failed_system !! "A" = None).
Proof.
  split_and!.
  - vm_compute. apply list_elem_of_here.
  - change (flagged_of (violated_ids (sys_globals sink_failed_system)) "A")
      with (∅ : gset Z).
    apply not_elem_of_empty.
  - vm_compute; reflexivity.
Qed.

(** ** Violation records over the life of the process *)

Lemma records_flagged_mono D D' s :
  D' ⊆ D → records_flagged D s → records_flagged D' s.
Proof. intros Hsub [Hnd Hfl]. split; [done |]. intros c v Hin HD. auto. Qed.

Lemma records_flagged_drop D cam s :
  records_flagged D s → records_flagged (D ∖ {[cam]}) s.
Proof.
  apply records_flagged_mono. intros c Hc.
  by apply elem_of_difference in Hc as [? _].
Qed.

Lemma records_flagged_same D s s' :
  violation_records (trace s') = violation_records (trace s) →
  violated_ids s' = violated_ids s →
  records_flagged D s → records_flagged D s'.
Proof. unfold records_flagged. by intros -> ->. Qed.

Section keeps.
Context (cam : string) (D : gset string).

Lemma keeps_wret {A} (a : A) : keeps_records cam D (wret a).
Proof. by intros w Hw. Qed.

Lemma keeps_wbind {A B} (m : W A) (k : A → W B) :
  keeps_records cam D m → (∀ a, keeps_records cam D (k a)) →
  keeps_records cam D (wbind m k).
Proof.
  intros Hm Hk w Hw. unfold wbind. specialize (Hm w Hw).
  destruct (m w) as [[a|] w']; [by apply Hk | done].
Qed.

Lemma keeps_call {A} (answer : result A) : keeps_records cam D (call answer).
Proof.
  intros w Hw. unfold call. destruct answer; [done |].
  by apply records_flagged_drop.
Qed.

Lemma keeps_modify_globals (f : State → State) :
  (∀ s, trace (f s) = trace s ∧ violated_ids (f s) = violated_ids s) →
  keeps_records cam D (modify_globals f).
Proof.
  intros Hf w Hw. simpl. destruct (Hf (globals w)) as [Htr Hvi].
  apply (records_flagged_same _ (globals w)); [by rewrite Htr | done..].
Qed.

Lemma keeps_for_each {A} (l : list A) (body : A → W unit) :
  (∀ x, keeps_records cam D (body x)) → keeps_records cam D (for_each l body).
Proof.
  intros Hbody. induction l as [|x l IH]; simpl.
  - apply keeps_wret.
  - apply keeps_wbind; [apply Hbody | done].
Qed.

Lemma keeps_track fr n : keeps_records cam D (track fr n).
Proof.
  intros w Hw. unfold track. destruct n; [done |].
  unfold try_except, wbind, call, wret.
  destruct (fr_tracker_update fr) as [rows|]; [| done].
  by destruct (rows_to_objects rows).
Qed.

Lemma keeps_count_vehicle fr vehicle_id :
  keeps_records cam D (count_vehicle fr vehicle_id).
Proof.
  intros w Hw. rewrite count_vehicle_run.
  destruct (bool_decide (vehicle_id ∈ counted_ids w)); [done |].
  destruct (fr_increment_vehicle fr vehicle_id); simpl.
  - by apply (records_flagged_same _ (globals w)).
  - by apply records_flagged_drop, (records_flagged_same _ (globals w)).
Qed.

Lemma keeps_check_violation fr crossing_y vehicle_id last_y current_y :
  cam ∈ D →
  keeps_records cam D
    (check_violation cam fr crossing_y vehicle_id last_y current_y).
Proof.
  intros HD w Hw. rewrite check_violation_run.
  destruct (signalled _ _ _ _ _ _) eqn:Hsig; [| done].
  apply signalled_iff in Hsig as (_ & _ & _ & Hfresh).
  assert (records_flagged (D ∖ {[cam]}) (globals w)) as Hw'
    by (by apply records_flagged_drop).
  destruct (fr_get_speed fr vehicle_id) as [speed|]; [| done].
  destruct (fr_imwrite fr vehicle_id) as [written|]; [| done].
  destruct Hw as [Hnd Hfl].
  assert ((cam, vehicle_id) ∉ violation_records (trace (globals w)))
    as Hnew by (intros Hin; by apply Hfresh, Hfl).
  destruct (fr_log_violation fr vehicle_id); simpl.
  - split; simpl.
    + apply NoDup_cons. by split.
    + intros c v Hin Hc. rewrite flagged_of_insert.
      apply elem_of_cons in Hin as [[= -> ->]|Hin].
      * rewrite decide_True by done. apply elem_of_union. left.
        by apply elem_of_singleton.
      * specialize (Hfl c v Hin Hc). destruct (decide (cam = c)) as [->|_];
          [apply elem_of_union; by right | done].
  - split; simpl.
    + apply NoDup_cons. by split.
    + intros c v Hin Hc. apply elem_of_difference in Hc as [Hc Hne].
      apply elem_of_cons in Hin as [[= -> ->]|Hin].
      * destruct Hne. by apply elem_of_singleton.
      * by apply Hfl.
Qed.

Lemma keeps_process_object fr crossing_y obj :
  cam ∈ D → keeps_records cam D (process_object cam fr crossing_y obj).
Proof.
  intros HD w Hw. rewrite process_object_run.
  pose proof (keeps_check_violation fr crossing_y (obj_id obj)
                (last_y_of cam obj (globals w)) (bottom_y obj) HD
                (positioned cam (obj_id obj) (bottom_y obj) w)) as Hcheck.
  destruct (check_violation _ _ _ _ _ _ _) as [[[]|] w1].
  - apply keeps_count_vehicle, Hcheck.
    by apply (records_flagged_same _ (globals w)).
  - apply Hcheck. by apply (records_flagged_same _ (globals w)).
Qed.

Lemma keeps_process_frame fr :
  cam ∈ D → keeps_records cam D (process_frame cam fr).
Proof.
  intros HD. unfold process_frame.
  apply keeps_wbind; [apply keeps_call |]. intros emergency.
  apply keeps_wbind.
  { destruct emergency; [by apply keeps_modify_globals | apply keeps_wret]. }
  intros _. apply keeps_wbind; [apply keeps_call |]. intros n.
  apply keeps_wbind; [apply keeps_track |]. intros objs.
  apply keeps_wbind.
  { apply keeps_for_each. intros obj. by apply keeps_process_object. }
  intros _. apply keeps_wbind; [by apply keeps_modify_globals |].
  intros _. apply keeps_wbind; [apply keeps_call |].
  intros _. apply keeps_call.
Qed.
End keeps.

(** A pass of the scheduler touches neither the records nor the flags. *)
Lemma step_keeps_records now s s' out :
  update_traffic_signals_step now s = Ok (s', out) →
  trace s' = trace s ∧ violated_ids s' = violated_ids s.
Proof.
  destruct (emergency_holds now s) eqn:Hhold.
  - rewrite (step_holds _ _ Hhold). by intros [= <- <-].
  - rewrite (step_selects _ _ Hhold).
    destruct (release_fields s) as (Hvc & _ & _ & _ & _ & _ & Hvi & Htr).
    destruct (vehicle_counts s) as [|first others] eqn:Hs.
    + rewrite select_lane_Idle by done. by intros [= <- <-].
    + destruct (select_lane_Selected (release s))
        as (sel & s2 & -> & _ & _ & _ & _ & Hvi2 & Htr2 & _).
      { by rewrite Hvc. }
      intros [= <- <-]. simpl. by rewrite Hvi2, Htr2.
Qed.

Lemma start_invariant camera_sources :
  system_invariant (start camera_sources).
Proof.
  split; simpl; [apply NoDup_nil_2 |].
  intros c v Hin. by apply elem_of_nil in Hin.
Qed.

Lemma step_invariant sys op :
  system_invariant sys → system_invariant (step sys op).
Proof.
  unfold system_invariant. intros Hinv. destruct op as [cam fr|cam|now]; simpl.
  - destruct (sys_workers sys !! cam) as [counted|] eqn:Hcam; [| done].
    assert (cam ∈ dom (sys_workers sys)) as HD by (apply elem_of_dom; eauto).
    pose proof (keeps_process_frame cam _ fr HD
                  {| globals := sys_globals sys; counted_ids := counted |}
                  Hinv) as Hkeep.
    destruct (process_frame cam fr _) as [[[]|] w']; simpl.
    + eapply records_flagged_mono; [| done]. rewrite dom_insert_L.
      intros c [Hc%elem_of_singleton|Hc]%elem_of_union; by subst.
    + by rewrite dom_delete_L.
  - destruct (sys_workers sys !! cam) as [counted|] eqn:Hcam; [| done]. simpl.
    rewrite dom_delete_L. apply records_flagged_drop.
    by apply (records_flagged_same _ (sys_globals sys)).
  - destruct (sys_scheduler_running sys); [| done].
    destruct (update_traffic_signals_step now (sys_globals sys))
      as [[s' out]|] eqn:Hstep; [| done]. simpl.
    destruct (step_keeps_records _ _ _ _ Hstep) as [Htr Hvi].
    apply (records_flagged_same _ (sys_globals sys)); [by rewrite Htr | done..].
Qed.

Lemma run_invariant sys ops :
  system_invariant sys → system_invariant (run sys ops).
Proof.
  revert sys. induction ops as [|op ops IH]; intros sys Hinv; [done |].
  apply IH. by apply step_invariant.
Qed.

(** C5.  Over any run of the process, whatever frames the workers process
    and however the scheduler is interleaved with them, the violation
    record sink is called at most once for each (lane, vehicle) pair. *)
Theorem one_record_per_lane_and_vehicle (camera_sources : list string)
  (ops : list Op) :
  NoDup (violation_records
           (trace (sys_globals (run (start camera_sources) ops)))).
Proof.
  apply (run_invariant (start camera_sources) ops).
  apply start_invariant.
Qed.

(** ** Tracker failure *)

Lemma dict_get_set {V} (d : list (string * V)) k v :
  dict_get (dict_set d k v) k = Some v.
Proof.
  induction d as [|[k' v'] d IH]; simpl.
  - by rewrite String.eqb_refl.
  - destruct (String.eqb k' k) eqn:Hk; simpl; by rewrite Hk.
Qed.

Lemma process_frame_tracker_raises cam fr w emergency n :
  fr_detect_emergency fr = Ok emergency →
  fr_detections fr = Ok (S n) →
  fr_tracker_update fr = Raise →
  fr_estimator_update fr = Ok tt →
  fr_detect_lanes fr = Ok tt →
  process_frame cam fr w =
    (Ok tt,
     {| globals :=
          let s := after_emergency_check cam fr emergency (globals w) in
          with_vehicle_counts (dict_set (vehicle_counts s) cam 0) s;
        counted_ids := counted_ids w |}).
Proof.
  intros Hem Hdet Htrack Hest Hlanes.
  unfold process_frame, track, try_except, wbind, call, wret, modify_globals.
  rewrite Hem, Hdet, Htrack, Hest, Hlanes.
  by destruct emergency.
Qed.

(** C9.  On every frame on which the tracker raises (the other
    collaborators answering), the worker processes no tracked vehicle: no
    position is stored, no collaborator that keeps records is called, no
    vehicle is flagged or counted; it publishes an occupancy count of 0 for
    its lane; and the exception does not leave the worker, which is still
    running for the next frame. *)
Theorem tracker_failure_is_empty_frame (sys : System) (cam : string)
  (fr : Frame) (counted : gset Z) (emergency : bool) (n : nat) :
  sys_workers sys !! cam = Some counted →
  fr_detect_emergency fr = Ok emergency →
  fr_detections fr = Ok (S n) →
  fr_tracker_update fr = Raise →
  fr_estimator_update fr = Ok tt →
  fr_detect_lanes fr = Ok tt →
  sys_workers (step sys (OpFrame cam fr)) !! cam = Some counted ∧
  dict_get (vehicle_counts (sys_globals (step sys (OpFrame cam fr)))) cam
    = Some 0 ∧
  trace (sys_globals (step sys (OpFrame cam fr))) = trace (sys_globals sys) ∧
  violated_ids (sys_globals (step sys (OpFrame cam fr)))
    = violated_ids (sys_globals sys) ∧
  vehicle_last_positions (sys_globals (step sys (OpFrame cam fr)))
    = vehicle_last_positions (sys_globals sys).
Proof.
  intros Hcam Hem Hdet Htrack Hest Hlanes. simpl. rewrite Hcam.
  rewrite (process_frame_tracker_raises cam fr _ emergency n) by done. simpl.
  split_and!.
  - apply lookup_insert_eq.
  - apply dict_get_set.
  - by destruct emergency.
  - by destruct emergency.
  - by destruct emergency.
Qed.

Lemma tracker_failure_is_empty_frame_witness :
  sys_workers (step two_tracked_system (OpFrame "A" tracker_fails_frame)) !! "A"
    = Some {[1; 2]} ∧
  dict_get (vehicle_counts (sys_globals two_tracked_system)) "A" = Some 2 ∧
  dict_get
    (vehicle_counts
       (sys_globals (step two_tracked_system (OpFrame "A" tracker_fails_frame))))
    "A" = Some 0.
Proof.
  destruct (tracker_failure_is_empty_frame two_tracked_system "A"
              tracker_fails_frame {[1; 2]} false 1)
    as (Hrun & Hcount & _); [vm_compute; reflexivity .. |].
  split_and!; [exact Hrun | vm_compute; reflexivity | exact Hcount].
Defined.

(** ** The status query of [main.py] *)

(** Nothing writes the dictionary of [main.py]. *)
Lemma main_override_untouched camera_sources ops :
  sys_main_override (run (start camera_sources) ops) = Main.emergency_override.
Proof.
  assert (∀ sys, sys_main_override (run sys ops) = sys_main_override sys)
    as Hrun.
  { induction ops as [|op ops IH]; intros sys; [done |]. simpl. rewrite IH.
    destruct op as [cam fr|cam|now]; simpl.
    - destruct (sys_workers sys !! cam); [| done].
      by destruct (process_frame cam fr _) as [[[]|] ?].
    - by destruct (sys_workers sys !! cam).
    - destruct (sys_scheduler_running sys); [| done].
      by destruct (update_traffic_signals_step now (sys_globals sys))
        as [[? ?]|]. }
  by rewrite Hrun.
Qed.

(** C7 on the code.  While the override set by the worker of CAM1 at time
    100 is active and held by the scheduler, the status query made at time
    105 answers inactive, no lane and 0 seconds; and so it answers at any
    time of any run, since it reads the dictionary of [main.py]. *)
Theorem status_query_reads_its_own_dictionary :
  active (emergency_override (sys_globals siren_system)) = true ∧
  cam_id (emergency_override (sys_globals siren_system)) = Some "CAM1" ∧
  traffic_lights (sys_globals siren_system) !! Some "CAM1" = Some GREEN ∧
  Main.get_emergency_status 105%Q (sys_main_override siren_system)
  = {| Main.status_active := false;
       Main.status_cam_id := None;
       Main.remaining_time := 0 |} ∧
  ∀ camera_sources ops now,
    Main.get_emergency_status now
      (sys_main_override (run (start camera_sources) ops))
    = {| Main.status_active := false;
         Main.status_cam_id := None;
         Main.remaining_time := 0 |}.
Proof.
  split; [vm_compute; reflexivity |].
  split; [vm_compute; reflexivity |].
  split; [vm_compute; reflexivity |].
  split; [vm_compute; reflexivity |].
  intros camera_sources ops now. by rewrite main_override_untouched.
Qed.

(** ** The scheduler thread and the lane set over a run *)

(** With every pass taken as a whole, the scheduler loop keeps running. *)
Lemma update_traffic_signals_total clock s :
  ∃ s', update_traffic_signals clock s = Ok s'.
Proof.
  revert s. induction clock as [|now clock IH]; intros s; simpl; [eauto |].
  destruct (step_total now s) as (s' & out & ->). simpl. apply IH.
Qed.

Lemma scheduler_keeps_running camera_sources ops :
  sys_scheduler_running (run (start camera_sources) ops) = true.
Proof.
  assert (∀ sys, sys_scheduler_running sys = true →
                 sys_scheduler_running (run sys ops) = true) as Hrun.
  { induction ops as [|op ops IH]; intros sys Hsys; [done |]. simpl.
    apply IH. destruct op as [cam fr|cam|now]; simpl.
    - destruct (sys_workers sys !! cam); [| done].
      by destruct (process_frame cam fr _) as [[[]|] ?].
    - by destruct (sys_workers sys !! cam).
    - rewrite Hsys.
      by destruct (step_total now (sys_globals sys)) as (s' & out & ->). }
  by apply Hrun.
Qed.

Lemma dict_set_keys {V} (d : list (string * V)) k v :
  (dict_set d k v).*1 = if bool_decide (k ∈ d.*1) then d.*1 else d.*1 ++ [k].
Proof.
  induction d as [|[k' v'] d IH]; [done |]. cbn [dict_set].
  destruct (String.eqb_spec k' k) as [->|Hne]; rewrite !fmap_cons; cbn [fst].
  - rewrite bool_decide_eq_true_2; [done | apply elem_of_cons; by left].
  - rewrite IH. case_bool_decide as Hin.
    + rewrite bool_decide_eq_true_2; [done | apply elem_of_cons; by right].
    + rewrite bool_decide_eq_false_2; [done |].
      intros [?|?]%elem_of_cons; [by subst | done].
Qed.

Lemma dict_set_keys_NoDup {V} (d : list (string * V)) k v :
  NoDup d.*1 → NoDup (dict_set d k v).*1.
Proof.
  intros Hnd. rewrite dict_set_keys. case_bool_decide as Hin; [done |].
  apply NoDup_app. split_and!; [done | | apply NoDup_singleton].
  intros x Hx Hk. apply list_elem_of_singleton in Hk. by subst.
Qed.

Section preserves.
Context (P : State → Prop).
Context (Ptrace : ∀ s tr, P s → P (with_trace tr s)).
Context (Ppositions : ∀ s v, P s → P (with_vehicle_last_positions v s)).
Context (Pviolated : ∀ s v, P s → P (with_violated_ids v s)).
Context (Poverride : ∀ s now cam, P s → P (override_signal now cam s)).
Context (Pcounts :
  ∀ s cam n, P s →
             P (with_vehicle_counts (dict_set (vehicle_counts s) cam n) s)).

Lemma preserves_wret {A} (a : A) : preserves P (wret a).
Proof. by intros w Hw. Qed.

Lemma preserves_wbind {A B} (m : W A) (k : A → W B) :
  preserves P m → (∀ a, preserves P (k a)) → preserves P (wbind m k).
Proof.
  intros Hm Hk w Hw. unfold wbind. specialize (Hm w Hw).
  destruct (m w) as [[a|] w']; [by apply Hk | done].
Qed.

Lemma preserves_call {A} (answer : result A) : preserves P (call answer).
Proof. by intros w Hw. Qed.

Lemma preserves_modify_globals (f : State → State) :
  (∀ s, P s → P (f s)) → preserves P (modify_globals f).
Proof. intros Hf w Hw. by apply Hf. Qed.

Lemma preserves_external {A} ev (answer : result A) :
  preserves P (external ev answer).
Proof.
  apply preserves_wbind; [| intros _; apply preserves_call].
  apply preserves_modify_globals. intros s. apply Ptrace.
Qed.

Lemma preserves_for_each {A} (l : list A) (body : A → W unit) :
  (∀ x, preserves P (body x)) → preserves P (for_each l body).
Proof.
  intros Hbody. induction l as [|x l IH]; simpl.
  - apply preserves_wret.
  - apply preserves_wbind; [apply Hbody | done].
Qed.

Lemma preserves_track fr n : preserves P (track fr n).
Proof.
  intros w Hw. unfold track. destruct n; [done |].
  unfold try_except, wbind, call, wret.
  destruct (fr_tracker_update fr) as [rows|]; [| done].
  by destruct (rows_to_objects rows).
Qed.

Lemma preserves_process_object cam fr crossing_y obj :
  preserves P (process_object cam fr crossing_y obj).
Proof.
  unfold process_object. destruct (obj_bbox obj) as [[[x1 y1] x2] y2].
  apply preserves_wbind; [by intros w Hw |]. intros s.
  apply preserves_wbind.
  { apply preserves_modify_globals. intros s'. apply Ppositions. }
  intros _. apply preserves_wbind.
  - unfold check_violation. destruct (_ && _); [| apply preserves_wret].
    apply preserves_wbind; [by intros w Hw |]. intros s'.
    destruct (_ && _); [| apply preserves_wret].
    apply preserves_wbind; [apply preserves_external |]. intros speed.
    apply preserves_wbind; [apply preserves_external |]. intros _.
    apply preserves_wbind; [apply preserves_external |]. intros _.
    apply preserves_modify_globals. intros s''. apply Pviolated.
  - intros _. unfold count_vehicle.
    apply preserves_wbind; [by intros w Hw |]. intros counted.
    destruct (bool_decide _); [apply preserves_wret |].
    apply preserves_wbind; [apply preserves_external |]. intros _.
    by intros w Hw.
Qed.

Lemma preserves_process_frame cam fr : preserves P (process_frame cam fr).
Proof.
  unfold process_frame.
  apply preserves_wbind; [apply preserves_call |]. intros emergency.
  apply preserves_wbind.
  { destruct emergency; [| apply preserves_wret].
    apply preserves_modify_globals. intros s. apply Poverride. }
  intros _. apply preserves_wbind; [apply preserves_call |]. intros n.
  apply preserves_wbind; [apply preserves_track |]. intros objs.
  apply preserves_wbind.
  { apply preserves_for_each. intros obj. apply preserves_process_object. }
  intros _. apply preserves_wbind.
  { apply preserves_modify_globals. intros s. apply Pcounts. }
  intros _. apply preserves_wbind; [apply preserves_call |].
  intros _. apply preserves_call.
Qed.
End preserves.

(** A pass of the scheduler leaves the occupancy counts alone. *)
Lemma step_keeps_counts now s s' out :
  update_traffic_signals_step now s = Ok (s', out) →
  vehicle_counts s' = vehicle_counts s.
Proof.
  destruct (emergency_holds now s) eqn:Hhold.
  - rewrite (step_holds _ _ Hhold). by intros [= <- <-].
  - rewrite (step_selects _ _ Hhold).
    destruct (release_fields s) as (Hvc & _).
    destruct (vehicle_counts s) as [|first others] eqn:Hs.
    + rewrite select_lane_Idle by done. by intros [= <- <-].
    + destruct (select_lane_Selected (release s))
        as (sel & s2 & -> & _ & Hvc2 & _).
      { by rewrite Hvc. }
      intros [= <- <-]. simpl. by rewrite Hvc2.
Qed.

(** The keys of [vehicle_counts] stay distinct over any run. *)
Lemma lanes_distinct camera_sources ops :
  NoDup (lanes_of (sys_globals (run (start camera_sources) ops))).
Proof.
  assert (∀ sys, NoDup (lanes_of (sys_globals sys)) →
                 NoDup (lanes_of (sys_globals (run sys ops)))) as Hrun.
  { induction ops as [|op ops IH]; intros sys Hsys; [done |]. simpl.
    apply IH. destruct op as [cam fr|cam|now]; simpl.
    - destruct (sys_workers sys !! cam) as [counted|]; [| done].
      pose proof (preserves_process_frame (λ s, NoDup (lanes_of s))) as Hkeep.
      specialize (Hkeep (λ _ _ H, H) (λ _ _ H, H) (λ _ _ H, H)
                        (λ _ _ _ H, H)).
      specialize (Hkeep (λ s c n H, dict_set_keys_NoDup _ c n H)).
      specialize (Hkeep cam fr
                    {| globals := sys_globals sys; counted_ids := counted |}
                    Hsys).
      by destruct (process_frame cam fr _) as [[[]|] ?].
    - destruct (sys_workers sys !! cam); [| done]. simpl.
      by apply dict_set_keys_NoDup.
    - destruct (sys_scheduler_running sys); [| done].
      destruct (update_traffic_signals_step now (sys_globals sys))
        as [[s' out]|] eqn:Hstep; [| done]. simpl.
      unfold lanes_of. by rewrite (step_keeps_counts _ _ _ _ Hstep). }
  apply Hrun. apply NoDup_nil_2.
Qed.

(** A worker whose video delivers [frames] and ends, with every frame
    processed without exception, leaves the globals of [process_camera]. *)
Lemma run_process_camera cam frames sys counted w' :
  sys_workers sys !! cam = Some counted →
  process_camera cam frames
    {| globals := sys_globals sys; counted_ids := counted |} = (Ok tt, w') →
  sys_globals (run sys ((OpFrame cam <$> frames) ++ [OpEnd cam])) = globals w'.
Proof.
  revert sys counted. unfold process_camera, wbind.
  induction frames as [|fr frames IH]; intros sys counted Hcam; simpl.
  - rewrite Hcam. by intros [= <-].
  - unfold wbind at 1. rewrite Hcam.
    destruct (process_frame cam fr _) as [[[]|] w1] eqn:Hfr; [| done].
    intros Hrest. apply (IH _ (counted_ids w1)); simpl.
    + apply lookup_insert_eq.
    + by destruct w1.
Qed.

(** ** Further runs of the fairness scan *)

(** When the lane set changed, the counters are cleared before the scan:
    lane B waited three rounds, and the busiest lane A is selected. *)
Lemma fairness_reset_example :
  priority_of (lane_priority newcomer_state) "B" = 3 ∧
  lane_set_changed (lane_cycle newcomer_state) (lanes_of newcomer_state)
  = true ∧
  ∃ s', update_traffic_signals_step 31%Q newcomer_state
        = Ok (s', Selected "A").
Proof.
  split_and!; try (vm_compute; reflexivity).
  eexists. vm_compute; reflexivity.
Qed.

(** The scan's result is tested for truth: a waiting lane named by the
    empty string is passed over, and the busiest lane A is selected. *)
Lemma fairness_empty_name_example :
  priority_of (lane_priority unnamed_lane_state) "" = 3 ∧
  low_traffic (vehicle_counts unnamed_lane_state) = false ∧
  ∃ s', update_traffic_signals_step 31%Q unnamed_lane_state
        = Ok (s', Selected "A").
Proof.
  split_and!; try (vm_compute; reflexivity).
  eexists. vm_compute; reflexivity.
Qed.

(** * Further properties of the code *)

(** ** The scheduler *)

(** The result of a selecting pass, written out. *)
Lemma select_lane_explicit s :
  vehicle_counts s ≠ [] →
  ∃ sel,
    sel ∈ lanes_of s ∧
    (if low_traffic (vehicle_counts s) then cyclic_choice s = Ok sel
     else busy_choice s = Some sel) ∧
    select_lane s = Ok (after_selection sel s, Selected sel).
Proof.
  intros Hne. unfold after_selection.
  destruct (select_lane_Selected s Hne)
    as (sel & s2 & Hsel & Hin & _ & _ & _ & _ & _ & Hchoice).
  exists sel. split; [done |].
  split; [by destruct (low_traffic (vehicle_counts s)); destruct Hchoice |].
  revert Hsel Hchoice.
  unfold select_lane, cyclic_choice, busy_choice, base_priority, lanes_of.
  destruct (vehicle_counts s) as [|first others] eqn:Hvc; [done |].
  set (s1 := refresh_lane_cycle (first :: others).*1 s).
  destruct (low_traffic (first :: others)).
  - intros _ [Hcyc _]. unfold rbind in Hcyc |- *.
    destruct (mod_ (current_index s1) (Z.of_nat (length (lane_cycle s1))))
      as [i|]; [| done].
    by rewrite Hcyc.
  - intros _ [Hbusy _]. unfold rbind, densest in Hbusy |- *.
    cbv beta iota zeta.
    destruct (forced_green (lane_priority s1) (first :: others).*1) as [cam|].
    + destruct (truthy cam); by injection Hbusy as ->.
    + by injection Hbusy as ->.
Qed.

(** A pass that does not hold an emergency and finds lanes, written out. *)
Lemma step_explicit now s :
  emergency_holds now s = false →
  vehicle_counts s ≠ [] →
  ∃ sel,
    sel ∈ lanes_of s ∧
    (if low_traffic (vehicle_counts s) then cyclic_choice s = Ok sel
     else busy_choice s = Some sel) ∧
    update_traffic_signals_step now s
    = Ok (after_selection sel (release s), Selected sel).
Proof.
  intros Hhold Hne. rewrite (step_selects _ _ Hhold).
  destruct (release_fields s) as (Hvc & _).
  destruct (release_choices s) as (Hl & _ & Hc & Hb).
  destruct (select_lane_explicit (release s)) as (sel & Hin & Hchoice & Hsel).
  { by rewrite Hvc. }
  rewrite Hvc, Hl, Hc, Hb in *. eauto.
Qed.


Lemma step_keeps_worker_data now s s' out :
  update_traffic_signals_step now s = Ok (s', out) →
  vehicle_counts s' = vehicle_counts s ∧
  vehicle_last_positions s' = vehicle_last_positions s ∧
  violated_ids s' = violated_ids s ∧
  trace s' = trace s.
Proof.
  intros Hstep. destruct (step_keeps_records _ _ _ _ Hstep) as [Htr Hvi].
  pose proof (step_keeps_counts _ _ _ _ Hstep) as Hvc.
  split_and!; try done.
  revert Hstep. destruct (emergency_holds now s) eqn:Hhold.
  - rewrite (step_holds _ _ Hhold). by intros [= <- <-].
  - rewrite (step_selects _ _ Hhold).
    destruct (release_fields s) as (Hvc' & _ & _ & _ & _ & Hpos & _).
    destruct (vehicle_counts s) as [|first others] eqn:Hs.
    + rewrite select_lane_Idle by done. by intros [= <- <-].
    + destruct (select_lane_Selected (release s))
        as (sel & s2 & -> & _ & _ & _ & Hpos2 & _).
      { by rewrite Hvc'. }
      intros [= <- <-]. simpl. by rewrite Hpos2.
Qed.

(** X1.  The scheduler writes none of the workers' data: from any state,
    any number of passes of its loop leave the occupancy counts, the stored
    positions and the violated sets as they were, and call neither the
    speed estimator, the snapshot writer, the violation record sink nor
    the vehicle counter. *)
Theorem scheduler_leaves_worker_data (clock : list Q) (s : State) :
  ∃ s', update_traffic_signals clock s = Ok s' ∧
        vehicle_counts s' = vehicle_counts s ∧
        vehicle_last_positions s' = vehicle_last_positions s ∧
        violated_ids s' = violated_ids s ∧
        trace s' = trace s.
Proof.
  revert s. induction clock as [|t clock IH]; intros s; simpl; [eauto 10 |].
  destruct (step_total t s) as (s1 & out & Hstep). rewrite Hstep. simpl.
  destruct (step_keeps_worker_data _ _ _ _ Hstep) as (Hvc & Hpos & Hvi & Htr).
  destruct (IH s1) as (s' & -> & Hvc' & Hpos' & Hvi' & Htr').
  exists s'. split_and!; congruence.
Qed.

Lemma max_by_first {A} (key : A → Z) best rest :
  ∃ before after,
    best :: rest = before ++ max_by key best rest :: after ∧
    (∀ y, y ∈ before → key y < key (max_by key best rest)) ∧
    (∀ y, y ∈ after → key y ≤ key (max_by key best rest)).
Proof.
  revert best. induction rest as [|x rest IH]; intros best; simpl.
  - exists [], []. split_and!; [done | |]; by intros y ?%elem_of_nil.
  - destruct (Z.ltb_spec (key best) (key x)) as [Hlt|Hge].
    + destruct (IH x) as (before & after & Heq & Hbefore & Hafter).
      exists (best :: before), after. split_and!; [by rewrite Heq | | done].
      assert (key x ≤ key (max_by key x rest)) as Hx.
      { assert (x ∈ before ++ max_by key x rest :: after) as Hin
          by (rewrite <- Heq; apply list_elem_of_here).
        apply elem_of_app in Hin as [Hin|Hin]; [specialize (Hbefore _ Hin); lia |].
        apply elem_of_cons in Hin as [Hmax|Hin];
          [rewrite <- Hmax; lia | by apply Hafter]. }
      intros y [->|Hy]%elem_of_cons; [lia | by apply Hbefore].
    + destruct (IH best) as (before & after & Heq & Hbefore & Hafter).
      destruct before as [|b before]; simpl in Heq.
      * injection Heq as Hbest Hrest. exists [], (x :: rest).
        split_and!; [by rewrite <- Hbest | by intros y ?%elem_of_nil |].
        intros y [->|Hy]%elem_of_cons; [rewrite <- Hbest; lia |].
        apply Hafter. by rewrite <- Hrest.
      * injection Heq as Hb Hrest. subst b.
        exists (best :: x :: before), after.
        split_and!; [simpl; by do 2 f_equal | | done].
        assert (key best < key (max_by key best rest)) as Hbest
          by (apply Hbefore, list_elem_of_here).
        intros y [->|[->|Hy]%elem_of_cons]%elem_of_cons; [done | lia |].
        apply Hbefore. by apply list_elem_of_further.
Qed.


Lemma forced_green_None prio lanes :
  (∀ lane, lane ∈ lanes → priority_of prio lane < WAIT_LIMIT) →
  forced_green prio lanes = None.
Proof.
  induction lanes as [|x l IH]; intros Hlow; simpl; [done |].
  destruct (Z.leb_spec WAIT_LIMIT (priority_of prio x)) as [Hle|_].
  - specialize (Hlow x (list_elem_of_here _ _)). lia.
  - apply IH. intros lane Hin. by apply Hlow, list_elem_of_further.
Qed.

Lemma base_priority_below s :
  (∀ lane, lane ∈ lanes_of s → priority_of (lane_priority s) lane < WAIT_LIMIT) →
  ∀ lane, lane ∈ lanes_of s → priority_of (base_priority s) lane < WAIT_LIMIT.
Proof.
  intros Hlow lane Hin.
  destruct (lane_set_changed (lane_cycle s) (lanes_of s)) eqn:Hch.
  - by rewrite (base_priority_changed _ Hch).
  - rewrite (base_priority_unchanged _ Hch). by apply Hlow.
Qed.

(** X2.  On a pass that does not hold an emergency, with some occupancy at
    least LOW_TRAFFIC_THRESHOLD and every lane's counter below WAIT_LIMIT,
    the lane of maximal occupancy is selected green, and among lanes of
    equal occupancy the first in the iteration order of [vehicle_counts]:
    every lane before it has a strictly smaller count, every lane after it
    a count that is not larger. *)
Theorem density_selects_first_busiest (now : Q) (s : State) :
  emergency_holds now s = false →
  low_traffic (vehicle_counts s) = false →
  (∀ lane, lane ∈ lanes_of s →
           priority_of (lane_priority s) lane < WAIT_LIMIT) →
  ∃ s' sel count before after,
    update_traffic_signals_step now s = Ok (s', Selected sel) ∧
    vehicle_counts s = before ++ (sel, count) :: after ∧
    (∀ lane c, (lane, c) ∈ before → c < count) ∧
    (∀ lane c, (lane, c) ∈ after → c ≤ count) ∧
    traffic_lights s' !! Some sel = Some GREEN.
Proof.
  intros Hhold Hbusy Hlow.
  assert (vehicle_counts s ≠ []) as Hne by (by intros Hvc; rewrite Hvc in Hbusy).
  destruct (step_explicit now s Hhold Hne) as (sel & Hin & Hchoice & Hstep).
  rewrite Hbusy in Hchoice. unfold busy_choice in Hchoice.
  rewrite (forced_green_None _ _ (base_priority_below s Hlow)) in Hchoice.
  unfold densest in Hchoice.
  destruct (vehicle_counts s) as [|first others] eqn:Hvc; [done |].
  injection Hchoice as Hsel.
  destruct (max_by_first snd first others)
    as (before & after & Heq & Hbefore & Hafter).
  destruct (max_by snd first others) as [lane count] eqn:Hmax.
  simpl in *. subst lane.
  exists (after_selection sel (release s)), sel, count, before, after.
  split_and!; [done | done | | |].
  - intros lane c Hc. apply (Hbefore (lane, c) Hc).
  - intros lane c Hc. apply (Hafter (lane, c) Hc).
  - unfold after_selection. simpl.
    destruct (release_choices s) as (-> & _). by apply set_lights_selected.
Qed.

Lemma density_selects_first_busiest_witness :
  ∃ s' sel count before after,
    update_traffic_signals_step 1%Q tied_busy_lanes_state
    = Ok (s', Selected sel) ∧
    vehicle_counts tied_busy_lanes_state = before ++ (sel, count) :: after ∧
    (∀ lane c, (lane, c) ∈ before → c < count) ∧
    (∀ lane c, (lane, c) ∈ after → c ≤ count) ∧
    traffic_lights s' !! Some sel = Some GREEN.
Proof.
  apply (density_selects_first_busiest 1%Q tied_busy_lanes_state).
  - vm_compute; reflexivity.
  - vm_compute; reflexivity.
  - intros lane _. vm_compute; reflexivity.
Defined.

(** One round-robin pass on an unchanged lane set. *)
Lemma round_robin_pass t s :
  active (emergency_override s) = false →
  vehicle_counts s ≠ [] →
  low_traffic (vehicle_counts s) = true →
  lane_set_changed (lane_cycle s) (lanes_of s) = false →
  ∃ sel,
    getitem (lane_cycle s)
      (current_index s mod Z.of_nat (length (lane_cycle s))) = Ok sel ∧
    sel ∈ lanes_of s ∧
    update_traffic_signals_step t s
    = Ok (with_traffic_lights
            (set_lights sel (lanes_of s) (traffic_lights s))
            (with_lane_priority (<[sel := 0]> (lane_priority s))
               (with_current_index (current_index s + 1) s)),
          Selected sel).
Proof.
  intros Hactive Hne Hlow Hsame.
  assert (emergency_holds t s = false) as Hhold
    by (unfold emergency_holds; by rewrite Hactive).
  destruct (step_explicit t s Hhold Hne) as (sel & Hin & Hchoice & Hstep).
  assert (release s = s) as Hrel by (unfold release; by rewrite Hactive).
  rewrite Hrel in Hstep. unfold after_selection in Hstep.
  rewrite Hlow in Hchoice, Hstep. unfold cyclic_choice in Hchoice.
  assert (refresh_lane_cycle (lanes_of s) s = s) as Hrefresh
    by (unfold refresh_lane_cycle; by rewrite Hsame).
  rewrite Hrefresh in Hchoice, Hstep.
  exists sel. split_and!; [| done | done].
  unfold mod_ in Hchoice.
  destruct (Z.of_nat (length (lane_cycle s)) =? 0); [done | done].
Qed.

(** X3.  While no emergency is active, every occupancy stays below
    LOW_TRAFFIC_THRESHOLD and the lane set is unchanged, the passes of the
    scheduler go round the lane cycle: after [n] passes the index has
    advanced by [n], the cycle is as it was, and the lane selected last is
    the entry of the cycle at the index before the last pass, modulo the
    length of the cycle; that lane is GREEN and every other configured lane
    RED. *)
Theorem round_robin_cycles (clock : list Q) (s : State) :
  active (emergency_override s) = false →
  vehicle_counts s ≠ [] →
  low_traffic (vehicle_counts s) = true →
  lane_set_changed (lane_cycle s) (lanes_of s) = false →
  ∃ s',
    update_traffic_signals clock s = Ok s' ∧
    lane_cycle s' = lane_cycle s ∧
    current_index s' = current_index s + Z.of_nat (length clock) ∧
    (clock ≠ [] →
     ∃ sel,
       getitem (lane_cycle s)
         ((current_index s + Z.of_nat (length clock) - 1)
          mod Z.of_nat (length (lane_cycle s))) = Ok sel ∧
       traffic_lights s' !! Some sel = Some GREEN ∧
       ∀ lane, lane ∈ lanes_of s → lane ≠ sel →
               traffic_lights s' !! Some lane = Some RED).
Proof.
  revert s. induction clock as [|t clock IH]; intros s Hactive Hne Hlow Hsame.
  - exists s. split_and!; [done | done | simpl; lia | done].
  - destruct (round_robin_pass t s Hactive Hne Hlow Hsame)
      as (sel & Hget & Hin & Hstep).
    cbn [update_traffic_signals]. rewrite Hstep. unfold rbind at 1.
    cbv beta iota.
    set (s1 := with_traffic_lights _ _) in *.
    destruct (IH s1) as (s' & Hrun & Hcycle & Hindex & Hlast); try done.
    exists s'. split_and!; [done | done | |].
    + rewrite Hindex, length_cons, Nat2Z.inj_succ. simpl. lia.
    + intros _. destruct clock as [|t' clock].
      * cbn [update_traffic_signals] in Hrun. injection Hrun as <-.
        exists sel.
        replace (current_index s + Z.of_nat (length [t]) - 1)
          with (current_index s) by (simpl; lia).
        split_and!; [done | by apply set_lights_selected |].
        intros lane Hlane Hother. by apply set_lights_other.
      * destruct Hlast as (sel' & Hget' & Hgreen & Hred); [done |].
        exists sel'. split_and!; [| done | done].
        replace (current_index s + Z.of_nat (length (t :: t' :: clock)) - 1)
          with (current_index s1 + Z.of_nat (length (t' :: clock)) - 1);
          [done |].
        rewrite (length_cons t), Nat2Z.inj_succ. simpl. lia.
Qed.

Lemma round_robin_cycles_witness :
  ∃ s',
    update_traffic_signals [2%Q; 3%Q; 4%Q] two_quiet_lanes_state = Ok s' ∧
    lane_cycle s' = lane_cycle two_quiet_lanes_state ∧
    current_index s' = current_index two_quiet_lanes_state + 3 ∧
    ∃ sel,
      getitem (lane_cycle two_quiet_lanes_state)
        ((current_index two_quiet_lanes_state + 3 - 1) mod 2) = Ok sel ∧
      traffic_lights s' !! Some sel = Some GREEN ∧
      ∀ lane, lane ∈ lanes_of two_quiet_lanes_state → lane ≠ sel →
              traffic_lights s' !! Some lane = Some RED.
Proof.
  destruct (round_robin_cycles [2%Q; 3%Q; 4%Q] two_quiet_lanes_state)
    as (s' & Hrun & Hcycle & Hindex & Hlast).
  - vm_compute; reflexivity.
  - vm_compute; discriminate.
  - vm_compute; reflexivity.
  - vm_compute; reflexivity.
  - exists s'. split; [exact Hrun |]. split; [exact Hcycle |].
    split; [exact Hindex |]. apply Hlast. discriminate.
Defined.

(** X4.  On a pass that does not hold an emergency and finds that the
    lane set changed (or no cycle yet), the lane cycle becomes the list of
    configured lanes in the order of [vehicle_counts]; under low traffic
    the first configured lane is selected and the index left at 1,
    otherwise the index is left at 0. *)
Theorem lane_set_change_rebuilds_cycle (now : Q) (s : State)
  (first : string) (count : Z) (others : list (string * Z)) :
  emergency_holds now s = false →
  vehicle_counts s = (first, count) :: others →
  lane_set_changed (lane_cycle s) (lanes_of s) = true →
  ∃ s' sel,
    update_traffic_signals_step now s = Ok (s', Selected sel) ∧
    lane_cycle s' = lanes_of s ∧
    current_index s' = (if low_traffic (vehicle_counts s) then 1 else 0) ∧
    (low_traffic (vehicle_counts s) = true → sel = first).
Proof.
  intros Hhold Hvc Hchanged.
  assert (vehicle_counts s ≠ []) as Hne by (by rewrite Hvc).
  destruct (step_explicit now s Hhold Hne) as (sel & Hin & Hchoice & Hstep).
  destruct (release_fields s) as (Hvc' & _ & _ & Hcyc & _).
  destruct (release_choices s) as (Hl & _).
  assert (refresh_lane_cycle (lanes_of s) (release s)
          = with_lane_priority ∅
              (with_current_index 0 (with_lane_cycle (lanes_of s) (release s))))
    as Hrefresh by (unfold refresh_lane_cycle; by rewrite Hcyc, Hchanged).
  exists (after_selection sel (release s)), sel.
  split; [done |]. unfold after_selection. rewrite Hl, Hvc', Hrefresh.
  destruct (low_traffic (vehicle_counts s)) eqn:Hlow; simpl;
    split_and!; try done.
  intros _. unfold cyclic_choice, refresh_lane_cycle in Hchoice.
  rewrite Hchanged in Hchoice. simpl in Hchoice.
  unfold lanes_of in Hchoice. rewrite Hvc in Hchoice. simpl in Hchoice.
  by injection Hchoice.
Qed.

Lemma lane_set_change_rebuilds_cycle_witness :
  ∃ s' sel,
    update_traffic_signals_step 31%Q newcomer_state = Ok (s', Selected sel) ∧
    lane_cycle s' = lanes_of newcomer_state ∧
    current_index s' = 0.
Proof.
  destruct (lane_set_change_rebuilds_cycle 31%Q newcomer_state
              "A" 5 [("B", 1); ("C", 0)])
    as (s' & sel & Hstep & Hcycle & Hindex & _).
  - vm_compute; reflexivity.
  - vm_compute; reflexivity.
  - vm_compute; reflexivity.
  - exists s', sel. split; [exact Hstep |]. split; [exact Hcycle |].
    exact Hindex.
Defined.


(** X5.  After every pass that selects a lane, the lane cycle is not empty
    and names exactly the configured lanes, so that a following pass over
    the same lanes neither rebuilds the cycle nor clears the counters. *)
Theorem lane_cycle_tracks_lanes (now : Q) (s : State) :
  emergency_holds now s = false →
  vehicle_counts s ≠ [] →
  ∃ s' sel,
    update_traffic_signals_step now s = Ok (s', Selected sel) ∧
    lane_cycle s' ≠ [] ∧
    (∀ lane, lane ∈ lane_cycle s' ↔ lane ∈ lanes_of s') ∧
    lane_set_changed (lane_cycle s') (lanes_of s') = false.
Proof.
  intros Hhold Hne.
  destruct (step_explicit now s Hhold Hne) as (sel & Hin & _ & Hstep).
  destruct (release_fields s) as (Hvc & _).
  destruct (release_choices s) as (Hl & _).
  assert (lanes_of s ≠ []) as Hlanes.
  { unfold lanes_of. by destruct (vehicle_counts s). }
  destruct (refresh_lane_cycle_ok (lanes_of s) (release s) Hlanes)
    as [Hcyc Hmem].
  destruct (refresh_lane_cycle_fields (lanes_of s) (release s))
    as (Hvc1 & _).
  set (s' := after_selection sel (release s)) in *.
  assert (lane_cycle s' = lane_cycle (refresh_lane_cycle (lanes_of s) (release s)))
    as Hcycle.
  { unfold s', after_selection. rewrite Hl, Hvc.
    by destruct (low_traffic (vehicle_counts s)). }
  assert (lanes_of s' = lanes_of s) as Hlanes'.
  { assert (vehicle_counts s' = vehicle_counts s) as Hvc'.
    { unfold s', after_selection. rewrite Hl.
      destruct (low_traffic (vehicle_counts (release s))); simpl;
        by rewrite Hvc1, Hvc. }
    unfold lanes_of. by rewrite Hvc'. }
  exists s', sel. rewrite Hcycle, Hlanes'. split_and!; [done | done | done |].
  unfold lane_set_changed.
  destruct (lane_cycle (refresh_lane_cycle (lanes_of s) (release s)))
    as [|c cyc] eqn:Hc; [done |].
  apply negb_false_iff, bool_decide_eq_true.
  apply set_eq. intros lane. rewrite !elem_of_list_to_set. apply Hmem.
Qed.

Lemma lane_cycle_tracks_lanes_witness :
  ∃ s' sel,
    update_traffic_signals_step 31%Q newcomer_state = Ok (s', Selected sel) ∧
    lane_cycle s' ≠ [] ∧
    (∀ lane, lane ∈ lane_cycle s' ↔ lane ∈ lanes_of s') ∧
    lane_set_changed (lane_cycle s') (lanes_of s') = false.
Proof.
  apply (lane_cycle_tracks_lanes 31%Q newcomer_state).
  - vm_compute; reflexivity.
  - vm_compute; discriminate.
Defined.

(** One pass with no active override leaves the override as it was. *)
Lemma step_inactive_override t s :
  active (emergency_override s) = false →
  ∃ s' out, update_traffic_signals_step t s = Ok (s', out) ∧
            emergency_override s' = emergency_override s.
Proof.
  intros Hactive.
  assert (emergency_holds t s = false) as Hhold
    by (unfold emergency_holds; by rewrite Hactive).
  assert (release s = s) as Hrel by (unfold release; by rewrite Hactive).
  rewrite (step_selects _ _ Hhold), Hrel.
  destruct (vehicle_counts s) as [|first others] eqn:Hvc.
  - rewrite select_lane_Idle by done. eauto.
  - destruct (select_lane_Selected s) as (sel & s2 & -> & _ & _ & Heo & _);
      [by rewrite Hvc |].
    eexists _, _. split; [done |]. done.
Qed.

(** X6.  The scheduler never activates an override: from a state with no
    active override, any number of passes leaves the override record as it
    was. *)
Theorem scheduler_never_activates (clock : list Q) (s : State) :
  active (emergency_override s) = false →
  ∃ s', update_traffic_signals clock s = Ok s' ∧
        emergency_override s' = emergency_override s.
Proof.
  revert s. induction clock as [|t clock IH]; intros s Hactive; [by exists s |].
  destruct (step_inactive_override t s Hactive) as (s1 & out & Hstep & Heo).
  cbn [update_traffic_signals]. rewrite Hstep. unfold rbind at 1.
  cbv beta iota.
  destruct (IH s1) as (s' & -> & Heo'); [by rewrite Heo |].
  exists s'. split; [done |]. by rewrite Heo'.
Qed.

Lemma scheduler_never_activates_witness :
  ∃ s', update_traffic_signals [31%Q; 41%Q] b_waited_state = Ok s' ∧
        emergency_override s' = emergency_override b_waited_state.
Proof.
  apply (scheduler_never_activates [31%Q; 41%Q] b_waited_state).
  vm_compute; reflexivity.
Defined.

Lemma all_red_but_idem key tl :
  all_red_but key (all_red_but key tl) = all_red_but key tl.
Proof.
  apply map_eq. intros k. unfold all_red_but.
  destruct (decide (key = k)) as [->|Hne].
  - by rewrite !lookup_insert_eq.
  - rewrite !lookup_insert_ne, !lookup_fmap, lookup_insert_ne by done.
    rewrite lookup_fmap. by destruct (tl !! k).
Qed.

(** X7.  While the override is active and every clock reading is less than
    the hold time after its activation, any number of passes (at least
    one) leaves the state of a single hold pass: the override lane GREEN,
    every other lane of the table RED, everything else as it was. *)
Theorem hold_passes_repeat (clock : list Q) (s : State) :
  active (emergency_override s) = true →
  clock ≠ [] →
  (∀ t, t ∈ clock →
        (t - timestamp (emergency_override s)
         < inject_Z EMERGENCY_HOLD_TIME)%Q) →
  update_traffic_signals clock s
  = Ok (with_traffic_lights
          (all_red_but (cam_id (emergency_override s)) (traffic_lights s)) s).
Proof.
  intros Hactive Hne Hearly.
  assert (∀ s0, active (emergency_override s0) = true →
                timestamp (emergency_override s0)
                = timestamp (emergency_override s) →
                ∀ t, t ∈ clock → emergency_holds t s0 = true) as Hholds.
  { intros s0 Ha Hts t Ht. unfold emergency_holds. rewrite Ha, Hts. simpl.
    by apply Qltb_lt, Hearly. }
  clear Hearly. revert s Hactive Hholds.
  induction clock as [|t clock IH]; intros s Hactive Hholds; [done |].
  cbn [update_traffic_signals].
  rewrite (step_holds t s) by (apply Hholds; [done | done | apply list_elem_of_here]).
  unfold rbind at 1. cbv beta iota.
  destruct clock as [|t' clock]; [done |].
  rewrite IH; [| done | done |].
  - simpl. by rewrite all_red_but_idem.
  - intros s0 Ha Hts t0 Ht0. apply Hholds; [done | done |].
    by apply list_elem_of_further.
Qed.

Lemma hold_passes_repeat_witness :
  update_traffic_signals [5%Q; 10%Q; 19%Q] override_a_state
  = Ok (with_traffic_lights
          (all_red_but (cam_id (emergency_override override_a_state))
             (traffic_lights override_a_state)) override_a_state).
Proof.
  apply (hold_passes_repeat [5%Q; 10%Q; 19%Q] override_a_state).
  - vm_compute; reflexivity.
  - discriminate.
  - intros t Hin.
    apply elem_of_cons in Hin as [->|Hin]; [vm_compute; reflexivity |].
    apply elem_of_cons in Hin as [->|Hin]; [vm_compute; reflexivity |].
    apply list_elem_of_singleton in Hin as ->. vm_compute; reflexivity.
Defined.

(** X8.  A later call to [override_signal] replaces an earlier one: the
    override names the later lane and time, the later lane is GREEN, and
    every other lane of the table, the earlier lane included, is RED. *)
Theorem override_last_writer_wins (t1 t2 : Q) (cam1 cam2 : string)
  (s : State) :
  let s' := override_signal t2 cam2 (override_signal t1 cam1 s) in
  emergency_override s'
  = {| active := true; cam_id := Some cam2; timestamp := t2 |} ∧
  traffic_lights s' !! Some cam2 = Some GREEN ∧
  (cam1 ≠ cam2 → traffic_lights s' !! Some cam1 = Some RED) ∧
  (∀ k, k ≠ Some cam2 → is_Some (traffic_lights s' !! k) →
        traffic_lights s' !! k = Some RED).
Proof.
  simpl. split_and!; [done | apply all_red_but_green | |].
  - intros Hne. apply all_red_but_red; [congruence |].
    unfold all_red_but. rewrite lookup_insert_ne by congruence.
    rewrite lookup_fmap, lookup_insert_eq. simpl. eauto.
  - intros k Hne. by apply all_red_but_red.
Qed.

Lemma override_last_writer_wins_witness :
  traffic_lights
    (override_signal 5%Q "B" (override_signal 0%Q "A" initial_state))
  !! Some "A" = Some RED.
Proof.
  destruct (override_last_writer_wins 0%Q 5%Q "A" "B" initial_state)
    as (_ & _ & Hred & _).
  apply Hred. discriminate.
Defined.


(** ** The worker *)

Lemma process_frame_tail cam fr :
  process_frame cam fr =
  wbind (call (fr_detect_emergency fr))
    (λ emergency,
       wbind (if emergency : bool
              then modify_globals (override_signal (fr_now fr) cam)
              else wret tt)
         (λ _, frame_tail cam fr)).
Proof. reflexivity. Qed.

Lemma track_tracked_of fr n w :
  fr_detections fr = Ok n → track fr n w = (Ok (tracked_of fr), w).
Proof.
  intros Hdet. unfold track, tracked_of. rewrite Hdet.
  destruct n; [done |].
  unfold try_except, wbind, call, wret.
  destruct (fr_tracker_update fr) as [rows|]; [| done].
  by destruct (rows_to_objects rows).
Qed.

(** Properties of the globals that the writes of the worker of lane [cam]
    keep are kept by its frames, whether they return or raise. *)
Section lane_frame.
Context (cam : string) (P : State → Prop).
Context (Ptrace : ∀ s ev, P s → P (with_trace (ev :: trace s) s)).
Context (Pposition :
  ∀ s vehicle_id y, P s →
    P (with_vehicle_last_positions
         (<[cam := <[vehicle_id := y]>
                     (positions_of (vehicle_last_positions s) cam)]>
            (vehicle_last_positions s)) s)).
Context (Pflag :
  ∀ s vehicle_id, P s →
    P (with_violated_ids
         (<[cam := {[vehicle_id]} ∪ flagged_of (violated_ids s) cam]>
            (violated_ids s)) s)).
Context (Pcount :
  ∀ s n, P s → P (with_vehicle_counts (dict_set (vehicle_counts s) cam n) s)).

Lemma lane_external {A} ev (answer : result A) :
  preserves P (external ev answer).
Proof.
  intros w Hw. unfold external, wbind, modify_globals, call. simpl.
  by apply Ptrace.
Qed.

Lemma lane_wbind {A B} (m : W A) (k : A → W B) :
  preserves P m → (∀ a, preserves P (k a)) → preserves P (wbind m k).
Proof.
  intros Hm Hk w Hw. unfold wbind. specialize (Hm w Hw).
  destruct (m w) as [[a|] w']; [by apply Hk | done].
Qed.

Lemma lane_process_object fr crossing_y obj :
  preserves P (process_object cam fr crossing_y obj).
Proof.
  unfold process_object. destruct (obj_bbox obj) as [[[x1 y1] x2] y2].
  apply lane_wbind; [by intros w Hw |]. intros s.
  apply lane_wbind; [intros w Hw; by apply Pposition |].
  intros _. apply lane_wbind.
  - unfold check_violation. destruct (_ && _); [| by intros w Hw].
    apply lane_wbind; [by intros w Hw |]. intros s'.
    destruct (_ && _); [| by intros w Hw].
    apply lane_wbind; [apply lane_external |]. intros speed.
    apply lane_wbind; [apply lane_external |]. intros _.
    apply lane_wbind; [apply lane_external |]. intros _.
    intros w Hw. by apply Pflag.
  - intros _. unfold count_vehicle.
    apply lane_wbind; [by intros w Hw |]. intros counted.
    destruct (bool_decide _); [by intros w Hw |].
    apply lane_wbind; [apply lane_external |]. intros _.
    by intros w Hw.
Qed.

Lemma lane_for_each fr crossing_y objs :
  preserves P (for_each objs (process_object cam fr crossing_y)).
Proof.
  induction objs as [|obj objs IH]; simpl; [by intros w Hw |].
  apply lane_wbind; [apply lane_process_object | done].
Qed.

Lemma lane_frame_tail fr : preserves P (frame_tail cam fr).
Proof.
  unfold frame_tail.
  apply lane_wbind; [by intros w Hw |]. intros n.
  apply lane_wbind.
  { intros w Hw. unfold track. destruct n; [done |].
    unfold try_except, wbind, call, wret.
    destruct (fr_tracker_update fr) as [rows|]; [| done].
    by destruct (rows_to_objects rows). }
  intros objs. apply lane_wbind; [apply lane_for_each |].
  intros _. apply lane_wbind; [intros w Hw; by apply Pcount |].
  intros _. apply lane_wbind; by intros w Hw.
Qed.

Lemma lane_process_frame fr :
  (∀ s, P s → P (override_signal (fr_now fr) cam s)) →
  preserves P (process_frame cam fr).
Proof.
  intros Pover. rewrite process_frame_tail.
  apply lane_wbind; [by intros w Hw |]. intros emergency.
  apply lane_wbind; [| intros _; apply lane_frame_tail].
  destruct emergency; [| by intros w Hw].
  intros w Hw. by apply Pover.
Qed.
End lane_frame.

Lemma dict_get_set_ne {V} (d : list (string * V)) k k' v :
  k ≠ k' → dict_get (dict_set d k v) k' = dict_get d k'.
Proof.
  intros Hne. induction d as [|[k0 v0] d IH]; simpl.
  - destruct (String.eqb_spec k k'); [done | done].
  - destruct (String.eqb_spec k0 k) as [->|Hk]; simpl.
    + destruct (String.eqb_spec k k'); [done | done].
    + by rewrite IH.
Qed.

Lemma positions_of_insert_ne m cam other X :
  cam ≠ other → positions_of (<[cam := X]> m) other = positions_of m other.
Proof. intros Hne. unfold positions_of. by rewrite lookup_insert_ne. Qed.

(** X9.  A frame of the worker of one lane, whether it returns or raises,
    leaves the stored positions, the violated set and the occupancy count
    of every other lane as they were. *)
Theorem frame_leaves_other_lanes (cam other : string) (fr : Frame)
  (w : WorkerState) :
  cam ≠ other →
  let s := globals w in
  let s' := globals (process_frame cam fr w).2 in
  positions_of (vehicle_last_positions s') other
  = positions_of (vehicle_last_positions s) other ∧
  flagged_of (violated_ids s') other = flagged_of (violated_ids s) other ∧
  dict_get (vehicle_counts s') other = dict_get (vehicle_counts s) other.
Proof.
  intros Hne s s'.
  apply (lane_process_frame cam
           (λ s0, positions_of (vehicle_last_positions s0) other
                  = positions_of (vehicle_last_positions s) other ∧
                  flagged_of (violated_ids s0) other
                  = flagged_of (violated_ids s) other ∧
                  dict_get (vehicle_counts s0) other
                  = dict_get (vehicle_counts s) other)); try done.
  - intros s0 vehicle_id y (Hp & Hf & Hc). split_and!; [| done | done].
    simpl. by rewrite positions_of_insert_ne.
  - intros s0 vehicle_id (Hp & Hf & Hc). split_and!; [done | | done].
    simpl. by rewrite flagged_of_insert, decide_False.
  - intros s0 n (Hp & Hf & Hc). split_and!; [done | done |].
    simpl. by rewrite dict_get_set_ne.
Qed.

Lemma frame_leaves_other_lanes_witness :
  let s := two_quiet_lanes_state in
  let s' :=
    globals
      (process_frame "A" (quiet_frame (standing 1))
         {| globals := two_quiet_lanes_state; counted_ids := ∅ |}).2 in
  positions_of (vehicle_last_positions s') "B"
  = positions_of (vehicle_last_positions s) "B" ∧
  flagged_of (violated_ids s') "B" = flagged_of (violated_ids s) "B" ∧
  dict_get (vehicle_counts s') "B" = dict_get (vehicle_counts s) "B".
Proof.
  apply (frame_leaves_other_lanes "A" "B" (quiet_frame (standing 1))
           {| globals := two_quiet_lanes_state; counted_ids := ∅ |}).
  discriminate.
Defined.


Lemma frame_keeps_flag cam fr w lane vehicle_id :
  vehicle_id ∈ flagged_of (violated_ids (globals w)) lane →
  vehicle_id
    ∈ flagged_of (violated_ids (globals (process_frame cam fr w).2)) lane.
Proof.
  apply (lane_process_frame cam
           (λ s, vehicle_id ∈ flagged_of (violated_ids s) lane)); try done.
  intros s v Hin. simpl. rewrite flagged_of_insert.
  destruct (decide (cam = lane)) as [->|_]; [| done].
  apply elem_of_union. by right.
Qed.

(** X10.  A vehicle flagged in a lane stays flagged in that lane for the
    rest of the process: no frame of any worker, no end of a video and no
    pass of the scheduler removes an identifier from a violated set. *)
Theorem flags_only_grow (sys : System) (ops : list Op) (lane : string)
  (vehicle_id : Z) :
  vehicle_id ∈ flagged_of (violated_ids (sys_globals sys)) lane →
  vehicle_id ∈ flagged_of (violated_ids (sys_globals (run sys ops))) lane.
Proof.
  revert sys. induction ops as [|op ops IH]; intros sys Hin; [done |].
  simpl. apply IH. destruct op as [cam fr|cam|t]; simpl.
  - destruct (sys_workers sys !! cam) as [counted|]; [| done].
    pose proof (frame_keeps_flag cam fr
                  {| globals := sys_globals sys; counted_ids := counted |}
                  lane vehicle_id Hin) as Hkeep.
    by destruct (process_frame cam fr _) as [[[]|] w'].
  - by destruct (sys_workers sys !! cam).
  - destruct (sys_scheduler_running sys); [| done].
    destruct (update_traffic_signals_step t (sys_globals sys))
      as [[s' out]|] eqn:Hstep; [| done]. simpl.
    destruct (step_keeps_records _ _ _ _ Hstep) as [_ Hvi]. by rewrite Hvi.
Qed.

Lemma flags_only_grow_witness :
  1 ∈ flagged_of
        (violated_ids
           (sys_globals
              (run flagged_system
                 [OpTick 1%Q; OpFrame "A" (quiet_frame []); OpEnd "A";
                  OpFrame "B" (quiet_frame (standing 1))]))) "A".
Proof.
  apply (flags_only_grow flagged_system).
  apply (bool_decide_unpack _). vm_compute. exact I.
Defined.

(** X11.  A frame of a worker, whether it returns or raises, never writes
    the data of the scheduler: the lane cycle, the round-robin index and
    the priority counters are as they were. *)
Theorem frame_leaves_scheduler_data (cam : string) (fr : Frame)
  (w : WorkerState) :
  lane_cycle (globals (process_frame cam fr w).2) = lane_cycle (globals w) ∧
  current_index (globals (process_frame cam fr w).2)
  = current_index (globals w) ∧
  lane_priority (globals (process_frame cam fr w).2)
  = lane_priority (globals w).
Proof.
  by apply (lane_process_frame cam
              (λ s, lane_cycle s = lane_cycle (globals w) ∧
                    current_index s = current_index (globals w) ∧
                    lane_priority s = lane_priority (globals w))).
Qed.

(** X12.  A worker never clears the override: an override that is active
    before a frame is active after it.  When the emergency detector
    answers true, the override is active for the worker's lane from the
    clock reading of the frame, and the table shows that lane GREEN and
    every other lane RED at the end of the frame, also when the frame
    raises afterwards. *)
Theorem frame_sets_never_clears_override (cam : string) (fr : Frame)
  (w : WorkerState) :
  (active (emergency_override (globals w)) = true →
   active (emergency_override (globals (process_frame cam fr w).2)) = true) ∧
  (fr_detect_emergency fr = Ok true →
   emergency_override (globals (process_frame cam fr w).2)
   = {| active := true; cam_id := Some cam; timestamp := fr_now fr |} ∧
   traffic_lights (globals (process_frame cam fr w).2)
   = all_red_but (Some cam) (traffic_lights (globals w)) ∧
   one_green (traffic_lights (globals (process_frame cam fr w).2))).
Proof.
  split.
  - by apply (lane_process_frame cam
                (λ s, active (emergency_override s) = true)).
  - intros Hem.
    set (w1 := {| globals := override_signal (fr_now fr) cam (globals w);
                  counted_ids := counted_ids w |}).
    assert (process_frame cam fr w = frame_tail cam fr w1) as ->.
    { rewrite process_frame_tail. unfold wbind at 1 2, call. by rewrite Hem. }
    assert (emergency_override (globals (frame_tail cam fr w1).2)
            = emergency_override (globals w1) ∧
            traffic_lights (globals (frame_tail cam fr w1).2)
            = traffic_lights (globals w1)) as [-> ->].
    { by apply (lane_frame_tail cam
                  (λ s, emergency_override s = emergency_override (globals w1) ∧
                        traffic_lights s = traffic_lights (globals w1))). }
    split_and!; [done | done | apply all_red_but_one_green].
Qed.

Lemma frame_sets_never_clears_override_witness :
  active
    (emergency_override
       (globals (process_frame "B" siren_frame override_a_worker).2)) = true ∧
  emergency_override
    (globals (process_frame "B" siren_frame override_a_worker).2)
  = {| active := true; cam_id := Some "B"; timestamp := fr_now siren_frame |} ∧
  traffic_lights (globals (process_frame "B" siren_frame override_a_worker).2)
  = all_red_but (Some "B") (traffic_lights (globals override_a_worker)) ∧
  one_green
    (traffic_lights
       (globals (process_frame "B" siren_frame override_a_worker).2)).
Proof.
  destruct (frame_sets_never_clears_override "B" siren_frame
              override_a_worker) as [Hkeeps Hsets].
  split.
  - apply Hkeeps. vm_compute; reflexivity.
  - apply Hsets. reflexivity.
Defined.




Lemma frame_tail_publishes_count cam fr w w' :
  frame_tail cam fr w = (Ok tt, w') →
  dict_get (vehicle_counts (globals w')) cam
  = Some (Z.of_nat (length (tracked_of fr))).
Proof.
  unfold frame_tail. unfold wbind at 1, call at 1.
  destruct (fr_detections fr) as [n|] eqn:Hdet; [| done].
  unfold wbind at 1. rewrite (track_tracked_of fr n w Hdet).
  unfold wbind at 1.
  destruct (for_each _ _ w) as [[[]|] w2]; [| done].
  unfold wbind, modify_globals, call.
  destruct (fr_estimator_update fr) as [[]|]; [| done].
  destruct (fr_detect_lanes fr) as [[]|]; [| done].
  intros [= <-]. simpl. apply dict_get_set.
Qed.

(** X14.  A frame that is processed without exception publishes the number
    of its tracked objects as the occupancy count of its lane, replacing
    the count published before: 0 when the model detects nothing or the
    tracker raises, the number of tracker rows unpacked otherwise. *)
Theorem frame_publishes_count (cam : string) (fr : Frame)
  (w w' : WorkerState) :
  process_frame cam fr w = (Ok tt, w') →
  dict_get (vehicle_counts (globals w')) cam
  = Some (Z.of_nat (length (tracked_of fr))).
Proof.
  rewrite process_frame_tail. unfold wbind at 1 2, call at 1.
  destruct (fr_detect_emergency fr) as [[]|]; [| | done];
    apply frame_tail_publishes_count.
Qed.

Lemma frame_publishes_count_witness :
  dict_get
    (vehicle_counts
       (globals
          (process_frame "A" (quiet_frame (standing 2))
             approaching_worker).2)) "A"
  = Some (Z.of_nat (length (tracked_of (quiet_frame (standing 2))))).
Proof.
  apply (frame_publishes_count "A" (quiet_frame (standing 2))
           approaching_worker).
  vm_compute; reflexivity.
Defined.


(** X15.  The rows of the tracker are unpacked in order: when no row has
    more than five entries, the tracked objects are the rows of exactly
    five entries, in order, shorter rows being skipped; when some row has
    more than five entries the unpacking raises, and a frame whose tracker
    returned such rows has no tracked object at all. *)
Theorem rows_unpack_in_order (rows : list (list Z)) :
  ((∀ trk, trk ∈ rows → (length trk ≤ 5)%nat) →
   rows_to_objects rows
   = Ok (object_of_row <$> filter (λ trk, length trk = 5%nat) rows)) ∧
  ((∃ trk, trk ∈ rows ∧ (5 < length trk)%nat) →
   rows_to_objects rows = Raise ∧
   ∀ fr n, fr_detections fr = Ok (S n) → fr_tracker_update fr = Ok rows →
           tracked_of fr = []).
Proof.
  split.
  - induction rows as [|trk rows IH]; intros Hshort; [done |].
    assert (length trk ≤ 5)%nat as Hlen by apply Hshort, list_elem_of_here.
    assert (rows_to_objects rows
            = Ok (object_of_row <$> filter (λ trk, length trk = 5%nat) rows))
      as Hrest by (apply IH; intros ? ?; by apply Hshort, list_elem_of_further).
    rewrite filter_cons. cbn [rows_to_objects].
    destruct (decide (length trk = 5%nat)) as [Hfive|Hnot].
    + destruct trk as [|x1 [|y1 [|x2 [|y2 [|track_id [|? ?]]]]]]; try done.
      by rewrite Hrest.
    + destruct (Nat.leb_spec 5 (length trk)); [lia | done].
  - intros (long & Hin & Hlong).
    assert (rows_to_objects rows = Raise) as Hraise.
    { induction rows as [|trk rows IH]; [by apply elem_of_nil in Hin |].
      cbn [rows_to_objects].
      apply elem_of_cons in Hin as [<-|Hin].
      - destruct (Nat.leb_spec 5 (length long)); [| lia].
        by destruct long as [|x1 [|y1 [|x2 [|y2 [|track_id [|? ?]]]]]];
          simpl in Hlong; try lia.
      - rewrite (IH Hin).
        destruct (5 <=? length trk)%nat; [| done].
        by destruct trk as [|x1 [|y1 [|x2 [|y2 [|track_id [|? ?]]]]]]. }
    split; [done |]. intros fr n Hdet Htrack. unfold tracked_of.
    by rewrite Hdet, Htrack, Hraise.
Qed.

Lemma rows_unpack_in_order_witness :
  rows_to_objects [[0; 0; 10; 70; 1]; [3; 4]; [20; 0; 30; 95; 2]]
  = Ok [{| obj_id := 1; obj_bbox := (0, 0, 10, 70) |};
        {| obj_id := 2; obj_bbox := (20, 0, 30, 95) |}] ∧
  rows_to_objects [[0; 0; 10; 70; 1]; [20; 0; 30; 95; 2; 7]] = Raise.
Proof.
  split.
  - destruct (rows_unpack_in_order
                [[0; 0; 10; 70; 1]; [3; 4]; [20; 0; 30; 95; 2]])
      as [Hshort _].
    apply Hshort. intros trk Hin.
    apply elem_of_cons in Hin as [->|Hin]; [simpl; lia |].
    apply elem_of_cons in Hin as [->|Hin]; [simpl; lia |].
    apply list_elem_of_singleton in Hin as ->. simpl; lia.
  - destruct (rows_unpack_in_order
                [[0; 0; 10; 70; 1]; [20; 0; 30; 95; 2; 7]])
      as [_ Hlong].
    apply Hlong. exists [20; 0; 30; 95; 2; 7]. split.
    + apply list_elem_of_further, list_elem_of_here.
    + simpl; lia.
Defined.

(** X16.  The loop body stores the bottom edge of the bounding box as the
    last position of the vehicle in its lane unconditionally: the stored
    value is the current one after the body, whether a violation was
    signalled or not and whether the body returned or raised. *)
Theorem position_stored_unconditionally (cam : string) (fr : Frame)
  (crossing_y : Z) (obj : TrackedObject) (w : WorkerState) :
  positions_of
    (vehicle_last_positions
       (globals (process_object cam fr crossing_y obj w).2)) cam
    !! obj_id obj
  = Some (bottom_y obj).
Proof.
  rewrite process_object_run.
  destruct (check_violation_trace cam fr crossing_y (obj_id obj)
              (last_y_of cam obj (globals w)) (bottom_y obj)
              (positioned cam (obj_id obj) (bottom_y obj) w))
    as (r & w1 & new1 & -> & _ & _ & _ & Hpos1).
  assert (positions_of (vehicle_last_positions (globals w1)) cam !! obj_id obj
          = Some (bottom_y obj)) as Hstored.
  { rewrite Hpos1. simpl. unfold positions_of at 1.
    rewrite lookup_insert_eq. simpl. apply lookup_insert_eq. }
  destruct r as [[]|]; [| done].
  destruct (count_vehicle_trace fr (obj_id obj) w1)
    as (r' & w' & new2 & -> & _ & _ & Hpos2).
  simpl. by rewrite Hpos2.
Qed.

Lemma count_increments_app l1 l2 :
  count_increments (l1 ++ l2) = (count_increments l1 + count_increments l2)%nat.
Proof.
  induction l1 as [|ev l1 IH]; [done |]. destruct ev; simpl; by rewrite ?IH.
Qed.

Lemma union_singleton_absorb (x : Z) (C : gset Z) :
  x ∈ C → {[x]} ∪ C = C.
Proof.
  intros Hin. apply leibniz_equiv. intros y.
  rewrite elem_of_union, elem_of_singleton.
  split; [intros [->|?]; done | by right].
Qed.

(** The loop body when every collaborator answers. *)
Lemma process_object_counts cam fr crossing_y obj w :
  blocks_answer fr →
  ∃ w' new,
    process_object cam fr crossing_y obj w = (Ok tt, w') ∧
    trace (globals w') = new ++ trace (globals w) ∧
    counted_ids w' = {[obj_id obj]} ∪ counted_ids w ∧
    count_increments new
    = (if bool_decide (obj_id obj ∈ counted_ids w) then 0 else 1)%nat.
Proof.
  intros Hanswer.
  destruct (Hanswer (obj_id obj))
    as ((speed & Hspeed) & (written & Hwrite) & Hlog & Hinc).
  rewrite process_object_run, check_violation_run, Hspeed, Hwrite, Hlog.
  destruct (signalled _ _ _ _ _ _); cbv beta iota zeta;
    rewrite count_vehicle_run, Hinc; simpl;
    destruct (decide (obj_id obj ∈ counted_ids w)) as [Hcounted|Hcounted].
  - rewrite !bool_decide_eq_true_2 by done.
    eexists _, [_; _; _]. split_and!; [done | done | | done].
    simpl. by rewrite union_singleton_absorb.
  - rewrite !bool_decide_eq_false_2 by done.
    eexists _, [_; _; _; _]. split_and!; [done | done | done | done].
  - rewrite !bool_decide_eq_true_2 by done.
    eexists _, []. split_and!; [done | done | | done].
    simpl. by rewrite union_singleton_absorb.
  - rewrite !bool_decide_eq_false_2 by done.
    eexists _, [_]. split_and!; [done | done | done | done].
Qed.

(** X17.  Over the tracked objects of a frame, with every collaborator of
    the loop answering, [stats.increment_vehicle] is called once for each
    distinct identifier that the worker had not counted before, and for no
    other; afterwards every identifier of the frame is counted. *)
Theorem vehicles_counted_once (cam : string) (fr : Frame) (crossing_y : Z)
  (objs : list TrackedObject) (w : WorkerState) :
  blocks_answer fr →
  ∃ w' new,
    for_each objs (process_object cam fr crossing_y) w = (Ok tt, w') ∧
    trace (globals w') = new ++ trace (globals w) ∧
    counted_ids w' = list_to_set (obj_id <$> objs) ∪ counted_ids w ∧
    count_increments new
    = size (list_to_set (obj_id <$> objs) ∖ counted_ids w : gset Z).
Proof.
  intros Hanswer. revert w. induction objs as [|obj objs IH]; intros w.
  - exists w, []. split_and!; [done | done | |].
    + simpl. by rewrite (left_id_L ∅ (∪)).
    + simpl. replace (∅ ∖ counted_ids w) with (∅ : gset Z); [done |].
      apply leibniz_equiv. intros x.
      rewrite elem_of_difference, elem_of_empty. tauto.
  - destruct (process_object_counts cam fr crossing_y obj w Hanswer)
      as (w1 & new1 & Hrun1 & Htrace1 & Hcounted1 & Hinc1).
    destruct (IH w1) as (w' & new & Hrun & Htrace & Hcounted & Hinc).
    exists w', (new ++ new1). split_and!.
    + simpl. unfold wbind. by rewrite Hrun1.
    + by rewrite Htrace, Htrace1, app_assoc.
    + rewrite Hcounted, Hcounted1, fmap_cons. simpl.
      apply leibniz_equiv. intros x.
      rewrite !elem_of_union, elem_of_singleton. tauto.
    + rewrite count_increments_app, Hinc, Hinc1, Hcounted1, fmap_cons. simpl.
      set (ids := list_to_set (obj_id <$> objs) : gset Z).
      set (seen := counted_ids w).
      destruct (decide (obj_id obj ∈ seen)) as [Hin|Hout].
      * rewrite bool_decide_eq_true_2, Nat.add_0_r by done.
        rewrite (union_singleton_absorb _ seen Hin). f_equal.
        apply leibniz_equiv. intros x.
        rewrite !elem_of_difference, !elem_of_union, elem_of_singleton.
        split; [tauto |]. intros [[->|Hx] Hx']; [done | done].
      * rewrite bool_decide_eq_false_2 by done.
        replace (({[obj_id obj]} ∪ ids) ∖ seen)
          with ({[obj_id obj]} ∪ ids ∖ ({[obj_id obj]} ∪ seen)).
        -- rewrite (size_union {[obj_id obj]}
                      (ids ∖ ({[obj_id obj]} ∪ seen))).
           ++ rewrite size_singleton. lia.
           ++ intros x Hx1 Hx2. apply elem_of_singleton in Hx1 as ->.
              apply elem_of_difference in Hx2 as [_ Hx2]. apply Hx2.
              apply elem_of_union. left. by apply elem_of_singleton.
        -- apply leibniz_equiv. intros x.
           rewrite !elem_of_union, !elem_of_difference, !elem_of_union,
             !elem_of_singleton.
           destruct (decide (x = obj_id obj)) as [->|Hne]; tauto.
Qed.

Lemma vehicles_counted_once_witness :
  ∃ w' new,
    for_each [crossing_object; newcomer_object; newcomer_object]
      (process_object "A" (quiet_frame []) 80) approaching_worker
    = (Ok tt, w') ∧
    trace (globals w') = new ++ trace (globals approaching_worker) ∧
    counted_ids w'
    = list_to_set
        (obj_id <$> [crossing_object; newcomer_object; newcomer_object])
      ∪ counted_ids approaching_worker ∧
    count_increments new
    = size (list_to_set
              (obj_id <$> [crossing_object; newcomer_object; newcomer_object])
            ∖ counted_ids approaching_worker : gset Z).
Proof.
  apply (vehicles_counted_once "A" (quiet_frame []) 80
           [crossing_object; newcomer_object; newcomer_object]
           approaching_worker).
  intros vehicle_id. split_and!; [by exists 40 | by exists true | done | done].
Defined.


(** ** [main.py] *)

Lemma int_of_lt (q : Q) (n : Z) :
  0 < n → int_of q < n ↔ (q < inject_Z n)%Q.
Proof.
  intros Hn. destruct q as [a d]. unfold int_of, Qlt. simpl.
  rewrite Z.mul_1_r.
  destruct (Z.le_gt_cases 0 a) as [Hpos|Hneg].
  - rewrite Z.quot_div_nonneg by lia.
    pose proof (Z.div_mod a (Z.pos d)) as Hdiv.
    pose proof (Z.mod_pos_bound a (Z.pos d)) as Hmod.
    split; intros Hlt.
    + assert (a `div` Z.pos d + 1 ≤ n) as Hle by lia. nia.
    + apply Z.div_lt_upper_bound; lia.
  - assert (a `quot` Z.pos d ≤ 0) as Hq.
    { pose proof (Z.quot_opp_l a (Z.pos d)) as Hopp.
      pose proof (Z.quot_pos (- a) (Z.pos d)) as Hge. lia. }
    split; intros _; nia.
Qed.

(** X18.  The computation of the status query, for whatever override
    record the dictionary it reads holds: the remaining time is never
    negative; it is positive exactly when a pass of the scheduler made at
    the same clock reading on a state with that record would hold the
    emergency (the truncation by [int] does not move the boundary); and
    when the clock is not before the activation it is at most the hold
    time. *)
Theorem status_remaining_time (now : Q) (s : State) :
  let status := Main.get_emergency_status now (emergency_override s) in
  0 ≤ Main.remaining_time status ∧
  (0 <? Main.remaining_time status) = emergency_holds now s ∧
  ((0 <= now - timestamp (emergency_override s))%Q →
   Main.remaining_time status ≤ Main.EMERGENCY_HOLD_TIME).
Proof.
  unfold emergency_holds. simpl.
  destruct (active (emergency_override s)); simpl; [| done].
  set (elapsed := (now - timestamp (emergency_override s))%Q).
  split_and!.
  - lia.
  - destruct (Qltb elapsed (inject_Z EMERGENCY_HOLD_TIME)) eqn:Hlt.
    + apply Qltb_lt, (int_of_lt _ 20) in Hlt; [| done].
      apply Z.ltb_lt. unfold Main.EMERGENCY_HOLD_TIME. lia.
    + apply Z.ltb_ge.
      assert (¬ int_of elapsed < 20) as Hge.
      { intros Hi. apply (int_of_lt _ 20), Qltb_lt in Hi; [| done].
        unfold EMERGENCY_HOLD_TIME in Hlt. congruence. }
      unfold Main.EMERGENCY_HOLD_TIME. lia.
  - intros Hpos.
    assert (¬ int_of elapsed < 0) as Hge;
      [| unfold Main.EMERGENCY_HOLD_TIME; lia].
    destruct elapsed as [a d]. unfold int_of, Qle in *. simpl in *.
    rewrite Z.quot_div_nonneg by lia.
    pose proof (Z.div_pos a (Z.pos d)). lia.
Qed.

Lemma status_remaining_time_witness :
  Main.remaining_time
    (Main.get_emergency_status 105%Q
       (emergency_override (sys_globals siren_system)))
  ≤ Main.EMERGENCY_HOLD_TIME.
Proof.
  destruct (status_remaining_time 105%Q (sys_globals siren_system))
    as (_ & _ & Hmost).
  apply Hmost. vm_compute; discriminate.
Defined.

Lemma split_char_last sep s :
  ∃ pieces last dir,
    Challan.split_char sep s = pieces ++ [last] ∧
    s = String.append dir last ∧
    occurs sep last = false ∧
    (pieces = [] → dir = EmptyString) ∧
    (pieces ≠ [] → ∃ d, dir = String.append d (String sep EmptyString)).
Proof.
  induction s as [|c s IH].
  - exists [], EmptyString, EmptyString. by split_and!.
  - destruct IH as (pieces & last & dir & Hsplit & Hs & Hocc & Hnil & Hcons).
    cbn [Challan.split_char]. destruct (Ascii.eqb_spec c sep) as [->|Hne].
    + exists (EmptyString :: pieces), last, (String sep dir).
      split_and!; [by rewrite Hsplit | by rewrite Hs | done | done |].
      intros _. destruct pieces as [|p ps].
      * rewrite (Hnil eq_refl). by exists EmptyString.
      * destruct Hcons as [d ->]; [done |]. by exists (String sep d).
    + rewrite Hsplit. destruct pieces as [|p ps]; simpl.
      * exists [], (String c last), EmptyString.
        split_and!; [done | by rewrite Hs, (Hnil eq_refl) | | done | done].
        simpl. rewrite Hocc. by destruct (Ascii.eqb_spec c sep).
      * exists (String c p :: ps), last, (String c dir).
        split_and!; [done | by rewrite Hs | done | done |].
        intros _. destruct Hcons as [d ->]; [done |]. by exists (String c d).
Qed.

(** X19.  The challan download answers 404 for a path that does not
    exist.  For a path that exists the split and the index [-1] never fail,
    and it answers the file with, as file name, the part of the path after
    its last "/": the name contains no "/", the path is a directory part
    followed by the name, and the directory part is empty or ends in "/". *)
Theorem download_names_last_component (path_exists : string → bool)
  (pdf_path : string) :
  if path_exists pdf_path then
    ∃ filename dir,
      Challan.download_challan path_exists pdf_path
      = Ok (Challan.FileResponse pdf_path filename) ∧
      pdf_path = String.append dir filename ∧
      occurs Challan.slash filename = false ∧
      (dir = EmptyString ∨ ∃ d, dir = String.append d "/")
  else Challan.download_challan path_exists pdf_path = Ok Challan.NotFound.
Proof.
  unfold Challan.download_challan.
  destruct (path_exists pdf_path); [| done]. simpl.
  destruct (split_char_last Challan.slash pdf_path)
    as (pieces & last & dir & -> & Hpath & Hocc & Hnil & Hcons).
  exists last, dir. split_and!; [| done | done |].
  - unfold getitem. simpl. rewrite length_app. simpl.
    destruct (Z.ltb_spec (Z.of_nat (length pieces + 1) + -1) 0); [lia |].
    replace (Z.to_nat (Z.of_nat (length pieces + 1) + -1))
      with (length pieces) by lia.
    by rewrite list_lookup_middle.
  - destruct pieces; [left; by apply Hnil | right; by apply Hcons].
Qed.


(** ** Starvation under the fairness rule *)

Lemma forced_green_front prio front back lane :
  lane ∈ front → WAIT_LIMIT ≤ priority_of prio lane →
  ∃ sel, forced_green prio (front ++ back) = Some sel ∧ sel ∈ front ∧
         WAIT_LIMIT ≤ priority_of prio sel.
Proof.
  induction front as [|x front IH]; intros Hin Hwait.
  - by apply elem_of_nil in Hin.
  - simpl. destruct (Z.leb_spec WAIT_LIMIT (priority_of prio x)) as [Hle|Hlt].
    + exists x. split_and!; [done | apply list_elem_of_here | done].
    + apply elem_of_cons in Hin as [->|Hin]; [lia |].
      destruct (IH Hin Hwait) as (sel & Hsel & Hfront & Hle).
      exists sel. split_and!; [done | by apply list_elem_of_further | done].
Qed.

Lemma NoDup_four {A} (a b c d : A) :
  NoDup [a; b; c; d] ↔
  a ≠ b ∧ a ≠ c ∧ a ≠ d ∧ b ≠ c ∧ b ≠ d ∧ c ≠ d.
Proof.
  rewrite !NoDup_cons, !elem_of_cons, !elem_of_nil.
  split.
  - intros (Ha & Hb & Hc & _). split_and!; intros ->; tauto.
  - intros (Hab & Hac & Had & Hbc & Hbd & Hcd).
    split_and!; [tauto | tauto | tauto | tauto | apply NoDup_nil_2].
Qed.

(** One pass with a queue ahead: a lane of [front] is selected and the
    queue is there again. *)
Lemma queue_ahead_pass t s front back :
  active (emergency_override s) = false →
  lanes_of s = front ++ back →
  NoDup (lanes_of s) →
  EmptyString ∉ front →
  low_traffic (vehicle_counts s) = false →
  lane_set_changed (lane_cycle s) (lanes_of s) = false →
  queue_ahead front (lane_priority s) →
  ∃ sel,
    sel ∈ front ∧
    update_traffic_signals_step t s
    = Ok (with_traffic_lights
            (set_lights sel (lanes_of s) (traffic_lights s))
            (with_lane_priority
               (update_priorities sel (lanes_of s) (lane_priority s)) s),
          Selected sel) ∧
    queue_ahead front (update_priorities sel (lanes_of s) (lane_priority s)).
Proof.
  intros Hactive Hlanes Hdup Hnamed Hbusy Hsame
    (a & b & c & d & Hfour & Ha & Hb & Hc & Hd & Hpa & Hpb & Hpc & Hpd).
  assert (emergency_holds t s = false) as Hhold
    by (unfold emergency_holds; by rewrite Hactive).
  assert (vehicle_counts s ≠ []) as Hne
    by (by intros Hvc; rewrite Hvc in Hbusy).
  destruct (step_explicit t s Hhold Hne) as (sel & _ & Hchoice & Hstep).
  assert (release s = s) as Hrel by (unfold release; by rewrite Hactive).
  rewrite Hrel in Hstep. unfold after_selection in Hstep.
  rewrite Hbusy in Hchoice, Hstep. unfold busy_choice in Hchoice.
  rewrite (base_priority_unchanged _ Hsame) in Hchoice.
  assert (refresh_lane_cycle (lanes_of s) s = s) as Hrefresh
    by (unfold refresh_lane_cycle; by rewrite Hsame).
  rewrite Hrefresh in Hstep.
  destruct (forced_green_front (lane_priority s) front back a Ha Hpa)
    as (x & Hforced & Hx & Hpx).
  rewrite Hlanes in Hchoice at 1. rewrite Hforced in Hchoice.
  assert (truthy x = true) as Htruthy.
  { unfold truthy. destruct (String.eqb_spec x EmptyString) as [->|]; done. }
  rewrite Htruthy in Hchoice. injection Hchoice as <-.
  exists x. split_and!; [done | done |].
  assert (∀ lane, lane ∈ front →
            priority_of (update_priorities x (lanes_of s) (lane_priority s))
              lane
            = if String.eqb lane x then 0
              else priority_of (lane_priority s) lane + 1) as Hnew.
  { intros lane Hin. apply update_priorities_in; [done |].
    rewrite Hlanes. apply elem_of_app. by left. }
  assert (priority_of (update_priorities x (lanes_of s) (lane_priority s)) x
          = 0) as Hzero.
  { rewrite (Hnew x Hx). by rewrite String.eqb_refl. }
  assert (∀ lane, lane ∈ front → lane ≠ x →
            priority_of (update_priorities x (lanes_of s) (lane_priority s))
              lane
            = priority_of (lane_priority s) lane + 1) as Hother.
  { intros lane Hin Hneq. rewrite (Hnew lane Hin).
    by destruct (String.eqb_spec lane x). }
  apply NoDup_four in Hfour as (Hab & Hac & Had & Hbc & Hbd & Hcd).
  unfold queue_ahead, WAIT_LIMIT in *.
  destruct (decide (x = a)) as [->|Hxa];
    [| destruct (decide (x = b)) as [->|Hxb];
       [| destruct (decide (x = c)) as [->|Hxc]]].
  - exists b, c, d, a. rewrite NoDup_four.
    rewrite (Hother b), (Hother c), (Hother d), Hzero by done.
    split_and!; try done; try lia; try congruence.
  - exists a, c, d, b. rewrite NoDup_four.
    rewrite (Hother a), (Hother c), (Hother d), Hzero by done.
    split_and!; try done; try lia; try congruence.
  - exists a, b, d, c. rewrite NoDup_four.
    rewrite (Hother a), (Hother b), (Hother d), Hzero by done.
    split_and!; try done; try lia; try congruence.
  - exists a, b, c, d. rewrite NoDup_four.
    rewrite (Hother a), (Hother b), (Hother c) by done.
    split_and!; try done; try lia.
    destruct (decide (x = d)) as [->|Hxd]; [rewrite Hzero; lia |].
    rewrite (Hother d) by done. lia.
Qed.

(** X20.  The fairness rule does not reach every lane.  While no emergency
    is active, the traffic stays busy and the lane set unchanged, the scan
    takes the first lane in iteration order whose counter is at least
    WAIT_LIMIT.  Once four named lanes placed before a lane in that order
    have counters of at least WAIT_LIMIT, WAIT_LIMIT - 1, WAIT_LIMIT - 2
    and WAIT_LIMIT - 3, every pass selects a lane placed before it: its
    counter grows by one on every pass and its light stays RED. *)
Theorem later_lanes_starve (clock : list Q) (s : State)
  (front back : list string) :
  active (emergency_override s) = false →
  lanes_of s = front ++ back →
  NoDup (lanes_of s) →
  EmptyString ∉ front →
  low_traffic (vehicle_counts s) = false →
  lane_set_changed (lane_cycle s) (lanes_of s) = false →
  queue_ahead front (lane_priority s) →
  ∃ s',
    update_traffic_signals clock s = Ok s' ∧
    ∀ lane, lane ∈ back →
      priority_of (lane_priority s') lane
      = priority_of (lane_priority s) lane + Z.of_nat (length clock) ∧
      (clock ≠ [] → traffic_lights s' !! Some lane = Some RED).
Proof.
  revert s. induction clock as [|t clock IH];
    intros s Hactive Hlanes Hdup Hnamed Hbusy Hsame Hqueue.
  - exists s. split; [done |]. intros lane _. split; [simpl; lia | done].
  - destruct (queue_ahead_pass t s front back) as (sel & Hsel & Hstep & Hq);
      try done.
    cbn [update_traffic_signals]. rewrite Hstep. unfold rbind at 1.
    cbv beta iota.
    set (s1 := with_traffic_lights _ _) in *.
    destruct (IH s1) as (s' & Hrun & Hback); try done.
    exists s'. split; [done |]. intros lane Hlane.
    assert (lane ∈ lanes_of s) as Hin
      by (rewrite Hlanes; apply elem_of_app; by right).
    assert (lane ≠ sel) as Hneq.
    { intros ->. rewrite Hlanes in Hdup.
      apply NoDup_app in Hdup as (_ & Hdisjoint & _).
      by apply (Hdisjoint sel). }
    destruct (Hback lane Hlane) as [Hprio Hred]. split.
    + rewrite Hprio. subst s1. simpl.
      rewrite (update_priorities_in _ _ _ _ Hdup Hin).
      destruct (String.eqb_spec lane sel); [done |].
      rewrite Nat2Z.inj_succ. lia.
    + intros _. destruct clock as [|t' clock]; [| by apply Hred].
      cbn [update_traffic_signals] in Hrun. injection Hrun as <-.
      subst s1. simpl. by apply set_lights_other.
Qed.

Lemma later_lanes_starve_witness :
  ∃ s',
    update_traffic_signals [31%Q; 41%Q; 51%Q; 61%Q; 71%Q]
      five_busy_lanes_state = Ok s' ∧
    ∀ lane, lane ∈ ["E"] →
      priority_of (lane_priority s') lane
      = priority_of (lane_priority five_busy_lanes_state) lane + 5 ∧
      (([31%Q; 41%Q; 51%Q; 61%Q; 71%Q] : list Q) ≠ [] →
       traffic_lights s' !! Some lane = Some RED).
Proof.
  apply (later_lanes_starve [31%Q; 41%Q; 51%Q; 61%Q; 71%Q]
           five_busy_lanes_state ["A"; "B"; "C"; "D"] ["E"]).
  - vm_compute; reflexivity.
  - vm_compute; reflexivity.
  - apply (bool_decide_unpack _). vm_compute. exact I.
  - apply (bool_decide_unpack _). vm_compute. exact I.
  - vm_compute; reflexivity.
  - vm_compute; reflexivity.
  - exists "B", "C", "D", "A". split_and!.
    + apply (bool_decide_unpack _). vm_compute. exact I.
    + apply (bool_decide_unpack _). vm_compute. exact I.
    + apply (bool_decide_unpack _). vm_compute. exact I.
    + apply (bool_decide_unpack _). vm_compute. exact I.
    + apply (bool_decide_unpack _). vm_compute. exact I.
    + vm_compute; discriminate.
    + vm_compute; discriminate.
    + vm_compute; discriminate.
    + vm_compute; discriminate.
Defined.
